(** * pyNMS routing and flow engine: a shallow embedding and its properties

    The definitions below follow [pyNMS/networks/base_network.py] and
    [pyNMS/networks/network.py].  Objects (nodes, links) are referred to by
    their identity; the mutable fields of the links live in a store that is
    threaded through the functions that mutate them. *)

From Stdlib Require Import ZArith QArith Lia Permutation Sorted.
From stdpp Require Import gmap strings list fin_maps pretty sorting.

Set Warnings "-clear-no-such-hyp".

(** ** Python numbers

    Link attributes and distances are Python numbers.  The engine uses
    [float('inf')] as a sentinel, so the model takes exact integers extended
    with the three special values of the floats. *)

Inductive num : Type :=
  | Fin (z : Z)
  | PInf
  | NInf
  | NaN.

#[global] Instance num_eq_dec : EqDecision num.
Proof. solve_decision. Defined.

#[global] Instance num_inhabited : Inhabited num := populate (Fin 0).

Definition nadd (a b : num) : num :=
  match a, b with
  | NaN, _ | _, NaN => NaN
  | Fin x, Fin y => Fin (x + y)%Z
  | PInf, NInf | NInf, PInf => NaN
  | PInf, _ | _, PInf => PInf
  | NInf, _ | _, NInf => NInf
  end.

Definition nneg (a : num) : num :=
  match a with
  | Fin x => Fin (- x)%Z
  | PInf => NInf
  | NInf => PInf
  | NaN => NaN
  end.

Definition nsub (a b : num) : num := nadd a (nneg b).

(** [a < b] of Python: every comparison with a NaN is false. *)
Definition nlt (a b : num) : bool :=
  match a, b with
  | NaN, _ | _, NaN => false
  | Fin x, Fin y => bool_decide (x < y)%Z
  | Fin _, PInf => true
  | NInf, Fin _ => true
  | NInf, PInf => true
  | _, _ => false
  end.

(** [min(a, b)] of Python returns [a] unless [b < a]. *)
Definition nmin (a b : num) : num := if nlt b a then b else a.

(** Truth value of a number: everything but zero. *)
Definition truthy (a : num) : bool :=
  match a with
  | Fin 0%Z => false
  | _ => true
  end.

Definition nsum (l : list num) : num := foldl nadd (Fin 0) l.

(** ** Exceptions and the result of a call

    A call returns, raises, or is still running when the fuel of the model
    is spent ([Timeout]). *)

Inductive exn : Type :=
  | KeyError
  | ZeroDivisionError
  | TypeError
  | AttributeError
  | ValueError
  | IndexError
  | UnboundLocalError
  | OverflowError.

Inductive outcome (A : Type) : Type :=
  | Ret (a : A)
  | Raise (e : exn)
  | Timeout.
Arguments Ret {A} a.
Arguments Raise {A} e.
Arguments Timeout {A}.

#[global] Instance outcome_bind : MBind outcome := λ A B k m,
  match m with
  | Ret a => k a
  | Raise e => Raise e
  | Timeout => Timeout
  end.

#[global] Instance outcome_ret : MRet outcome := λ A a, Ret a.

(** A dictionary access [d[k]]. *)
Definition getitem {V} (d : gmap nat V) (k : nat) : outcome V :=
  match d !! k with
  | Some v => Ret v
  | None => Raise KeyError
  end.

(** ** Links and the network *)

Definition node := nat.

(** The direction-qualified attributes of a physical link. *)
Record Link : Type := mkLink {
  source : node;
  destination : node;
  costSD : num;
  costDS : num;
  capacitySD : num;
  capacityDS : num;
  flowSD : num;
  flowDS : num;
  trafficSD : Q;
  trafficDS : Q;
  wctrafficSD : Q;
  wctrafficDS : Q;
  wcfailure : option nat
}.

#[global] Instance Link_inhabited : Inhabited Link :=
  populate (mkLink 0 0 (Fin 0) (Fin 0) (Fin 0) (Fin 0) (Fin 0) (Fin 0)
                   0%Q 0%Q 0%Q 0%Q None).

Definition set_costSD (c : num) (l : Link) : Link :=
  mkLink (source l) (destination l) c (costDS l) (capacitySD l)
         (capacityDS l) (flowSD l) (flowDS l) (trafficSD l) (trafficDS l)
         (wctrafficSD l) (wctrafficDS l) (wcfailure l).

Definition set_costDS (c : num) (l : Link) : Link :=
  mkLink (source l) (destination l) (costSD l) c (capacitySD l)
         (capacityDS l) (flowSD l) (flowDS l) (trafficSD l) (trafficDS l)
         (wctrafficSD l) (wctrafficDS l) (wcfailure l).

Definition set_flowSD (c : num) (l : Link) : Link :=
  mkLink (source l) (destination l) (costSD l) (costDS l) (capacitySD l)
         (capacityDS l) c (flowDS l) (trafficSD l) (trafficDS l)
         (wctrafficSD l) (wctrafficDS l) (wcfailure l).

Definition set_flowDS (c : num) (l : Link) : Link :=
  mkLink (source l) (destination l) (costSD l) (costDS l) (capacitySD l)
         (capacityDS l) (flowSD l) c (trafficSD l) (trafficDS l)
         (wctrafficSD l) (wctrafficDS l) (wcfailure l).

(** [(plink.source, plink.destination)] *)
Definition endpoints (l : Link) : node * node := (source l, destination l).

(** The two directions of a link. *)
Inductive dir : Type := SD | DS.

Definition rev_dir (d : dir) : dir :=
  match d with SD => DS | DS => SD end.

(** [(node == plink.source)*'SD' or 'DS'] *)
Definition dir_from (n : node) (l : Link) : dir :=
  if decide (n = source l) then SD else DS.

Definition cost_dir (d : dir) (l : Link) : num :=
  match d with SD => costSD l | DS => costDS l end.

Definition capacity_dir (d : dir) (l : Link) : num :=
  match d with SD => capacitySD l | DS => capacityDS l end.

Definition flow_dir (d : dir) (l : Link) : num :=
  match d with SD => flowSD l | DS => flowDS l end.

Definition set_cost_dir (d : dir) (c : num) (l : Link) : Link :=
  match d with SD => set_costSD c l | DS => set_costDS c l end.

Definition set_flow_dir (d : dir) (c : num) (l : Link) : Link :=
  match d with SD => set_flowSD c l | DS => set_flowDS c l end.

(** Modelled from the spec: [Link.__call__] of [objects/objects.py], used as
    [plink('cost', node)], is not under src/.  By section 3 of the
    specification an attribute is read in the direction given by the
    endpoint that is current: SD when the node is the source of the link. *)
Definition call_cost (l : Link) (n : node) : num := cost_dir (dir_from n l) l.

(** The store of link objects ([self.plinks], a dictionary from id to link)
    and the adjacency of the physical links ([self.graph[id]['plink']], a
    set of (neighbour, link) pairs, listed in iteration order). *)
Record Network : Type := mkNetwork {
  nodes : list node;
  plinks : gmap nat Link;
  graph : gmap nat (list (node * nat))
}.

Definition set_plinks (p : gmap nat Link) (nk : Network) : Network :=
  mkNetwork (nodes nk) p (graph nk).

(** The fields of the link object with identity [l]. *)
Definition link (nk : Network) (l : nat) : Link := plinks nk !!! l.

(** [self.graph[n.id]['plink']]: a [defaultdict], empty where unset. *)
Definition adj (nk : Network) (n : node) : list (node * nat) :=
  default [] (graph nk !! n).

(** A mutation of the link object [l]. *)
Definition update_link (f : Link → Link) (l : nat) (nk : Network) : Network :=
  set_plinks (alter f l (plinks nk)) nk.

(** [set(self.plinks.values())] and [set(self.nodes.values())] *)
Definition all_plinks (nk : Network) : list nat := elements (dom (plinks nk)).
Definition all_nodes (nk : Network) : list node := nodes nk.

Definition mem (x : nat) (l : list nat) : bool := bool_decide (x ∈ l).

(** ** Priority queues

    [heapq] orders the entries by their first component, the distance; how
    entries of equal distance compare is left to the comparison of node
    objects, which is defined outside these files.  A pop operation is any
    function that removes an entry of least distance, as long as the
    distances compare (none is a NaN). *)

Section Heap.
Context {E : Type} (key : E → num).

Definition nle (a b : num) : Prop := nlt b a = false.

Record is_heappop (pop : list E → option (E * list E)) : Prop := {
  pop_nil : pop [] = None;
  pop_cons : ∀ h, h ≠ [] →
    ∃ e h', pop h = Some (e, h') ∧ Permutation h (e :: h') ∧
            (Forall (λ x, key x ≠ NaN) h →
             Forall (λ x, nle (key e) (key x)) h)
}.

(** The pop used for evaluation: the first entry of least distance. *)
Fixpoint pop_min (h : list E) : option (E * list E) :=
  match h with
  | [] => None
  | e :: h' =>
      match pop_min h' with
      | None => Some (e, [])
      | Some (m, r) =>
          if nlt (key m) (key e) then Some (m, e :: r) else Some (e, h')
      end
  end.
End Heap.

(** ** Shortest paths *)

Module Paths.

(** A loop over an iterable whose body may raise. *)
Fixpoint for_each {A S} (l : list A) (s : S) (body : A → S → outcome S)
  : outcome S :=
  match l with
  | [] => Ret s
  | a :: l' => s' ← body a s; for_each l' s' body
  end.

(** Optional arguments: [None] selects every link, or every node. *)
Definition allowed_plinks_of (nk : Network) (a : option (list nat)) :=
  default (all_plinks nk) a.
Definition allowed_nodes_of (nk : Network) (a : option (list node)) :=
  default (all_nodes nk) a.

(** [{i: v for i in allowed_nodes}] *)
Definition dict_of {V} (keys : list nat) (v : V) : gmap nat V :=
  list_to_map ((λ k, (k, v)) <$> keys).

(** *** Dijkstra *)

Record DState : Type := mkDState {
  d_dist : gmap nat num;
  d_prec_node : gmap nat (option node);
  d_prec_plink : gmap nat (option nat);
  d_visited : gset nat;
  d_heap : list (num * node)
}.

(** The body of [for neighbor, adj_plink in self.graph[node.id]['plink']]. *)
Definition dijkstra_relax (nk : Network) (a_p : list nat) (a_n : list node)
    (n : node) (dist_node : num) (e : node * nat) (st : DState)
  : outcome DState :=
  let '(neighbor, adj_plink) := e in
  if negb (mem neighbor a_n) then Ret st
  else if negb (mem adj_plink a_p) then Ret st
  else
    let dist_neighbor := nadd dist_node (call_cost (link nk adj_plink) n) in
    old ← getitem (d_dist st) neighbor;
    if nlt dist_neighbor old then
      Ret (mkDState (<[neighbor := dist_neighbor]> (d_dist st))
                    (<[neighbor := Some n]> (d_prec_node st))
                    (<[neighbor := Some adj_plink]> (d_prec_plink st))
                    (d_visited st)
                    (d_heap st ++ [(dist_neighbor, neighbor)]))
    else Ret st.

Definition heappop_t (E : Type) : Type := list E → option (E * list E).

(** [while heap: ...] *)
Fixpoint dijkstra_loop (pop : heappop_t (num * node)) (fuel : nat)
    (nk : Network) (a_p : list nat) (a_n : list node) (st : DState)
  : outcome DState :=
  match fuel with
  | O => Timeout
  | S fuel' =>
      match pop (d_heap st) with
      | None => Ret st
      | Some ((dist_node, n), h) =>
          let st1 := mkDState (d_dist st) (d_prec_node st) (d_prec_plink st)
                              (d_visited st) h in
          if decide (n ∈ d_visited st) then
            dijkstra_loop pop fuel' nk a_p a_n st1
          else
            let st2 := mkDState (d_dist st) (d_prec_node st) (d_prec_plink st)
                                ({[n]} ∪ d_visited st) h in
            st3 ← for_each (adj nk n) st2 (dijkstra_relax nk a_p a_n n dist_node);
            dijkstra_loop pop fuel' nk a_p a_n st3
      end
  end.

(** A dictionary keyed by nodes, read at [curr], which may be Python's [None]:
    [None] is never a key. *)
Definition getitem_opt {V} (d : gmap nat V) (curr : option node) : outcome V :=
  match curr with
  | Some c => getitem d c
  | None => Raise KeyError
  end.

(** [while curr != source: curr = prec_node[curr];
     path_plink.append(prec_plink[curr])] *)
Fixpoint dijkstra_traceback (fuel : nat) (prec_node : gmap nat (option node))
    (prec_plink : gmap nat (option nat)) (source : node)
    (curr : option node) (path_plink : list (option nat))
  : outcome (list (option nat)) :=
  if decide (curr = Some source) then Ret path_plink
  else
    match fuel with
    | O => Timeout
    | S fuel' =>
        curr' ← getitem_opt prec_node curr;
        p ← getitem_opt prec_plink curr';
        dijkstra_traceback fuel' prec_node prec_plink source curr'
                           (path_plink ++ [p])
    end.

(** [l[:-1][::-1]] *)
Definition drop_last_rev {A} (l : list A) : list A := reverse (removelast l).

(** [filter(None, d.values())] for a dictionary built over [keys] *)
Definition values_not_none {V} (keys : list nat) (d : gmap nat (option V))
  : list V :=
  omap (λ k, mjoin (d !! k)) (remove_dups keys).

(** [dijkstra(source, target, allowed_plinks, allowed_nodes)] returns the
    distances, the path to the target and the links of the tree. *)
Definition dijkstra (pop : heappop_t (num * node)) (fuel : nat) (nk : Network)
    (source target : node) (allowed_plinks : option (list nat))
    (allowed_nodes : option (list node))
  : outcome (gmap nat num * list (option nat) * list nat) :=
  let a_p := allowed_plinks_of nk allowed_plinks in
  let a_n := allowed_nodes_of nk allowed_nodes in
  let st0 := mkDState (<[source := Fin 0]> (dict_of a_n PInf))
                      (dict_of a_n None) (dict_of a_n None) ∅
                      [(Fin 0, source)] in
  st ← dijkstra_loop pop fuel nk a_p a_n st0;
  p0 ← getitem (d_prec_plink st) target;
  path_plink ← dijkstra_traceback fuel (d_prec_node st) (d_prec_plink st)
                                  source (Some target) [p0];
  Ret (d_dist st, drop_last_rev path_plink,
       values_not_none a_n (d_prec_plink st)).

(** *** A* *)

Record AEntry : Type := mkAEntry {
  a_dist : num;
  a_node : node;
  a_nodes : list node;
  a_plinks : list nat
}.

(** The [heappush] calls of one expansion. *)
Definition A_star_push (nk : Network) (a_p e_p : list nat) (a_n e_n : list node)
    (e : AEntry) (heap : list AEntry) : list AEntry :=
  foldl (λ h '(neighbor, adj_plink),
           if negb (mem neighbor a_n && negb (mem neighbor e_n)) then h
           else if negb (mem adj_plink a_p && negb (mem adj_plink e_p)) then h
           else h ++ [mkAEntry (nadd (a_dist e)
                                     (call_cost (link nk adj_plink) (a_node e)))
                               neighbor
                               (a_nodes e ++ [neighbor])
                               (a_plinks e ++ [adj_plink])])
        heap (adj nk (a_node e)).

(** [while heap: ...]; the list [pc] is one object shared by all entries. *)
Fixpoint A_star_loop (pop : heappop_t AEntry) (fuel : nat) (nk : Network)
    (a_p e_p : list nat) (a_n e_n : list node)
    (visited : gset nat) (heap : list AEntry) (pc : list node)
  : outcome (list node * list nat) :=
  match fuel with
  | O => Timeout
  | S fuel' =>
      match pop heap with
      | None => Ret ([], [])
      | Some (e, h) =>
          if decide (a_node e ∈ visited) then
            A_star_loop pop fuel' nk a_p e_p a_n e_n visited h pc
          else if decide (last pc = Some (a_node e)) then
            match removelast pc with
            | [] => Ret (a_nodes e, a_plinks e)
            | pc' =>
                A_star_loop pop fuel' nk a_p e_p a_n e_n ∅
                            (A_star_push nk a_p e_p a_n e_n e []) pc'
            end
          else
            A_star_loop pop fuel' nk a_p e_p a_n e_n ({[a_node e]} ∪ visited)
                        (A_star_push nk a_p e_p a_n e_n e h) pc
      end
  end.

Definition A_star (pop : heappop_t AEntry) (fuel : nat) (nk : Network)
    (source target : node) (excluded_plinks : option (list nat))
    (excluded_nodes : option (list node)) (path_constraints : option (list node))
    (allowed_plinks : option (list nat)) (allowed_nodes : option (list node))
  : outcome (list node * list nat) :=
  let e_n := default [] excluded_nodes in
  let e_p := default [] excluded_plinks in
  let pcs := default [] path_constraints in
  let a_p := allowed_plinks_of nk allowed_plinks in
  let a_n := allowed_nodes_of nk allowed_nodes in
  let pc := target :: reverse pcs in
  A_star_loop pop fuel nk a_p e_p a_n e_n ∅
              [mkAEntry (Fin 0) source [source] []] pc.

(** *** Bellman-Ford *)

Record BState : Type := mkBState {
  b_dist : gmap nat num;
  b_prec_node : gmap nat (option node);
  b_prec_plink : gmap nat (option nat);
  b_negative_cycle : bool
}.

Definition bellman_ford_relax (nk : Network) (a_p e_p : list nat)
    (a_n e_n : list node) (n : node) (e : node * nat) (st : BState)
  : outcome BState :=
  let '(neighbor, adj_plink) := e in
  let sd := dir_from n (link nk adj_plink) in
  if negb (mem neighbor a_n && negb (mem neighbor e_n)) then Ret st
  else if negb (mem adj_plink a_p && negb (mem adj_plink e_p)) then Ret st
  else
    dn ← getitem (b_dist st) n;
    let dist_neighbor := nadd dn (cost_dir sd (link nk adj_plink)) in
    old ← getitem (b_dist st) neighbor;
    if nlt dist_neighbor old then
      Ret (mkBState (<[neighbor := dist_neighbor]> (b_dist st))
                    (<[neighbor := Some n]> (b_prec_node st))
                    (<[neighbor := Some adj_plink]> (b_prec_plink st))
                    true)
    else Ret st.

(** One round: [negative_cycle = False; for node in allowed_nodes: ...] *)
Definition bellman_ford_round (nk : Network) (a_p e_p : list nat)
    (a_n e_n : list node) (st : BState) : outcome BState :=
  for_each (remove_dups a_n)
           (mkBState (b_dist st) (b_prec_node st) (b_prec_plink st) false)
           (λ n st', for_each (adj nk n) st'
                              (bellman_ford_relax nk a_p e_p a_n e_n n)).

Fixpoint bellman_ford_rounds (k : nat) (nk : Network) (a_p e_p : list nat)
    (a_n e_n : list node) (st : BState) : outcome BState :=
  match k with
  | O => Ret st
  | S k' =>
      st' ← bellman_ford_round nk a_p e_p a_n e_n st;
      bellman_ford_rounds k' nk a_p e_p a_n e_n st'
  end.

(** [while curr != source: curr = prec_node[curr]; ...] with both lists *)
Fixpoint bellman_ford_traceback (fuel : nat)
    (prec_node : gmap nat (option node)) (prec_plink : gmap nat (option nat))
    (source : node) (curr : option node)
    (path_node : list (option node)) (path_plink : list (option nat))
  : outcome (list (option node) * list (option nat)) :=
  if decide (curr = Some source) then Ret (path_node, path_plink)
  else
    match fuel with
    | O => Timeout
    | S fuel' =>
        curr' ← getitem_opt prec_node curr;
        p ← getitem_opt prec_plink curr';
        bellman_ford_traceback fuel' prec_node prec_plink source curr'
                               (path_node ++ [curr']) (path_plink ++ [p])
    end.

(** The loop [while curr not in path_node] of the cycle branch starts from
    [curr = target] and [path_node = [target]]. *)
Fixpoint bellman_ford_cycle (fuel : nat)
    (prec_node : gmap nat (option node)) (prec_plink : gmap nat (option nat))
    (curr : option node)
    (path_node : list (option node)) (path_plink : list (option nat))
  : outcome (list (option node) * list (option nat)) :=
  if decide (curr ∈ path_node) then Ret (path_node, path_plink)
  else
    match fuel with
    | O => Timeout
    | S fuel' =>
        curr' ← getitem_opt prec_node curr;
        p ← getitem_opt prec_plink curr';
        bellman_ford_cycle fuel' prec_node prec_plink curr'
                           (path_node ++ [curr']) (path_plink ++ [p])
    end.

Definition bellman_ford (fuel : nat) (nk : Network) (source target : node)
    (cycle : bool) (excluded_plinks : option (list nat))
    (excluded_nodes : option (list node))
    (allowed_plinks : option (list nat)) (allowed_nodes : option (list node))
  : outcome (list (option node) * list (option nat)) :=
  let e_n := default [] excluded_nodes in
  let e_p := default [] excluded_plinks in
  let a_p := allowed_plinks_of nk allowed_plinks in
  let a_n := allowed_nodes_of nk allowed_nodes in
  let n := length (remove_dups a_n) in
  let st0 := mkBState (<[source := Fin 0]> (dict_of a_n PInf))
                      (dict_of a_n None) (dict_of a_n None) false in
  st ← bellman_ford_rounds (n + 2) nk a_p e_p a_n e_n st0;
  dt ← getitem (b_dist st) target;
  if negb (bool_decide (dt = PInf)) && negb cycle then
    p0 ← getitem (b_prec_plink st) target;
    '(path_node, path_plink) ←
      bellman_ford_traceback fuel (b_prec_node st) (b_prec_plink st) source
                             (Some target) [Some target] [p0];
    Ret (reverse path_node, drop_last_rev path_plink)
  else if cycle && b_negative_cycle st then
    p0 ← getitem (b_prec_plink st) target;
    '(path_node, path_plink) ←
      bellman_ford_cycle fuel (b_prec_node st) (b_prec_plink st)
                         (Some target) [Some target] [p0];
    Ret (reverse path_node, drop_last_rev path_plink)
  else Ret ([], []).

(** *** Floyd-Warshall *)

(** The [for ... else] over the adjacency of [n1]: the forward cost of the
    first link listed with neighbour [n2], [float('inf')] when there is
    none. *)
Fixpoint first_cost (nk : Network) (n2 : node) (es : list (node * nat)) : num :=
  match es with
  | [] => PInf
  | (neighbor, plink) :: es' =>
      if decide (neighbor = n2) then costSD (link nk plink)
      else first_cost nk n2 es'
  end.

(** [W] after the two [enumerate] loops: zero on the diagonal, which the
    loops leave as [[0]*n] made it. *)
Definition W_init (nk : Network) : list (list num) :=
  imap (λ id1 n1,
          imap (λ id2 n2,
                  if decide (id1 = id2) then Fin 0
                  else first_cost nk n2 (adj nk n1))
               (nodes nk))
       (nodes nk).

(** [W[u][v]] and [W[u][v] = x]; the indices of the loops are in
    [range(n)], within the [n] rows of [n] cells. *)
Definition W_at (W : list (list num)) (u v : nat) : num := (W !!! u) !!! v.

Definition W_set (W : list (list num)) (u v : nat) (x : num) : list (list num) :=
  <[u := <[v := x]> (W !!! u)]> W.

(** The entries of [W] are the costs of the links, the [0] of the diagonal
    and [float('inf')]: the sum [W[u][k] + W[k][v]] adds two ints, exactly,
    or an int and a float.  There Python first converts the int to a float
    and raises [OverflowError] when it is too large for one: from
    [2**1024 - 2**970] on, which rounds to [2**1024].  A cost [Fin z] is the
    int [z]; the floats other than the infinities and the NaN, whose sums
    are rounded, are outside of [num]. *)
Definition float_max_int : Z := 2 ^ 1024 - 2 ^ 970.

Definition is_float (a : num) : bool :=
  match a with
  | Fin _ => false
  | _ => true
  end.

Definition fits_float (a : num) : bool :=
  match a with
  | Fin z => bool_decide (Z.abs z < float_max_int)%Z
  | _ => true
  end.

Definition add_numbers (a b : num) : outcome num :=
  if (is_float a && negb (fits_float b)) || (is_float b && negb (fits_float a))
  then Raise OverflowError
  else Ret (nadd a b).

(** [W[u][v] = min(W[u][v], W[u][k] + W[k][v])] *)
Definition floyd_warshall_relax (W : list (list num)) (k u v : nat)
  : outcome (list (list num)) :=
  through_k ← add_numbers (W_at W u k) (W_at W k v);
  Ret (W_set W u v (nmin (W_at W u v) through_k)).

Definition floyd_warshall_rounds (n : nat) (W : list (list num))
  : outcome (list (list num)) :=
  for_each (seq 0 n) W (λ k W,
    for_each (seq 0 n) W (λ u W,
      for_each (seq 0 n) W (λ v W, floyd_warshall_relax W k u v))).

(** [all_length[n1][n2] = W[id1][id2]], in a [defaultdict(dict)]. *)
Definition all_length_of (nodes : list node) (W : list (list num))
  : gmap node (gmap node num) :=
  foldl (λ m '(id1, n1),
           foldl (λ m '(id2, n2),
                    <[n1 := <[n2 := W_at W id1 id2]> (default ∅ (m !! n1))]> m)
                 m (imap pair nodes))
        ∅ (imap pair nodes).

(** The result: [False], or the dictionary of the distances. *)
Inductive FWResult : Type :=
  | FW_False
  | FW_lengths (all_length : gmap node (gmap node num)).

Definition floyd_warshall (nk : Network) : outcome FWResult :=
  let nodes := nodes nk in
  let n := length nodes in
  W ← floyd_warshall_rounds n (W_init nk);
  if existsb (λ v, nlt (W_at W v v) (Fin 0)) (seq 0 n) then Ret FW_False
  else Ret (FW_lengths (all_length_of nodes W)).

(** [all_length[s][t]] of a call that has returned the distances, where
    there is one. *)
Definition length_at (r : outcome FWResult) (s t : node) : option num :=
  match r with
  | Ret (FW_lengths all_length) => all_length !! s ≫= (.!! t)
  | _ => None
  end.

(** *** Walks and their cost *)

Section Walks.
Context (nk : Network).

(** A walk along adjacency entries, from [s], with the links that it takes. *)
Inductive walk (s : node) : list nat → node → Prop :=
  | walk_nil : walk s [] s
  | walk_snoc ls v l x :
      walk s ls v → (x, l) ∈ adj nk v → walk s (ls ++ [l]) x.

(** The sum of the forward costs of the links of a path. *)
Definition path_cost (ls : list nat) : num :=
  nsum ((λ l, costSD (link nk l)) <$> ls).

(** Every adjacency entry names a node and a link of the network. *)
Definition graph_closed : Prop :=
  ∀ u v l, (v, l) ∈ adj nk u → v ∈ nodes nk ∧ l ∈ all_plinks nk.

(** The cost of a link is a number, not negative, the same in both
    directions. *)
Definition costs_symmetric : Prop :=
  ∀ u v l, (v, l) ∈ adj nk u →
    ∃ c, (0 ≤ c)%Z ∧ costSD (link nk l) = Fin c ∧ costDS (link nk l) = Fin c.

(** Two links between the same nodes have the same cost. *)
Definition parallel_links_agree : Prop :=
  ∀ u v l l', (v, l) ∈ adj nk u → (v, l') ∈ adj nk u →
    costSD (link nk l) = costSD (link nk l').

(** No cost is so large that the cost of a path without a repeated node, of
    at most [n + 1] links, cannot be converted to a float. *)
Definition costs_fit : Prop :=
  ∀ u v l c, (v, l) ∈ adj nk u → costSD (link nk l) = Fin c →
    ((Z.of_nat (length (nodes nk)) + 1) * c < float_max_int)%Z.

(** Iterations that suffice for [A_star]: one for every entry that can be
    pushed, and one more. *)
Definition A_star_fuel : nat :=
  2 + sum_list_with (λ u, length (adj nk u)) (nodes nk).

End Walks.

(** *** Link-disjoint pairs: Bhandari and Suurbale *)

(** [plink.flowSD = plink.costSD; plink.flowDS = plink.costDS] *)
Definition save_cost (l : Link) : Link :=
  set_flowDS (costDS l) (set_flowSD (costSD l) l).

(** [plink.costSD = plink.flowSD; plink.costDS = plink.flowDS] *)
Definition restore_cost (l : Link) : Link :=
  set_costDS (flowDS l) (set_costSD (flowSD l) l).

(** [for plink in a_t: ...] over a set of link objects *)
Definition for_links (f : Link → Link) (a_t : list nat) (nk : Network)
  : Network :=
  foldl (λ nk' l, update_link f l nk') nk (remove_dups a_t).

(** The loop of [bhandari] over the first path: the direction that was
    taken becomes infinite, the reverse direction costs -1. *)
Fixpoint bhandari_flip (nk : Network) (current_node : node)
    (first_path : list nat) : Network :=
  match first_path with
  | [] => nk
  | plink :: rest =>
      let d := dir_from current_node (link nk plink) in
      let nk1 := update_link (set_cost_dir d PInf) plink nk in
      let nk2 := update_link (set_cost_dir (rev_dir d) (Fin (-1))) plink nk1 in
      let next := match d with
                  | SD => destination (link nk2 plink)
                  | DS => source (link nk2 plink)
                  end in
      bhandari_flip nk2 next rest
  end.

(** [set(first_path) ^ set(second_path)] *)
Definition sym_diff (a b : list (option nat)) : list (option nat) :=
  remove_dups (filter (λ x, x ∉ b) a ++ filter (λ x, x ∉ a) b).

(** A call that mutates the links returns the network it leaves behind
    together with its result, also when it raises. *)
Definition bhandari (pop : heappop_t AEntry) (fuel : nat) (nk : Network)
    (source target : node) (a_n : option (list node)) (a_t : option (list nat))
  : Network * outcome (list (option nat)) :=
  let a_t := allowed_plinks_of nk a_t in
  let a_n := allowed_nodes_of nk a_n in
  let nk1 := for_links save_cost a_t nk in
  match A_star pop fuel nk1 source target None None None (Some a_t) (Some a_n) with
  | Ret (_, first_path) =>
      let nk2 := bhandari_flip nk1 source first_path in
      match bellman_ford fuel nk2 source target false None None
                         (Some a_t) (Some a_n) with
      | Ret (_, second_path) =>
          let nk3 := for_links restore_cost a_t nk2 in
          (nk3, Ret (sym_diff (Some <$> first_path) second_path))
      | Raise e => (nk2, Raise e)
      | Timeout => (nk2, Timeout)
      end
  | Raise e => (nk1, Raise e)
  | Timeout => (nk1, Timeout)
  end.

(** [plink.costSD += dist[src] - dist[dest];
     plink.costDS += dist[dest] - dist[src]] for the links of the tree *)
Fixpoint suurbale_recost (nk : Network) (dist : gmap nat num)
    (tree : list nat) : Network * outcome unit :=
  match tree with
  | [] => (nk, Ret ())
  | plink :: rest =>
      let src := source (link nk plink) in
      let dest := destination (link nk plink) in
      match getitem dist src, getitem dist dest with
      | Ret ds, Ret dd =>
          let nk1 := update_link
                       (λ l, set_costSD (nadd (costSD l) (nsub ds dd)) l)
                       plink nk in
          let nk2 := update_link
                       (λ l, set_costDS (nadd (costDS l) (nsub dd ds)) l)
                       plink nk1 in
          suurbale_recost nk2 dist rest
      | Raise e, _ | _, Raise e => (nk, Raise e)
      | _, _ => (nk, Timeout)
      end
  end.

(** The loop of [suurbale] over the first path; an entry [None] of the path
    has no attribute [source]. *)
Fixpoint suurbale_exclude (nk : Network) (current_node : node)
    (first_path : list (option nat)) : Network * outcome unit :=
  match first_path with
  | [] => (nk, Ret ())
  | None :: _ => (nk, Raise AttributeError)
  | Some plink :: rest =>
      let d := dir_from current_node (link nk plink) in
      let nk1 := update_link (set_cost_dir d PInf) plink nk in
      let next := match d with
                  | SD => destination (link nk1 plink)
                  | DS => source (link nk1 plink)
                  end in
      suurbale_exclude nk1 next rest
  end.

Definition suurbale (popd : heappop_t (num * node)) (pop : heappop_t AEntry)
    (fuel : nat) (nk : Network)
    (source target : node) (a_n : option (list node)) (a_t : option (list nat))
  : Network * outcome (list (option nat)) :=
  let a_t := allowed_plinks_of nk a_t in
  let a_n := allowed_nodes_of nk a_n in
  let nk1 := for_links save_cost a_t nk in
  match dijkstra popd fuel nk1 source target (Some a_t) (Some a_n) with
  | Ret (dist, first_path, tree) =>
      match suurbale_recost nk1 dist tree with
      | (nk2, Ret _) =>
          match suurbale_exclude nk2 source first_path with
          | (nk3, Ret _) =>
              match A_star pop fuel nk3 source target None None None
                           (Some a_t) (Some a_n) with
              | Ret (_, second_path) =>
                  (nk3, Ret (sym_diff first_path (Some <$> second_path)))
              | Raise e => (nk3, Raise e)
              | Timeout => (nk3, Timeout)
              end
          | (nk3, Raise e) => (nk3, Raise e)
          | (nk3, Timeout) => (nk3, Timeout)
          end
      | (nk2, Raise e) => (nk2, Raise e)
      | (nk2, Timeout) => (nk2, Timeout)
      end
  | Raise e => (nk1, Raise e)
  | Timeout => (nk1, Timeout)
  end.

(** *** Paths with their nodes *)

(** The nodes and the links of a path from [s]: each link is listed, with
    the next node, in the adjacency of the node before. *)
Inductive route (nk : Network) (s : node)
  : list node → list nat → node → Prop :=
  | route_nil : route nk s [s] [] s
  | route_snoc ns ls v x l :
      route nk s ns ls v → (x, l) ∈ adj nk v →
      route nk s (ns ++ [x]) (ls ++ [l]) x.

End Paths.

(** ** Forwarding along the routing tables, and dimensioning *)

Module Forwarding.

Inductive subtype : Type := router | switch | host | other_subtype.

#[global] Instance subtype_eq_dec : EqDecision subtype.
Proof. solve_decision. Defined.

(** The keys of a routing table: a destination subnet, or ['0.0.0.0']. *)
Inductive rt_key : Type := Subnet (n : nat) | DefaultRoute.

#[global] Instance rt_key_eq_dec : EqDecision rt_key.
Proof. solve_decision. Defined.

#[global] Instance rt_key_countable : Countable rt_key.
Proof.
  refine (inj_countable' (λ k, match k with Subnet n => Some n | DefaultRoute => None end)
                         (λ o, match o with Some n => Subnet n | None => DefaultRoute end) _).
  by intros [].
Defined.

Inductive route_kind : Type := Connected | Static | Learned.

(** A route [(kind, nh_ip, ex_int, metric, router, ex_tk)]; static routes
    are built with [None] for the interface and for the link. *)
Record Route : Type := mkRoute {
  r_kind : route_kind;
  r_nh_ip : nat;
  r_ex_int : option nat;
  r_metric : num;
  r_router : node;
  r_ex_tk : option nat
}.

(** What the walk reads of a node: its subtype, its ARP table (next-hop IP
    to MAC address and interface) and its switching table (MAC address to
    interface).  *)
Record NodeInfo : Type := mkNodeInfo {
  n_subtype : subtype;
  arpt : gmap nat (nat * nat);
  st : gmap nat nat
}.

#[global] Instance NodeInfo_inhabited : Inhabited NodeInfo :=
  populate (mkNodeInfo other_subtype ∅ ∅).

(** Interfaces: [interface.mac_address] and [interface.link]. *)
Record Interfaces : Type := mkInterfaces {
  mac_address : nat → nat;
  if_link : nat → nat
}.

Record IPAddress : Type := mkIP { ip_network : nat }.

(** Members of a recorded path: nodes and links. *)
Inductive obj : Type := ONode (n : node) | OLink (l : nat).

#[global] Instance obj_eq_dec : EqDecision obj.
Proof. solve_decision. Defined.

Record Traffic : Type := mkTraffic {
  t_source : node;
  t_destination : node;
  t_source_IP : option IPAddress;
  t_destination_IP : option IPAddress;
  t_throughput : Q;
  t_path : list obj
}.

Definition set_path (p : list obj) (t : Traffic) : Traffic :=
  mkTraffic (t_source t) (t_destination t) (t_source_IP t)
            (t_destination_IP t) (t_throughput t) p.

Record DataFlow : Type := mkDataFlow {
  throughput : Q;
  src_mac : option nat;
  dst_mac : option nat
}.

Definition traffic_dir (d : dir) (l : Link) : Q :=
  match d with SD => trafficSD l | DS => trafficDS l end.

Definition wctraffic_dir (d : dir) (l : Link) : Q :=
  match d with SD => wctrafficSD l | DS => wctrafficDS l end.

Definition set_traffic_dir (d : dir) (q : Q) (l : Link) : Link :=
  match d with
  | SD => mkLink (source l) (destination l) (costSD l) (costDS l)
                 (capacitySD l) (capacityDS l) (flowSD l) (flowDS l)
                 q (trafficDS l) (wctrafficSD l) (wctrafficDS l) (wcfailure l)
  | DS => mkLink (source l) (destination l) (costSD l) (costDS l)
                 (capacitySD l) (capacityDS l) (flowSD l) (flowDS l)
                 (trafficSD l) q (wctrafficSD l) (wctrafficDS l) (wcfailure l)
  end.

(** [setattr(plink, 'wctraffic' + dir, q); setattr(plink, 'wcfailure', f)] *)
Definition set_wctraffic_dir (d : dir) (q : Q) (f : nat) (l : Link) : Link :=
  match d with
  | SD => mkLink (source l) (destination l) (costSD l) (costDS l)
                 (capacitySD l) (capacityDS l) (flowSD l) (flowDS l)
                 (trafficSD l) (trafficDS l) q (wctrafficDS l) (Some f)
  | DS => mkLink (source l) (destination l) (costSD l) (costDS l)
                 (capacitySD l) (capacityDS l) (flowSD l) (flowDS l)
                 (trafficSD l) (trafficDS l) (wctrafficSD l) q (Some f)
  end.

(** [path.add(x)] on a set *)
Definition path_add (x : obj) (path : list obj) : list obj :=
  if decide (x ∈ path) then path else path ++ [x].

(** The simulation state: the links, the routing table of every node, the
    set of failed objects and the traffic demands. *)
Record Sim : Type := mkSim {
  net : Network;
  rts : gmap nat (gmap rt_key (list Route));
  failed_obj : gset nat;
  traffics : gmap nat Traffic
}.

Section Walk.
Context (info : node → NodeInfo) (ifc : Interfaces).

Definition rt_of (rt : gmap nat (gmap rt_key (list Route))) (n : node)
  : gmap rt_key (list Route) := default ∅ (rt !! n).

(** An entry of the stack of [RFT_path_finder]:
    (current node, link the flow comes from, data flow). *)
Definition hop : Type := node * option nat * option DataFlow.

(** The body of [for idx, route in enumerate(routes)] at a router.  The
    divisor is [len(routes) - failed_plinks], the same for every route. *)
Definition router_route (curr_node : node) (divisor : nat) (dataflow : DataFlow)
    (route : Route) (s : Network * list hop * list obj)
  : (Network * list hop * list obj) * outcome unit :=
  let '(nk, heap, path) := s in
  if decide (divisor = 0%nat) then (s, Raise ZeroDivisionError)
  else
    let thr := (throughput dataflow / inject_Z (Z.of_nat divisor))%Q in
    match r_ex_int route with
    | None => (s, Raise AttributeError)
    | Some ex_int =>
        match arpt (info curr_node) !! r_nh_ip route with
        | None => (s, Raise KeyError)
        | Some (mac, _) =>
            match r_ex_tk route with
            | None => (s, Raise AttributeError)
            | Some ex_tk =>
                let new_dataflow :=
                  mkDataFlow thr (Some (mac_address ifc ex_int)) (Some mac) in
                let sd := dir_from curr_node (link nk ex_tk) in
                let nk' := update_link
                             (λ l, set_traffic_dir sd (traffic_dir sd l + thr)%Q l)
                             ex_tk nk in
                let next_hop := match sd with
                                | DS => source (link nk' ex_tk)
                                | SD => destination (link nk' ex_tk)
                                end in
                ((nk', (next_hop, Some ex_tk, Some new_dataflow) :: heap,
                  path_add (OLink ex_tk) path), Ret ())
            end
        end
    end.

Fixpoint router_routes (curr_node : node) (divisor : nat) (dataflow : DataFlow)
    (routes : list Route) (s : Network * list hop * list obj)
  : (Network * list hop * list obj) * outcome unit :=
  match routes with
  | [] => (s, Ret ())
  | r :: rest =>
      match router_route curr_node divisor dataflow r s with
      | (s', Ret _) => router_routes curr_node divisor dataflow rest s'
      | (s', o) => (s', o)
      end
  end.

(** [sum(r[-1] in self.failed_obj for r in routes)] *)
Definition count_failed (failed : gset nat) (routes : list Route) : nat :=
  sum_list ((λ r, match r_ex_tk r with
                  | Some l => if decide (l ∈ failed) then 1%nat else 0%nat
                  | None => 0%nat
                  end) <$> routes).

(** [while heap and valid: ...]; the stack is kept with its top first. *)
Fixpoint RFT_loop (fuel : nat) (rt : gmap nat (gmap rt_key (list Route)))
    (failed : gset nat) (traffic : Traffic) (dst_ntw : nat)
    (nk : Network) (heap : list hop) (path : list obj)
  : Network * outcome (list obj) :=
  match fuel with
  | O => (nk, Timeout)
  | S fuel' =>
      match heap with
      | [] => (nk, Ret path)
      | (curr_node, _, dataflow) :: heap' =>
          let path := path_add (ONode curr_node) path in
          let dataflow :=
            default (mkDataFlow (t_throughput traffic) None None) dataflow in
          if decide (curr_node = t_destination traffic) then
            RFT_loop fuel' rt failed traffic dst_ntw nk heap' path
          else
            match n_subtype (info curr_node) with
            | router =>
                let table := rt_of rt curr_node in
                match (match table !! Subnet dst_ntw with
                       | Some r => Some r
                       | None => table !! DefaultRoute
                       end) with
                | None => (nk, Ret path)
                | Some routes =>
                    let failed_plinks := count_failed failed routes in
                    match router_routes curr_node
                            (length routes - failed_plinks) dataflow routes
                            (nk, heap', path) with
                    | ((nk', heap'', path'), Ret _) =>
                        RFT_loop fuel' rt failed traffic dst_ntw nk' heap'' path'
                    | ((nk', _, _), Raise e) => (nk', Raise e)
                    | ((nk', _, _), Timeout) => (nk', Timeout)
                    end
                end
            | switch =>
                match dst_mac dataflow with
                | None => (nk, Raise KeyError)
                | Some m =>
                    match st (info curr_node) !! m with
                    | None => (nk, Raise KeyError)
                    | Some ex_int =>
                        let ex_tk := if_link ifc ex_int in
                        let next_hop :=
                          if decide (source (link nk ex_tk) = curr_node)
                          then destination (link nk ex_tk)
                          else source (link nk ex_tk) in
                        RFT_loop fuel' rt failed traffic dst_ntw nk
                                 ((next_hop, Some ex_tk, Some dataflow) :: heap')
                                 (path_add (OLink ex_tk) path)
                    end
                end
            | _ => RFT_loop fuel' rt failed traffic dst_ntw nk heap' path
            end
      end
  end.

(** [RFT_path_finder(traffic)]: the links it loads and the path it records
    (the strings built for display are left out). *)
Definition RFT_path_finder (fuel : nat) (rt : gmap nat (gmap rt_key (list Route)))
    (failed : gset nat) (nk : Network) (traffic : Traffic)
  : Network * outcome (list obj) :=
  match t_source_IP traffic, t_destination_IP traffic with
  | Some _, Some dst_ip =>
      RFT_loop fuel rt failed traffic (ip_network dst_ip) nk
               [(t_source traffic, None, None)] []
  | _, _ => (nk, Ret [])
  end.

(** [reset_traffic] *)
Definition reset_traffic (nk : Network) : Network :=
  foldl (λ nk' l, update_link
                    (λ x, set_traffic_dir DS 0%Q (set_traffic_dir SD 0%Q x)) l nk')
        nk (all_plinks nk).

(** The body of the loop of [path_finder] for one demand: the network and
    the path that it leaves. *)
Definition path_finder_demand (pop : Paths.heappop_t Paths.AEntry) (fuel : nat)
    (s : Sim) (traffic : Traffic) : Network * outcome (list obj) :=
  if bool_decide (n_subtype (info (t_source traffic)) = router) &&
     bool_decide (n_subtype (info (t_destination traffic)) = router)
  then RFT_path_finder fuel (rts s) (failed_obj s) (net s) traffic
  else
    (net s,
     r ← Paths.A_star pop fuel (net s) (t_source traffic)
             (t_destination traffic) None None None None None;
     Ret (OLink <$> (r.2 : list nat))).

(** [for traffic in self.traffics.values(): ...], over the keys of the
    dictionary of demands. *)
Fixpoint path_finder_loop (pop : Paths.heappop_t Paths.AEntry) (fuel : nat)
    (keys : list nat) (s : Sim) : Sim * outcome unit :=
  match keys with
  | [] => (s, Ret ())
  | i :: rest =>
      match traffics s !! i with
      | None => path_finder_loop pop fuel rest s
      | Some traffic =>
          match path_finder_demand pop fuel s traffic with
          | (nk', Ret path) =>
              path_finder_loop pop fuel rest
                (mkSim nk' (rts s) (failed_obj s)
                       (<[i := set_path path traffic]> (traffics s)))
          | (nk', Raise e) =>
              (mkSim nk' (rts s) (failed_obj s) (traffics s), Raise e)
          | (nk', Timeout) =>
              (mkSim nk' (rts s) (failed_obj s) (traffics s), Timeout)
          end
      end
  end.

Definition path_finder (pop : Paths.heappop_t Paths.AEntry) (fuel : nat)
    (s : Sim) : Sim * outcome unit :=
  let s0 := mkSim (reset_traffic (net s)) (rts s) (failed_obj s) (traffics s) in
  path_finder_loop pop fuel (elements (dom (traffics s))) s0.

(** Modelled from the spec: [routing_table_creation] rebuilds the routing
    tables through [AS.build_RFT], which is not under src/.  By section 4.9
    of the specification the tables are rebuilt excluding the failed links:
    [rtc] gives the routing tables as a function of the set of failed
    objects, and may raise. *)
Context (rtc : gset nat → outcome (gmap nat (gmap rt_key (list Route)))).

(** [route]: [routing_table_creation(); path_finder()] *)
Definition route (pop : Paths.heappop_t Paths.AEntry) (fuel : nat) (s : Sim)
  : Sim * outcome unit :=
  match rtc (failed_obj s) with
  | Ret rt => path_finder pop fuel (mkSim (net s) rt (failed_obj s) (traffics s))
  | Raise e => (s, Raise e)
  | Timeout => (s, Timeout)
  end.

(** The comparison of one link and one direction with its recorded peak. *)
Definition record_peak (failed_plink : nat) (d : dir) (l : Link) : Link :=
  if Qlt_le_dec (wctraffic_dir d l) (traffic_dir d l)
  then set_wctraffic_dir d (traffic_dir d l) failed_plink l
  else l.

(** [for plink in self.plinks.values(): for dir in ('SD', 'DS'): ...] *)
Definition record_peaks (failed_plink : nat) (nk : Network) : Network :=
  foldl (λ nk' l, update_link
                    (λ x, record_peak failed_plink DS
                            (record_peak failed_plink SD x)) l nk')
        nk (all_plinks nk).

(** The loop of [plink_dimensioning] over the links that fail in turn. *)
Fixpoint dimensioning_loop (pop : Paths.heappop_t Paths.AEntry) (fuel : nat)
    (to_fail : list nat) (s : Sim) : Sim * outcome unit :=
  match to_fail with
  | [] => (s, Ret ())
  | failed_plink :: rest =>
      let s1 := mkSim (net s) (rts s) {[failed_plink]} (traffics s) in
      match route pop fuel s1 with
      | (s2, Ret _) =>
          dimensioning_loop pop fuel rest
            (mkSim (record_peaks failed_plink (net s2)) (rts s2)
                   (failed_obj s2) (traffics s2))
      | (s2, o) => (s2, o)
      end
  end.

(** [plink_dimensioning]; the call [self.view.remove_failures()] belongs to
    the display.  *)
Definition plink_dimensioning (pop : Paths.heappop_t Paths.AEntry) (fuel : nat)
    (s : Sim) : Sim * outcome unit :=
  match dimensioning_loop pop fuel (all_plinks (net s)) s with
  | (s', Ret _) => (mkSim (net s') (rts s') ∅ (traffics s'), Ret ())
  | (s', o) => (s', o)
  end.

End Walk.

End Forwarding.

(** ** The node and link factories *)

Module Factory.

(** Python values that are passed as keyword arguments and stored as
    attributes: strings, numbers, references to objects, [None]. *)
Inductive Val : Type :=
  | VStr (s : string)
  | VInt (z : Z)
  | VObj (r : nat)
  | VNone.

#[global] Instance Val_eq_dec : EqDecision Val.
Proof. solve_decision. Defined.

#[global] Instance Val_countable : Countable Val.
Proof.
  refine (inj_countable'
    (λ v, match v with
          | VStr s => inl s
          | VInt z => inr (inl z)
          | VObj r => inr (inr (Some r))
          | VNone => inr (inr None)
          end)
    (λ x, match x with
          | inl s => VStr s
          | inr (inl z) => VInt z
          | inr (inr (Some r)) => VObj r
          | inr (inr None) => VNone
          end) _).
  by intros [].
Defined.

(** An object is the dictionary of its attributes. *)
Definition Obj : Type := gmap string Val.

(** [bool(v)] *)
Definition val_truthy (v : Val) : bool :=
  match v with
  | VStr s => negb (bool_decide (s = ""))
  | VInt z => negb (bool_decide (z = 0%Z))
  | VObj _ => true
  | VNone => false
  end.

(** Modelled from the spec: [update_properties] of [objects/objects.py] is
    not under src/.  By section 3 of the specification the factory "updates
    attributes" of the entity that exists: every keyword argument becomes
    the value of the attribute of that name. *)
Definition update_properties (kwargs : gmap string Val) (o : Obj) : Obj :=
  kwargs ∪ o.

(** The state of [BaseNetwork]: [pn] maps 'node', 'plink', 'l2link',
    'l3link' and 'traffic' to the pools ([self.nodes] is [pn['node']]);
    [graph] maps (node id, link type) to the set of (neighbour, link)
    pairs. *)
Record BaseNetwork : Type := mkBase {
  pn : gmap string (gmap nat Obj);
  interfaces : gset Val;
  graph_of : gmap (nat * string) (gset (Val * nat));
  cpt_link : nat;
  cpt_node : nat;
  name_to_id : gmap Val nat
}.

Definition pool (b : BaseNetwork) (t : string) : gmap nat Obj :=
  default ∅ (pn b !! t).

(** [b2] is [b1] with the attributes of the object [i] of the pool [t]
    updated from [kwargs], and nothing else changed: the same keys in every
    pool, the same counters, names, adjacency and interfaces. *)
Definition updated_in_place (b1 b2 : BaseNetwork) (t : string) (i : nat)
    (kwargs : gmap string Val) : Prop :=
  (∃ o, pool b1 t !! i = Some o ∧
        pool b2 t !! i = Some (update_properties kwargs o)) ∧
  (∀ t', dom (pool b2 t') = dom (pool b1 t')) ∧
  (∀ t' i', (t', i') ≠ (t, i) → pool b2 t' !! i' = pool b1 t' !! i') ∧
  cpt_node b2 = cpt_node b1 ∧ cpt_link b2 = cpt_link b1 ∧
  name_to_id b2 = name_to_id b1 ∧ graph_of b2 = graph_of b1 ∧
  interfaces b2 = interfaces b1.

Section Factories.
(** The tables of [objects/objects.py], which is not under src/: the class
    of each node subtype, the class of each link subtype (a constructor
    from the keyword arguments), and the link type of each link subtype. *)
Context (node_class : gmap string (gmap string Val → Obj)).
Context (link_class_with_vc : gmap string (gmap string Val → Obj)).
Context (subtype_to_type : gmap string string).

(** [nf(subtype, id, **kwargs)]; the result is the identity of the node,
    its key in [self.nodes]. *)
Definition nf (b : BaseNetwork) (subtype : string) (id : option nat)
    (kwargs : gmap string Val) : BaseNetwork * outcome nat :=
  let create (name : Val) (kwargs : gmap string Val) :=
    let id := cpt_node b in
    let kwargs := <["id" := VInt (Z.of_nat id)]> kwargs in
    match node_class !! subtype with
    | None => (b, Raise KeyError)
    | Some cls =>
        match pn b !! "node" with
        | None => (b, Raise KeyError)
        | Some nodes =>
            (mkBase (<["node" := <[id := cls kwargs]> nodes]> (pn b))
                    (interfaces b) (graph_of b) (cpt_link b)
                    (S (cpt_node b)) (<[name := id]> (name_to_id b)),
             Ret id)
        end
    end in
  match kwargs !! "name" with
  | None =>
      let name := VStr (subtype +:+ pretty (cpt_node b)) in
      create name (<["name" := name]> kwargs)
  | Some name =>
      match name_to_id b !! name with
      | Some i =>
          match pn b !! "node" with
          | None => (b, Raise KeyError)
          | Some nodes =>
              match nodes !! i with
              | None => (b, Raise KeyError)
              | Some node =>
                  (mkBase (<["node" := <[i := update_properties kwargs node]> nodes]>
                             (pn b))
                          (interfaces b) (graph_of b) (cpt_link b) (cpt_node b)
                          (name_to_id b),
                   Ret i)
              end
          end
      | None => create name kwargs
      end
  end.

(** [s.id] for a keyword argument that should be a node *)
Definition node_id (v : Val) : outcome nat :=
  match v with
  | VObj r => Ret r
  | _ => Raise AttributeError
  end.

Definition graph_add (k : nat * string) (x : Val * nat)
    (g : gmap (nat * string) (gset (Val * nat))) :=
  <[k := {[x]} ∪ default ∅ (g !! k)]> g.

(** [lf(subtype, id, name, **kwargs)]; the result is the identity of the
    link: its type and its key in the pool of that type. *)
Definition lf (b : BaseNetwork) (subtype : string) (id : option nat)
    (name : Val) (kwargs : gmap string Val)
  : BaseNetwork * outcome (string * nat) :=
  match subtype_to_type !! subtype with
  | None => (b, Raise KeyError)
  | Some link_type =>
      let retrieve (b' : BaseNetwork) (id : nat) :=
        match pn b' !! link_type with
        | None => (b', Raise KeyError)
        | Some p =>
            match p !! id with
            | None => (b', Raise KeyError)
            | Some _ => (b', Ret (link_type, id))
            end
        end in
      match id with
      | Some (S i) => retrieve b (S i)
      | _ =>
          match name_to_id b !! name with
          | Some i =>
              match pn b !! link_type with
              | None => (b, Raise KeyError)
              | Some p =>
                  match p !! i with
                  | None => (b, Raise KeyError)
                  | Some l =>
                      (mkBase (<[link_type := <[i := update_properties kwargs l]> p]>
                                 (pn b))
                              (interfaces b) (graph_of b) (cpt_link b)
                              (cpt_node b) (name_to_id b),
                       Ret (link_type, i))
                  end
              end
          | None =>
              match kwargs !! "source", kwargs !! "destination" with
              | Some s, Some d =>
                  let id := cpt_link b in
                  let name := if val_truthy name then name
                              else VStr (subtype +:+ pretty (cpt_link b)) in
                  let kwargs := <["name" := name]>
                                  (<["id" := VInt (Z.of_nat id)]> kwargs) in
                  match link_class_with_vc !! subtype with
                  | None => (b, Raise KeyError)
                  | Some cls =>
                      let new_link := cls kwargs in
                      match pn b !! link_type with
                      | None =>
                          (mkBase (pn b) (interfaces b) (graph_of b) (cpt_link b)
                                  (cpt_node b) (<[name := id]> (name_to_id b)),
                           Raise KeyError)
                      | Some p =>
                          let b1 :=
                            mkBase (<[link_type := <[id := new_link]> p]> (pn b))
                                   (interfaces b) (graph_of b) (cpt_link b)
                                   (cpt_node b) (<[name := id]> (name_to_id b)) in
                          match node_id s with
                          | Ret sid =>
                              let g1 := graph_add (sid, link_type) (d, id)
                                                  (graph_of b) in
                              let b2 := mkBase (pn b1) (interfaces b1) g1
                                          (cpt_link b1) (cpt_node b1)
                                          (name_to_id b1) in
                              match node_id d with
                              | Ret did =>
                                  let g2 := graph_add (did, link_type) (s, id) g1 in
                                  let b3 := mkBase (pn b1) (interfaces b1) g2
                                              (cpt_link b1) (cpt_node b1)
                                              (name_to_id b1) in
                                  if bool_decide (subtype = "ethernet link") ||
                                     bool_decide (subtype = "optical link")
                                  then
                                    match new_link !! "interfaceS",
                                          new_link !! "interfaceD" with
                                    | Some iS, Some iD =>
                                        retrieve
                                          (mkBase (pn b3) ({[iS; iD]} ∪ interfaces b3)
                                                  (graph_of b3) (S (cpt_link b3))
                                                  (cpt_node b3) (name_to_id b3))
                                          id
                                    | _, _ => (b3, Raise AttributeError)
                                    end
                                  else
                                    retrieve
                                      (mkBase (pn b3) (interfaces b3) (graph_of b3)
                                              (S (cpt_link b3)) (cpt_node b3)
                                              (name_to_id b3))
                                      id
                              | _ => (b2, Raise AttributeError)
                              end
                          | _ => (b1, Raise AttributeError)
                          end
                      end
                  end
              | _, _ => (b, Raise KeyError)
              end
          end
      end
  end.

End Factories.

End Factory.

(** ** Maximum flow *)

Module Flow.

(** [a <= b] of Python *)
Definition nleb (a b : num) : bool :=
  match a, b with
  | NaN, _ | _, NaN => false
  | _, _ => negb (nlt b a)
  end.

(** Modelled from the spec: the attributes of a link object are declared in
    [objects/objects.py], which is not under src/.  By section 3 of the
    specification cost, capacity, flow and traffic are "tracked
    independently" for the two directions: a link has the attributes named
    below and no attribute [flow] without a direction. *)
Definition getattr (l : Link) (name : string) : outcome num :=
  if decide (name = "costSD") then Ret (costSD l)
  else if decide (name = "costDS") then Ret (costDS l)
  else if decide (name = "capacitySD") then Ret (capacitySD l)
  else if decide (name = "capacityDS") then Ret (capacityDS l)
  else if decide (name = "flowSD") then Ret (flowSD l)
  else if decide (name = "flowDS") then Ret (flowDS l)
  else Raise AttributeError.

(** [b * 'SD'] and [x or y] on strings *)
Definition str_mul (b : bool) (s : string) : string := if b then s else "".
Definition str_or (a b : string) : string := if decide (a = "") then b else a.

(** [reset_flow] *)
Definition reset_flow (nk : Network) : Network :=
  foldl (λ nk' l, update_link (λ x, set_flowDS (Fin 0) (set_flowSD (Fin 0) x)) l nk')
        nk (all_plinks nk).

(** [plink.__dict__['flow' + sd] += f; plink.__dict__['flow' + ds] -= f] *)
Definition push_flow (sd : dir) (f : num) (l : nat) (nk : Network) : Network :=
  let nk1 := update_link (λ x, set_flow_dir sd (nadd (flow_dir sd x) f) x) l nk in
  update_link (λ x, set_flow_dir (rev_dir sd)
                                 (nsub (flow_dir (rev_dir sd) x) f) x) l nk1.

(** *** Ford-Fulkerson *)

(** [augment_ff(val, curr_node, target, visit)]: the links and the
    dictionary [visit] are shared with the caller. *)
Fixpoint augment_ff (fuel : nat) (nk : Network) (visit : gmap nat bool)
    (val : num) (curr_node target : node)
  : (Network * gmap nat bool) * outcome num :=
  match fuel with
  | O => ((nk, visit), Timeout)
  | S fuel' =>
      let visit := <[curr_node := true]> visit in
      if decide (curr_node = target) then ((nk, visit), Ret val)
      else
        (fix loop (ls : list (node * nat)) (nk : Network) (visit : gmap nat bool)
           : (Network * gmap nat bool) * outcome num :=
           match ls with
           | [] => ((nk, visit), Ret (Fin 0))
           | (neighbor, adj_plink) :: rest =>
               let sd := dir_from curr_node (link nk adj_plink) in
               let cap := capacity_dir sd (link nk adj_plink) in
               let current_flow := flow_dir sd (link nk adj_plink) in
               if nlt current_flow cap then
                 match visit !! neighbor with
                 | None => ((nk, visit), Raise KeyError)
                 | Some true => loop rest nk visit
                 | Some false =>
                     let residual_capacity := nmin val (nsub cap current_flow) in
                     match augment_ff fuel' nk visit residual_capacity
                                      neighbor target with
                     | ((nk', visit'), Ret global_flow) =>
                         if nlt (Fin 0) global_flow then
                           ((push_flow sd global_flow adj_plink nk', visit'),
                            Ret global_flow)
                         else loop rest nk' visit'
                     | r => r
                     end
                 end
               else loop rest nk visit
           end) (adj nk curr_node) nk visit
  end.

(** [while self.augment_ff(float('inf'), s, d, {n: 0 for n in nodes}): pass] *)
Fixpoint ford_fulkerson_loop (fuel : nat) (nk : Network) (s d : node)
  : Network * outcome unit :=
  match fuel with
  | O => (nk, Timeout)
  | S fuel' =>
      match augment_ff fuel nk (Paths.dict_of (all_nodes nk) false) PInf s d with
      | ((nk', _), Ret f) =>
          if truthy f then ford_fulkerson_loop fuel' nk' s d else (nk', Ret ())
      | ((nk', _), Raise e) => (nk', Raise e)
      | ((nk', _), Timeout) => (nk', Timeout)
      end
  end.

(** A sum over a generator whose items may raise. *)
Fixpoint sum_outcomes (l : list (outcome num)) (acc : num) : outcome num :=
  match l with
  | [] => Ret acc
  | o :: rest => v ← o; sum_outcomes rest (nadd acc v)
  end.

(** [ford_fulkerson(s, d)].  The sum that it returns reads the attribute
    ['flow' + (s == adj.source)*'SD' or 'DS'], where [+] binds tighter
    than [or]. *)
Definition ford_fulkerson (fuel : nat) (nk : Network) (s d : node)
  : Network * outcome num :=
  match ford_fulkerson_loop fuel (reset_flow nk) s d with
  | (nk', Ret _) =>
      (nk',
       sum_outcomes
         ((λ '(_, adj),
             getattr (link nk' adj)
                     (str_or ("flow" +:+
                              str_mul (bool_decide (s = source (link nk' adj))) "SD")
                             "DS"))
          <$> adj nk' s) (Fin 0))
  | (nk', Raise e) => (nk', Raise e)
  | (nk', Timeout) => (nk', Timeout)
  end.

(** *** Edmonds-Karp *)

Record EKState : Type := mkEK {
  ek_res_cap : gmap nat num;
  ek_path : gmap nat (option node);
  ek_Q : list node
}.

(** The loop of [augment_ek] over the links of [curr_node]; it stops at the
    [break]. *)
Fixpoint augment_ek_scan (nk : Network) (curr_node destination : node)
    (ls : list (node * nat)) (st : EKState) : outcome EKState :=
  match ls with
  | [] => Ret st
  | (neighbor, adj_plink) :: rest =>
      let sd := dir_from curr_node (link nk adj_plink) in
      let cap := capacity_dir sd (link nk adj_plink) in
      let flow := flow_dir sd (link nk adj_plink) in
      let residual := nsub cap flow in
      if truthy residual then
        prev ← getitem (ek_path st) neighbor;
        match prev with
        | Some _ => augment_ek_scan nk curr_node destination rest st
        | None =>
            rc ← getitem (ek_res_cap st) curr_node;
            let st' := mkEK (<[neighbor := nmin rc residual]> (ek_res_cap st))
                            (<[neighbor := Some curr_node]> (ek_path st))
                            (ek_Q st) in
            if decide (neighbor = destination) then Ret st'
            else augment_ek_scan nk curr_node destination rest
                   (mkEK (ek_res_cap st') (ek_path st') (ek_Q st' ++ [neighbor]))
        end
      else augment_ek_scan nk curr_node destination rest st
  end.

(** [while Q: curr_node = Q.popleft(); ...] *)
Fixpoint augment_ek_loop (fuel : nat) (nk : Network) (destination : node)
    (st : EKState) : outcome EKState :=
  match fuel with
  | O => Timeout
  | S fuel' =>
      match ek_Q st with
      | [] => Ret st
      | curr_node :: q =>
          st' ← augment_ek_scan nk curr_node destination (adj nk curr_node)
                                (mkEK (ek_res_cap st) (ek_path st) q);
          augment_ek_loop fuel' nk destination st'
      end
  end.

(** [augment_ek(source, destination)] *)
Definition augment_ek (fuel : nat) (nk : Network) (source destination : node)
  : outcome (gmap nat (option node) * num) :=
  let st0 := mkEK (<[source := PInf]> (Paths.dict_of (all_nodes nk) (Fin 0)))
                  (<[source := Some source]> (Paths.dict_of (all_nodes nk) None))
                  [source] in
  st ← augment_ek_loop fuel nk destination st0;
  rc ← getitem (ek_res_cap st) destination;
  Ret (ek_path st, rc).

(** [(_, plink) ,= filter(find_plink, self.graph[curr_node.id]['plink'])] *)
Definition the_plink (nk : Network) (curr_node : node) (prec_node : option node)
  : outcome nat :=
  match filter (λ p, Some p.1 = prec_node) (adj nk curr_node) with
  | [(_, plink)] => Ret plink
  | _ => Raise ValueError
  end.

(** [while curr_node != source: ...] along the augmenting path *)
Fixpoint edmonds_karp_push (fuel : nat) (nk : Network)
    (augmenting_path : gmap nat (option node)) (global_flow : num)
    (source : node) (curr_node : option node) : Network * outcome unit :=
  if decide (curr_node = Some source) then (nk, Ret ())
  else
    match fuel with
    | O => (nk, Timeout)
    | S fuel' =>
        match curr_node with
        | None => (nk, Raise KeyError)
        | Some c =>
            match (prec_node ← getitem augmenting_path c;
                   plink ← the_plink nk c prec_node;
                   Ret (prec_node, plink)) with
            | Ret (prec_node, plink) =>
                let sd := dir_from c (link nk plink) in
                edmonds_karp_push fuel' (push_flow (rev_dir sd) global_flow plink nk)
                                  augmenting_path global_flow source prec_node
            | Raise e => (nk, Raise e)
            | Timeout => (nk, Timeout)
            end
        end
    end.

(** [while True: ...] *)
Fixpoint edmonds_karp_loop (fuel : nat) (nk : Network) (source destination : node)
  : Network * outcome unit :=
  match fuel with
  | O => (nk, Timeout)
  | S fuel' =>
      match augment_ek fuel nk source destination with
      | Ret (augmenting_path, global_flow) =>
          if negb (truthy global_flow) then (nk, Ret ())
          else
            match edmonds_karp_push fuel nk augmenting_path global_flow source
                                    (Some destination) with
            | (nk', Ret _) => edmonds_karp_loop fuel' nk' source destination
            | r => r
            end
      | Raise e => (nk, Raise e)
      | Timeout => (nk, Timeout)
      end
  end.

(** [edmonds_karp(source, destination)]; here the attribute is
    ['flow' + ((source == adj.source)*'SD' or 'DS')]. *)
Definition edmonds_karp (fuel : nat) (nk : Network) (source destination : node)
  : Network * outcome num :=
  match edmonds_karp_loop fuel (reset_flow nk) source destination with
  | (nk', Ret _) =>
      (nk',
       sum_outcomes
         ((λ '(_, adj),
             getattr (link nk' adj)
                     ("flow" +:+
                      str_or (str_mul (bool_decide (source = (endpoints (link nk' adj)).1))
                                      "SD") "DS"))
          <$> adj nk' source) (Fin 0))
  | (nk', Raise e) => (nk', Raise e)
  | (nk', Timeout) => (nk', Timeout)
  end.

(** *** Dinic *)

(** [level[n]], then [level[curr_node] + 1], compared *)
Definition next_level (level : gmap nat (option nat)) (neighbor curr_node : node)
  : outcome bool :=
  ln ← getitem level neighbor;
  lc ← getitem level curr_node;
  match lc with
  | None => Raise TypeError
  | Some k => Ret (bool_decide (ln = Some (S k)))
  end.

(** [augment_di(level, flow, curr_node, dest, limit)]: the links and the
    dictionary [level] are shared with the caller. *)
Fixpoint augment_di (fuel : nat) (nk : Network) (level : gmap nat (option nat))
    (curr_node dest : node) (limit : num)
  : (Network * gmap nat (option nat)) * outcome num :=
  match fuel with
  | O => ((nk, level), Timeout)
  | S fuel' =>
      if nleb limit (Fin 0) then ((nk, level), Ret (Fin 0))
      else if decide (curr_node = dest) then ((nk, level), Ret limit)
      else
        (fix loop (ls : list (node * nat)) (nk : Network)
                  (level : gmap nat (option nat)) (val limit : num)
           : (Network * gmap nat (option nat)) * outcome num :=
           match ls with
           | [] =>
               ((nk, if truthy val then level else <[curr_node := None]> level),
                Ret val)
           | (neighbor, adj_plink) :: rest =>
               let sd := dir_from curr_node (link nk adj_plink) in
               let cap := capacity_dir sd (link nk adj_plink) in
               let flow := flow_dir sd (link nk adj_plink) in
               let residual := nsub cap flow in
               match next_level level neighbor curr_node with
               | Ret true =>
                   if nlt (Fin 0) residual then
                     let z := nmin limit residual in
                     match augment_di fuel' nk level neighbor dest z with
                     | ((nk', level'), Ret aug) =>
                         loop rest (push_flow sd aug adj_plink nk') level'
                              (nadd val aug) (nsub limit aug)
                     | r => r
                     end
                   else loop rest nk level val limit
               | Ret false => loop rest nk level val limit
               | Raise e => ((nk, level), Raise e)
               | Timeout => ((nk, level), Timeout)
               end
           end) (adj nk curr_node) nk level (Fin 0) limit
  end.

Record DinicBFS : Type := mkDinicBFS {
  di_level : gmap nat (option nat);
  di_Q : list node;
  di_flow : option num
}.

(** The loop of the search over the links of [curr_node]; [flow] is the
    local variable that [dinic] returns at the end. *)
Fixpoint dinic_scan (nk : Network) (curr_node : node) (ls : list (node * nat))
    (st : DinicBFS) : outcome DinicBFS :=
  match ls with
  | [] => Ret st
  | (neighbor, adj_plink) :: rest =>
      let sd := dir_from curr_node (link nk adj_plink) in
      let cap := capacity_dir sd (link nk adj_plink) in
      let flow := flow_dir sd (link nk adj_plink) in
      ln ← getitem (di_level st) neighbor;
      match ln with
      | None =>
          if nlt flow cap then
            lc ← getitem (di_level st) curr_node;
            match lc with
            | None => Raise TypeError
            | Some k =>
                dinic_scan nk curr_node rest
                  (mkDinicBFS (<[neighbor := Some (S k)]> (di_level st))
                              (di_Q st ++ [neighbor]) (Some flow))
            end
          else dinic_scan nk curr_node rest
                 (mkDinicBFS (di_level st) (di_Q st) (Some flow))
      | Some _ => dinic_scan nk curr_node rest
                    (mkDinicBFS (di_level st) (di_Q st) (Some flow))
      end
  end.

(** [while Q: curr_node = Q.pop(); ...], the queue being filled with
    [appendleft]: first in, first out. *)
Fixpoint dinic_bfs (fuel : nat) (nk : Network) (st : DinicBFS)
  : outcome DinicBFS :=
  match fuel with
  | O => Timeout
  | S fuel' =>
      match di_Q st with
      | [] => Ret st
      | curr_node :: q =>
          st' ← dinic_scan nk curr_node (adj nk curr_node)
                           (mkDinicBFS (di_level st) q (di_flow st));
          dinic_bfs fuel' nk st'
      end
  end.

(** [while True: ...] of [dinic].  The local variable [flow] is read
    twice: as an argument of [self.augment_di(level, flow, ...)] and in
    [return flow, total]; it is bound only once the search has scanned a
    link, and reading it before raises [UnboundLocalError]. *)
Fixpoint dinic_loop (fuel : nat) (nk : Network) (source destination : node)
    (flow : option num) (total : num) : Network * outcome (num * num) :=
  match fuel with
  | O => (nk, Timeout)
  | S fuel' =>
      let st0 := mkDinicBFS (<[source := Some 0%nat]> (Paths.dict_of (all_nodes nk) None))
                            [source] flow in
      match (st ← dinic_bfs fuel nk st0;
             ld ← getitem (di_level st) destination;
             Ret (st, ld)) with
      | Ret (st, None) =>
          match di_flow st with
          | None => (nk, Raise UnboundLocalError)
          | Some f => (nk, Ret (f, total))
          end
      | Ret (st, Some _) =>
          let limit :=
            nsum ((λ '(_, adj_plink),
                     capacity_dir (dir_from source (link nk adj_plink))
                                  (link nk adj_plink)) <$> adj nk source) in
          match di_flow st with
          | None => (nk, Raise UnboundLocalError)
          | Some _ =>
              match augment_di fuel nk (di_level st) source destination limit with
              | ((nk', _), Ret aug) =>
                  dinic_loop fuel' nk' source destination (di_flow st)
                             (nadd total aug)
              | ((nk', _), Raise e) => (nk', Raise e)
              | ((nk', _), Timeout) => (nk', Timeout)
              end
          end
      | Raise e => (nk, Raise e)
      | Timeout => (nk, Timeout)
      end
  end.

(** [dinic(source, destination)] returns the pair [(flow, total)]. *)
Definition dinic (fuel : nat) (nk : Network) (source destination : node)
  : Network * outcome (num * num) :=
  dinic_loop fuel (reset_flow nk) source destination None (Fin 0).

End Flow.

(** ** Minimum spanning tree *)

Module MST.

(** Modelled from the spec: [UnionFind] of [miscellaneous/union_find.py] is
    not under src/.  By section 4.5 of the specification it keeps the
    components of the accepted links, and [union(u, v)] accepts when the
    two nodes "are in different union-find components", which it merges.
    The model keeps, for every node, the representative of its component. *)
Definition UnionFind : Type := node → node.

(** [UnionFind(allowed_nodes)]: every node is a component. *)
Definition uf_init : UnionFind := λ x, x.

Definition uf_union (uf : UnionFind) (u v : node) : UnionFind * bool :=
  if decide (uf u = uf v) then (uf, false)
  else (λ x, if decide (uf x = uf v) then uf u else uf x, true).

(** An entry [(adj_plink.costSD, adj_plink, node, neighbor)] of [edges]. *)
Record Edge : Type := mkEdge {
  e_cost : num;
  e_link : nat;
  e_node : node;
  e_neighbor : node
}.

(** The two nested loops that fill [edges]. *)
Definition kruskal_edges (nk : Network) (allowed_nodes : list node) : list Edge :=
  allowed_nodes ≫= λ n,
    omap (λ '(neighbor, adj_plink),
            if mem neighbor allowed_nodes
            then Some (mkEdge (costSD (link nk adj_plink)) adj_plink n neighbor)
            else None)
         (adj nk n).

(** [sorted(edges, key=itemgetter(0))]: a stable sort, ascending. *)
Fixpoint insert_by_cost (e : Edge) (l : list Edge) : list Edge :=
  match l with
  | [] => [e]
  | e' :: l' =>
      if nlt (e_cost e') (e_cost e) then e' :: insert_by_cost e l'
      else e :: e' :: l'
  end.

Definition sorted_by_cost (l : list Edge) : list Edge :=
  foldr insert_by_cost [] l.

(** [for w, t, u, v in ...: if uf.union(u, v): yield t] *)
Fixpoint kruskal_scan (uf : UnionFind) (edges : list Edge) : list nat :=
  match edges with
  | [] => []
  | e :: rest =>
      let '(uf', accepted) := uf_union uf (e_node e) (e_neighbor e) in
      if accepted then e_link e :: kruskal_scan uf' rest
      else kruskal_scan uf' rest
  end.

(** The union-find structure [uf] after the loop has consumed [edges]. *)
Fixpoint scan_uf (uf : UnionFind) (edges : list Edge) : UnionFind :=
  match edges with
  | [] => uf
  | e :: rest => scan_uf (uf_union uf (e_node e) (e_neighbor e)).1 rest
  end.

(** [kruskal(allowed_nodes)], with the links that it yields in a list. *)
Definition kruskal (nk : Network) (allowed_nodes : list node) : list nat :=
  kruskal_scan uf_init (sorted_by_cost (kruskal_edges nk allowed_nodes)).

(** *** Spanning trees of the subgraph of the allowed nodes *)

Section Spec.
Context (nk : Network) (allowed_nodes : list node).

(** A link with both endpoints in the subset. *)
Definition induced (l : nat) : Prop :=
  ∃ u v, u ∈ allowed_nodes ∧ v ∈ allowed_nodes ∧ (v, l) ∈ adj nk u.

(** Two nodes are joined by a link of [P]; connected: joined by a chain of
    such links, in either direction. *)
Definition joined (P : nat → Prop) (x y : node) : Prop :=
  ∃ l, P l ∧ endpoints (link nk l) = (x, y).

Definition connected_by (P : nat → Prop) : relation node := rtsc (joined P).

Definition connected (F : list nat) : relation node := connected_by (.∈ F).

(** No link of [F] closes a cycle: without it, its endpoints are apart. *)
Definition acyclic (F : list nat) : Prop :=
  NoDup F ∧
  ∀ l, l ∈ F →
    ¬ connected_by (λ l', l' ∈ F ∧ l' ≠ l)
                   (endpoints (link nk l)).1 (endpoints (link nk l)).2.

Definition spans (F : list nat) : Prop :=
  ∀ u v, u ∈ allowed_nodes → v ∈ allowed_nodes → connected F u v.

Definition spanning_tree (T : list nat) : Prop :=
  (∀ l, l ∈ T → induced l) ∧ acyclic T ∧ spans T.

(** The sum of the forward costs. *)
Definition total_cost (F : list nat) : num :=
  nsum ((λ l, costSD (link nk l)) <$> F).

(** Every adjacency entry lists a link between its two endpoints. *)
Definition adjacency_of_links : Prop :=
  ∀ u v l, (v, l) ∈ adj nk u →
    endpoints (link nk l) = (u, v) ∨ endpoints (link nk l) = (v, u).

Definition finite_costs : Prop :=
  ∀ l, induced l → ∃ z, costSD (link nk l) = Fin z.

End Spec.

End MST.

(** ** The bridge to the linear-programming solver *)

Module LP.

(** The status that [glpk.ilp] returns with its solution. *)
Inductive solsta : Type :=
  | optimal
  | feasible
  | undefined
  | invalid_formulation
  | infeasible_problem
  | relaxation_primal_infeasible
  | relaxation_dual_infeasible
  | unknown.

(** The program [minimize c'x subject to Gx <= h, Ax = b], by rows. *)
Record Problem : Type := mkProblem {
  p_c : list num;
  p_G : list (list num);
  p_h : list num;
  p_A : list (list num);
  p_b : list num
}.

(** The solver is outside the repository: a call returns a status and a
    solution vector or [None], or raises. *)
Definition solver : Type := Problem → outcome (solsta * option (list num)).

(** A dictionary in insertion order. *)
Fixpoint dict_set {A} (k : node) (v : A) (d : list (node * A)) : list (node * A) :=
  match d with
  | [] => [(k, v)]
  | (k', v') :: d' =>
      if decide (k = k') then (k, v) :: d' else (k', v') :: dict_set k v d'
  end.

Fixpoint dict_get {A} (k : node) (d : list (node * A)) : outcome A :=
  match d with
  | [] => Raise KeyError
  | (k', v') :: d' => if decide (k = k') then Ret v' else dict_get k d'
  end.

Definition new_graph_t : Type := list (node * list (node * num)).

(** [new_graph[node][neighbor] = attr(plink, direction from node)] for
    every node and every adjacent link *)
Definition build_graph (attr : dir → Link → num) (nk : Network) : new_graph_t :=
  (λ n, (n, foldl (λ d '(neighbor, plink),
                     dict_set neighbor
                              (attr (dir_from n (link nk plink)) (link nk plink)) d)
                  [] (adj nk n)))
  <$> remove_dups (nodes nk).

(** The variables, in the order of the two nested loops over [new_graph]. *)
Definition variables (g : new_graph_t) : list (node * node * num) :=
  g ≫= λ '(n, d), (λ '(neighbor, v), (n, neighbor, v)) <$> d.

Definition bool_num (b : bool) : num := if b then Fin 1 else Fin 0.

(** [np.eye(n, n)] and [-1 * np.eye(n, n)], stacked *)
Definition unit_row (n i : nat) (v : num) : list num :=
  (λ j, if decide (i = j) then v else Fin 0) <$> seq 0 n.

Definition bounds_G (n : nat) : list (list num) :=
  ((λ i, unit_row n i (Fin 1)) <$> seq 0 n) ++
  ((λ i, unit_row n i (Fin (-1))) <$> seq 0 n).

(** [x[cpt]] for the solution that the solver returned *)
Definition solution_at (x : option (list num)) (cpt : nat) : outcome num :=
  match x with
  | None => Raise TypeError
  | Some xs => match xs !! cpt with
               | Some v => Ret v
               | None => Raise IndexError
               end
  end.

(** [for node in new_graph: for neighbor in new_graph[node]:
       new_graph[node][neighbor] = x[cpt]; cpt += 1] *)
Fixpoint decode_row (x : option (list num)) (cpt : nat) (d : list (node * num))
  : outcome (list (node * num) * nat) :=
  match d with
  | [] => Ret ([], cpt)
  | (neighbor, _) :: d' =>
      v ← solution_at x cpt;
      r ← decode_row x (S cpt) d';
      Ret ((neighbor, v) :: r.1, r.2)
  end.

Fixpoint decode (x : option (list num)) (cpt : nat) (g : new_graph_t)
  : outcome new_graph_t :=
  match g with
  | [] => Ret []
  | (n, d) :: g' =>
      r ← decode_row x cpt d;
      g'' ← decode x r.2 g';
      Ret ((n, r.1) :: g'')
  end.

(** [for plink in self.plinks.values():
       plink.flowSD = new_graph[src][dest]; plink.flowDS = new_graph[dest][src]] *)
Fixpoint store_flows (g : new_graph_t) (ls : list nat) (nk : Network)
  : Network * outcome unit :=
  match ls with
  | [] => (nk, Ret ())
  | plink :: rest =>
      let src := source (link nk plink) in
      let dest := destination (link nk plink) in
      match (d ← dict_get src g; dict_get dest d) with
      | Ret fsd =>
          let nk1 := update_link (set_flowSD fsd) plink nk in
          match (d ← dict_get dest g; dict_get src d) with
          | Ret fds => store_flows g rest (update_link (set_flowDS fds) plink nk1)
          | Raise e => (nk1, Raise e)
          | Timeout => (nk1, Timeout)
          end
      | Raise e => (nk, Raise e)
      | Timeout => (nk, Timeout)
      end
  end.

(** [sum(getattr(adj, 'flow' + ((s == adj.source)*'SD' or 'DS'))
         for _, adj in self.graph[s.id]['plink'])] *)
Definition flow_leaving (nk : Network) (s : node) : num :=
  nsum ((λ '(_, l), flow_dir (dir_from s (link nk l)) (link nk l)) <$> adj nk s).

(** [reset_flow] *)
Definition reset_flow (nk : Network) : Network :=
  foldl (λ nk' l, update_link (λ x, set_flowDS (Fin 0) (set_flowSD (Fin 0) x)) l nk')
        nk (all_plinks nk).

(** The program of [LP_MF_formulation]: maximise the flow out of [s]. *)
Definition MF_problem (nk : Network) (s t : node) : Problem :=
  let g := build_graph capacity_dir nk in
  let n := (2 * length (all_plinks nk))%nat in
  let vars := variables g in
  mkProblem
    ((λ '(nd, _, _), nneg (bool_num (bool_decide (nd = s)))) <$> vars)
    (bounds_G n)
    (((λ '(_, _, capacity), capacity) <$> vars) ++ replicate n (Fin 0))
    ((λ node_r,
        (λ '(nd, neighbor, _),
           if decide (neighbor = node_r) then Fin 1
           else if decide (nd = node_r) then Fin (-1) else Fin 0) <$> vars)
     <$> filter (λ node_r, node_r ≠ s ∧ node_r ≠ t) (g.*1))
    (replicate (length g - 2) (Fin 0)).

Definition LP_MF_formulation (ilp : solver) (nk : Network) (s t : node)
  : Network * outcome num :=
  let g := build_graph capacity_dir nk in
  if decide (length g < 2)%nat then (nk, Raise ValueError)
  else
    match ilp (MF_problem nk s t) with
    | Ret (_, x) =>
        match decode x 0 g with
        | Ret g' =>
            match store_flows g' (all_plinks nk) nk with
            | (nk', Ret _) => (nk', Ret (flow_leaving nk' s))
            | (nk', Raise e) => (nk', Raise e)
            | (nk', Timeout) => (nk', Timeout)
            end
        | Raise e => (nk, Raise e)
        | Timeout => (nk, Timeout)
        end
    | Raise e => (nk, Raise e)
    | Timeout => (nk, Timeout)
    end.

(** The program of [LP_SP_formulation]: a unit of flow of least cost. *)
Definition SP_problem (nk : Network) (s t : node) : Problem :=
  let g := build_graph cost_dir nk in
  let n := (2 * length (all_plinks nk))%nat in
  let vars := variables g in
  mkProblem
    ((λ '(_, _, cost), cost) <$> vars)
    (bounds_G n)
    (replicate n (Fin 1) ++ replicate n (Fin 0))
    ((λ node_r,
        (λ '(nd, neighbor, _),
           if decide (neighbor = node_r) then Fin (-1)
           else if decide (nd = node_r) then Fin 1 else Fin 0) <$> vars)
     <$> filter (λ node_r, node_r ≠ t) (g.*1))
    ((λ node_r, bool_num (bool_decide (node_r = s)))
     <$> filter (λ node_r, node_r ≠ t) (g.*1)).

(** The inner loop of the traceback: [curr_node] moves while the loop still
    runs over the links of the node where it started. *)
Definition SP_step (nk : Network) (ls : list (node * nat))
    (st : node * list nat) : node * list nat :=
  foldl (λ '(curr_node, path_plink) '(neighbor, adj_plink),
           if decide (flow_dir (dir_from curr_node (link nk adj_plink))
                               (link nk adj_plink) = Fin 1)
           then (neighbor, path_plink ++ [adj_plink])
           else (curr_node, path_plink))
        st ls.

(** [while curr_node != t: ...] *)
Fixpoint SP_traceback (fuel : nat) (nk : Network) (t : node)
    (st : node * list nat) : outcome (list nat) :=
  if decide (st.1 = t) then Ret st.2
  else
    match fuel with
    | O => Timeout
    | S fuel' => SP_traceback fuel' nk t (SP_step nk (adj nk st.1) st)
    end.

Definition LP_SP_formulation (ilp : solver) (fuel : nat) (nk : Network)
    (s t : node) : Network * outcome (list nat) :=
  let nk0 := reset_flow nk in
  let g := build_graph cost_dir nk0 in
  match ilp (SP_problem nk0 s t) with
  | Ret (_, x) =>
      match decode x 0 g with
      | Ret g' =>
          match store_flows g' (all_plinks nk0) nk0 with
          | (nk', Ret _) => (nk', SP_traceback fuel nk' t (s, []))
          | (nk', Raise e) => (nk', Raise e)
          | (nk', Timeout) => (nk', Timeout)
          end
      | Raise e => (nk0, Raise e)
      | Timeout => (nk0, Timeout)
      end
  | Raise e => (nk0, Raise e)
  | Timeout => (nk0, Timeout)
  end.

End LP.

(** ** Small networks used to evaluate the functions *)

Module Examples.

Definition plain_link (s d : node) (cSD cDS : Z) : Link :=
  mkLink s d (Fin cSD) (Fin cDS) (Fin 0) (Fin 0) (Fin 0) (Fin 0)
         0%Q 0%Q 0%Q 0%Q None.

(** Two nodes and no link. *)
Definition nk_apart : Network := mkNetwork [1; 2] ∅ ∅.

(** Two nodes joined by link 1, of cost 1 in both directions. *)
Definition nk_pair : Network :=
  mkNetwork [1; 2]
            {[ 1 := plain_link 1 2 1 1 ]}
            {[ 1 := [(2, 1)]; 2 := [(1, 1)] ]}.


(** Three routers; router 1 has two equal-cost routes to subnet 7, through
    link 1 (to router 2) and through link 2 (to router 3). *)
Definition nk_fork : Network :=
  mkNetwork [1; 2; 3]
            {[ 1 := plain_link 1 2 1 1; 2 := plain_link 1 3 1 1 ]}
            {[ 1 := [(2, 1); (3, 2)]; 2 := [(1, 1)]; 3 := [(1, 2)] ]}.

Definition fork_info (n : node) : Forwarding.NodeInfo :=
  Forwarding.mkNodeInfo Forwarding.router
    {[ 12 := (112, 1); 13 := (113, 2) ]} ∅.

Definition fork_ifc : Forwarding.Interfaces :=
  Forwarding.mkInterfaces (λ i, 100 + i) (λ i, i).

Definition fork_rt : gmap nat (gmap Forwarding.rt_key (list Forwarding.Route)) :=
  {[ 1 := {[ Forwarding.Subnet 7 :=
               [ Forwarding.mkRoute Forwarding.Learned 12 (Some 1) (Fin 1) 2 (Some 1);
                 Forwarding.mkRoute Forwarding.Learned 13 (Some 2) (Fin 1) 3 (Some 2) ] ]} ]}.

(** A demand of throughput 10 from router 1 to router 2, in subnet 7. *)
Definition fork_traffic : Forwarding.Traffic :=
  Forwarding.mkTraffic 1 2 (Some (Forwarding.mkIP 1)) (Some (Forwarding.mkIP 7))
                       10%Q [].

(** Modelled from the spec: the routing tables of the fork for a set of
    failed links.  Of its two equal-cost routes to subnet 7, router 1 keeps
    those whose link has not failed (section 4.9: the tables are built
    from the links that have not failed). *)
Definition fork_rtc (failed : gset nat)
  : outcome (gmap nat (gmap Forwarding.rt_key (list Forwarding.Route))) :=
  let via2 := Forwarding.mkRoute Forwarding.Learned 12 (Some 1) (Fin 1) 2 (Some 1) in
  let via3 := Forwarding.mkRoute Forwarding.Learned 13 (Some 2) (Fin 1) 3 (Some 2) in
  Ret {[ 1 := {[ Forwarding.Subnet 7 :=
                   (if bool_decide (1 ∈ failed) then [] else [via2]) ++
                   (if bool_decide (2 ∈ failed) then [] else [via3]) ]} ]}.

(** The fork with the demand [fork_traffic] and no failure. *)
Definition fork_sim : Forwarding.Sim :=
  Forwarding.mkSim nk_fork ∅ ∅ {[ 1 := fork_traffic ]}.

(** A chain of three routers: 1 -(link 1)- 2 -(link 2)- 3.  Link 1 is
    subnet 12, link 2 is subnet 23. *)
Definition nk_chain : Network :=
  mkNetwork [1; 2; 3]
            {[ 1 := plain_link 1 2 1 1; 2 := plain_link 2 3 1 1 ]}
            {[ 1 := [(2, 1)]; 2 := [(1, 1); (3, 2)]; 3 := [(2, 2)] ]}.

Definition chain_info (n : node) : Forwarding.NodeInfo :=
  Forwarding.mkNodeInfo Forwarding.router
    {[ 1 := (101, 1); 2 := (102, 1); 3 := (103, 2) ]} ∅.

(** Modelled from the spec: the routing tables of the chain for a set of
    failed links.  A router learns the route to a subnet that is not its own
    along the links that have not failed (section 4.9); the routes to its
    own subnets are added whatever has failed ([static_RFT_builder]). *)
Definition chain_rtc (failed : gset nat)
  : outcome (gmap nat (gmap Forwarding.rt_key (list Forwarding.Route))) :=
  let c12a := Forwarding.mkRoute Forwarding.Connected 2 (Some 1) (Fin 0) 2 (Some 1) in
  let c12b := Forwarding.mkRoute Forwarding.Connected 1 (Some 1) (Fin 0) 1 (Some 1) in
  let c23a := Forwarding.mkRoute Forwarding.Connected 3 (Some 2) (Fin 0) 3 (Some 2) in
  let c23b := Forwarding.mkRoute Forwarding.Connected 2 (Some 2) (Fin 0) 2 (Some 2) in
  let l23 := Forwarding.mkRoute Forwarding.Learned 2 (Some 1) (Fin 2) 2 (Some 1) in
  let l12 := Forwarding.mkRoute Forwarding.Learned 2 (Some 2) (Fin 2) 2 (Some 2) in
  let up := bool_decide (1 ∉ failed) && bool_decide (2 ∉ failed) in
  Ret {[ 1 := (if up then <[Forwarding.Subnet 23 := [l23]]> else id)
                {[ Forwarding.Subnet 12 := [c12a] ]};
         2 := {[ Forwarding.Subnet 12 := [c12b]; Forwarding.Subnet 23 := [c23a] ]};
         3 := (if up then <[Forwarding.Subnet 12 := [l12]]> else id)
                {[ Forwarding.Subnet 23 := [c23b] ]} ]}.

(** One demand of throughput 10 from router 1 to router 3. *)
Definition chain_sim : Forwarding.Sim :=
  Forwarding.mkSim nk_chain ∅ ∅
    {[ 1 := Forwarding.mkTraffic 1 3 (Some (Forwarding.mkIP 12))
                                 (Some (Forwarding.mkIP 23)) 10%Q [] ]}.


Definition flow_link (s d : node) (capSD capDS : Z) : Link :=
  mkLink s d (Fin 1) (Fin 1) (Fin capSD) (Fin capDS) (Fin 0) (Fin 0)
         0%Q 0%Q 0%Q 0%Q None.

(** A flow network of maximum flow 19 from node 1 to node 6: the links
    1-2 and 1-3 of capacity 10, 2-3 of capacity 2, 2-4 of capacity 4,
    2-5 of capacity 8, 3-5 of capacity 9, 5-4 of capacity 6, 4-6 and 5-6 of
    capacity 10, each from its source to its destination. *)
Definition nk_flow : Network :=
  mkNetwork [1; 2; 3; 4; 5; 6]
    {[ 1 := flow_link 1 2 10 0; 2 := flow_link 1 3 10 0;
       3 := flow_link 2 3 2 0; 4 := flow_link 2 4 4 0;
       5 := flow_link 2 5 8 0; 6 := flow_link 3 5 9 0;
       7 := flow_link 5 4 6 0; 8 := flow_link 4 6 10 0;
       9 := flow_link 5 6 10 0 ]}
    {[ 1 := [(2, 1); (3, 2)];
       2 := [(1, 1); (3, 3); (4, 4); (5, 5)];
       3 := [(1, 2); (2, 3); (5, 6)];
       4 := [(2, 4); (5, 7); (6, 8)];
       5 := [(2, 5); (3, 6); (4, 7); (6, 9)];
       6 := [(4, 8); (5, 9)] ]}.

(** Two nodes joined by link 1, whose source is node 2: from node 1 the
    link is taken in its DS direction, of capacity 5. *)
Definition nk_back : Network :=
  mkNetwork [1; 2]
            {[ 1 := flow_link 2 1 0 5 ]}
            {[ 1 := [(2, 1)]; 2 := [(1, 1)] ]}.

(** Four nodes on a square with one diagonal; the link costs are 1, 2, 2,
    4 and 4. *)
Definition nk_square : Network :=
  mkNetwork [1; 2; 3; 4]
    {[ 1 := plain_link 1 2 1 1; 2 := plain_link 2 3 2 2;
       3 := plain_link 1 3 2 2; 4 := plain_link 3 4 4 4;
       5 := plain_link 1 4 4 4 ]}
    {[ 1 := [(2, 1); (3, 3); (4, 5)];
       2 := [(1, 1); (3, 2)];
       3 := [(2, 2); (1, 3); (4, 4)];
       4 := [(3, 4); (1, 5)] ]}.

(** Three nodes; the link between 1 and 2 has node 2 for source, and costs
    1 forward and 10 backward. *)
Definition nk_oneway : Network :=
  mkNetwork [1; 2; 3]
    {[ 1 := plain_link 2 1 1 10; 2 := plain_link 1 3 2 2;
       3 := plain_link 3 2 2 2 ]}
    {[ 1 := [(2, 1); (3, 2)];
       2 := [(1, 1); (3, 3)];
       3 := [(1, 2); (2, 3)] ]}.

(** Two nodes joined by two links: link 1, listed first, costs 5 and link 2
    costs 1. *)
Definition nk_twin : Network :=
  mkNetwork [1; 2]
    {[ 1 := plain_link 1 2 5 5; 2 := plain_link 1 2 1 1 ]}
    {[ 1 := [(2, 1); (2, 2)]; 2 := [(1, 1); (1, 2)] ]}.

(** Three nodes, the third one without a link; the link between 1 and 2
    costs [2**1024]. *)
Definition nk_huge : Network :=
  mkNetwork [1; 2; 3]
    {[ 1 := plain_link 1 2 (2 ^ 1024) (2 ^ 1024) ]}
    {[ 1 := [(2, 1)]; 2 := [(1, 1)] ]}.

(** A solver that reports every problem infeasible. *)
Definition ilp_infeasible : LP.solver :=
  λ _, Ret (LP.infeasible_problem, None).

End Examples.

(** A network that starts empty, with the classes of routers and of
    Ethernet links. *)

Module FactoryExamples.
Import Factory.

Definition demo_classes : gmap string (gmap string Val → Obj) :=
  {[ "router" := λ kw, kw;
     "ethernet link" := λ kw, <["interfaceS" := VObj 100]>
                                (<["interfaceD" := VObj 101]> kw) ]}.

Definition demo_types : gmap string string :=
  {[ "ethernet link" := "plink"; "optical link" := "plink" ]}.

Definition demo_base : BaseNetwork :=
  mkBase {[ "node" := ∅; "plink" := ∅ ]} ∅ ∅ 1 1 ∅.

Definition demo_names (n : string) : gmap string Val := {[ "name" := VStr n ]}.

Definition demo_ends : gmap string Val :=
  {[ "source" := VObj 1; "destination" := VObj 2 ]}.

Definition demo_nodes : BaseNetwork :=
  (nf demo_classes (nf demo_classes demo_base "router" None (demo_names "r1")).1
      "router" None (demo_names "r2")).1.

(** Link subtypes of two link types, and the network of [__init__], with
    its five pools, after two routers and the ethernet link "l1". *)
Definition two_types : gmap string string :=
  {[ "ethernet link" := "plink"; "l2vc" := "l2link" ]}.

Definition init_base : BaseNetwork :=
  mkBase {[ "node" := ∅; "plink" := ∅; "l2link" := ∅; "l3link" := ∅;
            "traffic" := ∅ ]} ∅ ∅ 1 1 ∅.

Definition one_link : BaseNetwork :=
  (lf demo_classes two_types
      (nf demo_classes
          (nf demo_classes init_base "router" None (demo_names "r1")).1
          "router" None (demo_names "r2")).1
      "ethernet link" None (VStr "l1") demo_ends).1.

End FactoryExamples.

(** * Properties *)

(** ** Link store *)

Lemma link_update_link (f : Link → Link) (l l' : nat) (nk : Network) :
  link (update_link f l nk) l' =
    if decide (l = l') then
      match plinks nk !! l with Some x => f x | None => inhabitant end
    else link nk l'.
Proof.
  unfold link, update_link; simpl.
  rewrite lookup_total_alter.
  destruct (decide (l = l')) as [->|]; [|done].
  by destruct (plinks nk !! l').
Qed.

Lemma link_update_link_ne (f : Link → Link) (l l' : nat) (nk : Network) :
  l ≠ l' → link (update_link f l nk) l' = link nk l'.
Proof. intros. rewrite link_update_link. by destruct (decide (l = l')). Qed.

Lemma link_update_link_eq (f : Link → Link) (l : nat) (nk : Network) :
  is_Some (plinks nk !! l) → link (update_link f l nk) l = f (link nk l).
Proof.
  intros [x Hx]. rewrite link_update_link.
  destruct (decide (l = l)); [|done].
  unfold link. rewrite lookup_total_alt, Hx. done.
Qed.

(** A mutation that leaves a field alone leaves it alone on every link. *)
Lemma update_link_field {A} (g : Link → A) (f : Link → Link) l nk l' :
  (∀ x, g (f x) = g x) → g (link (update_link f l nk) l') = g (link nk l').
Proof.
  intros Hf. rewrite link_update_link.
  destruct (decide (l = l')) as [->|]; [|done].
  unfold link. rewrite lookup_total_alt.
  destruct (plinks nk !! l'); simpl; [apply Hf|done].
Qed.

Lemma dom_update_link f l nk : dom (plinks (update_link f l nk)) = dom (plinks nk).
Proof. unfold update_link; simpl. apply dom_alter_L. Qed.

Lemma foldl_update_field {A} (g : Link → A) (f : Link → Link) ls nk l' :
  (∀ x, g (f x) = g x) →
  g (link (foldl (λ nk' l, update_link f l nk') nk ls) l') = g (link nk l').
Proof.
  intros Hf. revert nk. induction ls as [|l ls IH]; intros nk; simpl; [done|].
  rewrite IH. by apply update_link_field.
Qed.

Lemma foldl_update_dom f ls nk :
  dom (plinks (foldl (λ nk' l, update_link f l nk') nk ls)) = dom (plinks nk).
Proof.
  revert nk. induction ls as [|l ls IH]; intros nk; simpl; [done|].
  rewrite IH. apply dom_update_link.
Qed.

Lemma foldl_update_notin f ls nk l' :
  l' ∉ ls → link (foldl (λ nk' l, update_link f l nk') nk ls) l' = link nk l'.
Proof.
  revert nk. induction ls as [|l ls IH]; intros nk Hn; simpl; [done|].
  rewrite IH by set_solver. apply link_update_link_ne. set_solver.
Qed.

Lemma foldl_update_in f ls nk l' :
  NoDup ls → l' ∈ ls → is_Some (plinks nk !! l') →
  link (foldl (λ nk' l, update_link f l nk') nk ls) l' = f (link nk l').
Proof.
  revert nk. induction ls as [|l ls IH]; intros nk Hnd Hin Hs; simpl.
  { by apply elem_of_nil in Hin. }
  apply NoDup_cons in Hnd as [Hl Hnd].
  apply elem_of_cons in Hin as [->|Hin].
  - rewrite foldl_update_notin by done. by apply link_update_link_eq.
  - rewrite IH; [|done|done|].
    + rewrite link_update_link_ne; [done|]. intros ->. done.
    + apply elem_of_dom. rewrite dom_update_link. by apply elem_of_dom.
Qed.

Lemma link_missing nk l : plinks nk !! l = None → link nk l = inhabitant.
Proof. intros H. unfold link. by rewrite lookup_total_alt, H. Qed.

Lemma foldl_update_graph f ls nk :
  graph (foldl (λ nk' l, update_link f l nk') nk ls) = graph nk ∧
  nodes (foldl (λ nk' l, update_link f l nk') nk ls) = nodes nk.
Proof.
  revert nk. induction ls as [|l ls IH]; intros nk; simpl; [done|].
  destruct (IH (update_link f l nk)) as [-> ->]. done.
Qed.

Module PathsProps.
Import Paths.

Lemma for_links_field {A} (g : Link → A) (f : Link → Link) a_t nk l' :
  (∀ x, g (f x) = g x) → g (link (for_links f a_t nk) l') = g (link nk l').
Proof. apply foldl_update_field. Qed.

(** What a loop over the allowed links does to one link. *)
Lemma for_links_in f a_t nk l :
  l ∈ a_t → is_Some (plinks nk !! l) →
  link (for_links f a_t nk) l = f (link nk l).
Proof.
  intros. apply foldl_update_in; [apply NoDup_remove_dups| |done].
  by apply elem_of_remove_dups.
Qed.

Lemma for_links_missing f a_t nk l :
  plinks nk !! l = None → link (for_links f a_t nk) l = inhabitant.
Proof.
  intros H. apply link_missing. apply not_elem_of_dom.
  unfold for_links. rewrite foldl_update_dom. by apply not_elem_of_dom.
Qed.

(** After the first loop of [bhandari] and [suurbale] the flow fields of an
    allowed link hold its costs. *)
Lemma save_cost_flows a_t nk l :
  l ∈ a_t →
  flowSD (link (for_links save_cost a_t nk) l) = costSD (link nk l) ∧
  flowDS (link (for_links save_cost a_t nk) l) = costDS (link nk l).
Proof.
  intros Hin. destruct (plinks nk !! l) as [x|] eqn:Hx.
  - rewrite for_links_in by (done || by eexists). done.
  - rewrite for_links_missing, link_missing by done. done.
Qed.

Lemma set_cost_dir_flowSD d c x : flowSD (set_cost_dir d c x) = flowSD x.
Proof. by destruct d. Qed.
Lemma set_cost_dir_flowDS d c x : flowDS (set_cost_dir d c x) = flowDS x.
Proof. by destruct d. Qed.

Lemma bhandari_flip_flows nk cur path l :
  flowSD (link (bhandari_flip nk cur path) l) = flowSD (link nk l) ∧
  flowDS (link (bhandari_flip nk cur path) l) = flowDS (link nk l).
Proof.
  revert nk cur. induction path as [|p path IH]; intros nk cur; simpl; [done|].
  destruct (IH (update_link (set_cost_dir (rev_dir (dir_from cur (link nk p))) (Fin (-1))) p
                 (update_link (set_cost_dir (dir_from cur (link nk p)) PInf) p nk))
               (match dir_from cur (link nk p) with
                | SD => destination (link (update_link (set_cost_dir (rev_dir (dir_from cur (link nk p))) (Fin (-1))) p
                          (update_link (set_cost_dir (dir_from cur (link nk p)) PInf) p nk)) p)
                | DS => source (link (update_link (set_cost_dir (rev_dir (dir_from cur (link nk p))) (Fin (-1))) p
                          (update_link (set_cost_dir (dir_from cur (link nk p)) PInf) p nk)) p)
                end)) as [-> ->].
  rewrite !(update_link_field flowSD), !(update_link_field flowDS);
    auto using set_cost_dir_flowSD, set_cost_dir_flowDS.
Qed.

Lemma suurbale_recost_flows nk dist tree l :
  flowSD (link (suurbale_recost nk dist tree).1 l) = flowSD (link nk l) ∧
  flowDS (link (suurbale_recost nk dist tree).1 l) = flowDS (link nk l).
Proof.
  revert nk. induction tree as [|p tree IH]; intros nk; simpl; [done|].
  destruct (getitem dist (source (link nk p))) as [ds|e|];
    destruct (getitem dist (destination (link nk p))) as [dd|e'|]; simpl; try done.
  match goal with |- context [suurbale_recost ?n _ _] => destruct (IH n) as [-> ->] end.
  rewrite !(update_link_field flowSD), !(update_link_field flowDS); done.
Qed.

Lemma suurbale_exclude_flows nk cur path l :
  flowSD (link (suurbale_exclude nk cur path).1 l) = flowSD (link nk l) ∧
  flowDS (link (suurbale_exclude nk cur path).1 l) = flowDS (link nk l).
Proof.
  revert nk cur. induction path as [|[p|] path IH]; intros nk cur; simpl; try done.
  match goal with |- context [suurbale_exclude ?n ?c _] => destruct (IH n c) as [-> ->] end.
  rewrite !(update_link_field flowSD), !(update_link_field flowDS);
    auto using set_cost_dir_flowSD, set_cost_dir_flowDS.
Qed.

End PathsProps.

Module DisjointProps.
Import Paths PathsProps Examples.

(** C10: [bhandari] and [suurbale] leave, in the flow fields of every allowed
    link, the costs that the link had when the call started: the flow fields
    are scratch storage for the costs and are not given back their values,
    whatever the call then does (return, raise, or run on). *)
Theorem disjoint_pair_overwrites_flows pop popd fuel nk s t a_n a_t :
  Forall (λ l,
      flowSD (link (bhandari pop fuel nk s t a_n a_t).1 l) = costSD (link nk l) ∧
      flowDS (link (bhandari pop fuel nk s t a_n a_t).1 l) = costDS (link nk l) ∧
      flowSD (link (suurbale popd pop fuel nk s t a_n a_t).1 l) = costSD (link nk l) ∧
      flowDS (link (suurbale popd pop fuel nk s t a_n a_t).1 l) = costDS (link nk l))
    (allowed_plinks_of nk a_t).
Proof.
  apply Forall_forall. intros l Hl.
  pose proof (save_cost_flows _ nk l Hl) as [HS HD].
  split_and!.
  - unfold bhandari.
    destruct (A_star _ _ _ _ _ _ _ _ _ _) as [[? fp]|e|]; simpl; [|done..].
    destruct (bellman_ford _ _ _ _ _ _ _ _ _) as [[? sp]|e|]; simpl.
    + rewrite (for_links_field flowSD) by done.
      by rewrite (proj1 (bhandari_flip_flows _ _ _ _)).
    + by rewrite (proj1 (bhandari_flip_flows _ _ _ _)).
    + by rewrite (proj1 (bhandari_flip_flows _ _ _ _)).
  - unfold bhandari.
    destruct (A_star _ _ _ _ _ _ _ _ _ _) as [[? fp]|e|]; simpl; [|done..].
    destruct (bellman_ford _ _ _ _ _ _ _ _ _) as [[? sp]|e|]; simpl.
    + rewrite (for_links_field flowDS) by done.
      by rewrite (proj2 (bhandari_flip_flows _ _ _ _)).
    + by rewrite (proj2 (bhandari_flip_flows _ _ _ _)).
    + by rewrite (proj2 (bhandari_flip_flows _ _ _ _)).
  - unfold suurbale.
    destruct (dijkstra _ _ _ _ _ _ _) as [[[dist fp] tree]|e|]; simpl; [|done..].
    pose proof (suurbale_recost_flows (for_links save_cost (allowed_plinks_of nk a_t) nk)
                  dist tree l) as [H1 _].
    destruct (suurbale_recost _ dist tree) as [nk2 o2]; simpl in *.
    pose proof (suurbale_exclude_flows nk2 s fp l) as [H2 _].
    destruct o2; simpl; [|congruence..].
    destruct (suurbale_exclude nk2 s fp) as [nk3 o3]; simpl in *.
    destruct o3; simpl; [|congruence..].
    destruct (A_star _ _ _ _ _ _ _ _ _ _) as [[? sp]|e|]; simpl; congruence.
  - unfold suurbale.
    destruct (dijkstra _ _ _ _ _ _ _) as [[[dist fp] tree]|e|]; simpl; [|done..].
    pose proof (suurbale_recost_flows (for_links save_cost (allowed_plinks_of nk a_t) nk)
                  dist tree l) as [_ H1].
    destruct (suurbale_recost _ dist tree) as [nk2 o2]; simpl in *.
    pose proof (suurbale_exclude_flows nk2 s fp l) as [_ H2].
    destruct o2; simpl; [|congruence..].
    destruct (suurbale_exclude nk2 s fp) as [nk3 o3]; simpl in *.
    destruct o3; simpl; [|congruence..].
    destruct (A_star _ _ _ _ _ _ _ _ _ _) as [[? sp]|e|]; simpl; congruence.
Qed.

Lemma bhandari_flip_dom nk cur path :
  dom (plinks (bhandari_flip nk cur path)) = dom (plinks nk).
Proof.
  revert nk cur. induction path as [|p path IH]; intros nk cur; simpl; [done|].
  rewrite IH. by rewrite !dom_update_link.
Qed.

(** When [bhandari] returns, the costs of every allowed link are the costs
    it had on entry: the last loop copies them back from the flow fields. *)
Theorem bhandari_restores_costs pop fuel nk s t a_n a_t nk' r :
  bhandari pop fuel nk s t a_n a_t = (nk', Ret r) →
  Forall (λ l, costSD (link nk' l) = costSD (link nk l) ∧
               costDS (link nk' l) = costDS (link nk l))
         (allowed_plinks_of nk a_t).
Proof.
  unfold bhandari. intros Hb. apply Forall_forall. intros l Hl.
  destruct (A_star _ _ _ _ _ _ _ _ _ _) as [[? fp]|e|]; [|done..].
  destruct (bellman_ford _ _ _ _ _ _ _ _ _) as [[? sp]|e|]; [|done..].
  injection Hb as <- _.
  pose proof (save_cost_flows _ nk l Hl) as [HS HD].
  set (nk1 := for_links save_cost (allowed_plinks_of nk a_t) nk) in *.
  pose proof (bhandari_flip_flows nk1 s fp l) as [FS FD].
  destruct (plinks nk !! l) as [x|] eqn:Hx.
  - rewrite for_links_in; [simpl; split; congruence|done|].
    apply elem_of_dom. rewrite bhandari_flip_dom. unfold nk1, for_links.
    rewrite foldl_update_dom. apply elem_of_dom. by eexists.
  - rewrite for_links_missing, (link_missing nk) by
      (try done; apply not_elem_of_dom; rewrite bhandari_flip_dom;
       unfold nk1, for_links; rewrite foldl_update_dom; by apply not_elem_of_dom).
    done.
Qed.

Lemma bhandari_restores_costs_witness :
  Forall (λ l,
      costSD (link (bhandari (pop_min a_dist) 10 nk_pair 1 2 None None).1 l)
        = costSD (link nk_pair l) ∧
      costDS (link (bhandari (pop_min a_dist) 10 nk_pair 1 2 None None).1 l)
        = costDS (link nk_pair l))
    (allowed_plinks_of nk_pair None).
Proof.
  apply (bhandari_restores_costs (pop_min a_dist) 10 nk_pair 1 2 None None
           _ [Some 1%nat]).
  vm_compute; reflexivity.
Defined.

(** C3: on two nodes joined by one link of cost 1, [suurbale] returns and
    leaves the link with a forward cost of infinity and a backward cost
    of 2: the costs are saved in the flow fields and never copied back. *)
Theorem suurbale_does_not_restore_costs :
  let r := suurbale (pop_min fst) (pop_min a_dist) 10 nk_pair 1 2 None None in
  r.2 = Ret [] ∧
  costSD (link nk_pair 1) = Fin 1 ∧ costDS (link nk_pair 1) = Fin 1 ∧
  costSD (link r.1 1) = PInf ∧ costDS (link r.1 1) = Fin 2.
Proof. vm_compute. repeat split. Qed.

(** C2: with two nodes and no link, the target is out of reach and
    [dijkstra] raises [KeyError] in the traceback ([prec_plink[None]]). *)
Theorem dijkstra_unreachable_raises :
  dijkstra (pop_min fst) 10 nk_apart 1 2 None None = Raise KeyError.
Proof. vm_compute. reflexivity. Qed.

End DisjointProps.

Module ForwardingProps.
Import Forwarding Examples.

(** C1: router 1 has two equal-cost routes, through link 1 and through
    link 2, and link 2 has failed.  The demand of throughput 10 is divided
    by the one route that has not failed, and the share is added to both
    links, the failed one included; when both links have failed the
    division raises [ZeroDivisionError]. *)
Theorem RFT_path_finder_loads_failed_routes :
  let r := RFT_path_finder fork_info fork_ifc 10 fork_rt {[2]} nk_fork
                           fork_traffic in
  r.2 = Ret [ONode 1; OLink 1; OLink 2; ONode 3] ∧
  (trafficSD (link r.1 1) == 10)%Q ∧
  (trafficSD (link r.1 2) == 10)%Q ∧
  (RFT_path_finder fork_info fork_ifc 10 fork_rt {[1; 2]} nk_fork
                   fork_traffic).2 = Raise ZeroDivisionError.
Proof. vm_compute. repeat split. Qed.

(** *** What the walk reads and what it writes *)

(** A link without its recorded peak, and without its traffic as well. *)
Definition no_wc (x : Link) : Link :=
  mkLink (source x) (destination x) (costSD x) (costDS x) (capacitySD x)
         (capacityDS x) (flowSD x) (flowDS x) (trafficSD x) (trafficDS x)
         0%Q 0%Q None.

Definition no_traffic (x : Link) : Link :=
  mkLink (source x) (destination x) (costSD x) (costDS x) (capacitySD x)
         (capacityDS x) (flowSD x) (flowDS x) 0%Q 0%Q
         (wctrafficSD x) (wctrafficDS x) (wcfailure x).

(** Two networks that agree on every link up to [erase]. *)
Definition agree (erase : Link → Link) (nk1 nk2 : Network) : Prop :=
  nodes nk1 = nodes nk2 ∧ graph nk1 = graph nk2 ∧
  dom (plinks nk1) = dom (plinks nk2) ∧
  ∀ l, erase (link nk1 l) = erase (link nk2 l).

Lemma agree_refl erase nk : agree erase nk nk.
Proof. by repeat split. Qed.

Lemma agree_sym erase nk1 nk2 : agree erase nk1 nk2 → agree erase nk2 nk1.
Proof. intros (?&?&?&?). by repeat split. Qed.

Lemma agree_trans erase nk1 nk2 nk3 :
  agree erase nk1 nk2 → agree erase nk2 nk3 → agree erase nk1 nk3.
Proof.
  intros (?&?&?&Ha) (?&?&?&Hb). repeat split; try congruence.
  all: intros l; by rewrite Ha.
Qed.

Lemma agree_weaken (e1 e2 : Link → Link) nk1 nk2 :
  (∀ x y, e1 x = e1 y → e2 x = e2 y) → agree e1 nk1 nk2 → agree e2 nk1 nk2.
Proof. intros He (?&?&?&H). repeat split; auto. Qed.

Lemma agree_update erase f1 f2 l nk1 nk2 :
  agree erase nk1 nk2 →
  (∀ x y, erase x = erase y → erase (f1 x) = erase (f2 y)) →
  agree erase (update_link f1 l nk1) (update_link f2 l nk2).
Proof.
  intros (Hn&Hg&Hd&Hl) Hf. repeat split; simpl; try done.
  - by rewrite !dom_alter_L.
  - intros l'. rewrite !link_update_link.
    destruct (decide (l = l')) as [->|]; [|apply Hl].
    specialize (Hl l'). unfold link in Hl. rewrite !lookup_total_alt in Hl.
    assert (is_Some (plinks nk1 !! l') ↔ is_Some (plinks nk2 !! l')) as Hs.
    { by rewrite <- !elem_of_dom, Hd. }
    destruct (plinks nk1 !! l') as [x|], (plinks nk2 !! l') as [y|]; simpl in *.
    + by apply Hf.
    + destruct Hs as [Hs _]. destruct Hs; [by eexists|done].
    + destruct Hs as [_ Hs]. destruct Hs; [by eexists|done].
    + done.
Qed.

(** A mutation that [erase] hides keeps the network in agreement with
    itself. *)
Lemma agree_update_self erase f l nk :
  (∀ x, erase (f x) = erase x) → agree erase (update_link f l nk) nk.
Proof.
  intros Hf. repeat split; simpl; try done.
  - by rewrite dom_alter_L.
  - intros l'. by apply (update_link_field erase).
Qed.

Lemma agree_foldl_self erase f ls nk :
  (∀ x, erase (f x) = erase x) →
  agree erase (foldl (λ nk' l, update_link f l nk') nk ls) nk.
Proof.
  intros Hf. revert nk. induction ls as [|l ls IH]; intros nk; simpl.
  - apply agree_refl.
  - eapply agree_trans; [apply IH|]. by apply agree_update_self.
Qed.

Lemma agree_adj erase nk1 nk2 n : agree erase nk1 nk2 → adj nk1 n = adj nk2 n.
Proof. intros (?&Hg&?&?). unfold adj. by rewrite Hg. Qed.

Lemma agree_all_plinks erase nk1 nk2 :
  agree erase nk1 nk2 → all_plinks nk1 = all_plinks nk2.
Proof. intros (?&?&Hd&?). unfold all_plinks. by rewrite Hd. Qed.

Lemma no_wc_fields x y :
  no_wc x = no_wc y →
  source x = source y ∧ destination x = destination y ∧
  costSD x = costSD y ∧ costDS x = costDS y ∧
  trafficSD x = trafficSD y ∧ trafficDS x = trafficDS y.
Proof. unfold no_wc. intros H. injection H. intros. by repeat split. Qed.

Lemma no_traffic_fields x y :
  no_traffic x = no_traffic y →
  source x = source y ∧ destination x = destination y ∧
  wctrafficSD x = wctrafficSD y ∧ wctrafficDS x = wctrafficDS y.
Proof. unfold no_traffic. intros H. injection H. intros. by repeat split. Qed.

Lemma agree_dir_from nk1 nk2 n l :
  agree no_wc nk1 nk2 → dir_from n (link nk1 l) = dir_from n (link nk2 l).
Proof.
  intros (_&_&_&H). destruct (no_wc_fields _ _ (H l)) as (Hs&_).
  unfold dir_from. by rewrite Hs.
Qed.

Lemma no_wc_set_traffic d q1 q2 x y :
  no_wc x = no_wc y → q1 = q2 →
  no_wc (set_traffic_dir d q1 x) = no_wc (set_traffic_dir d q2 y).
Proof.
  intros H ->. unfold no_wc in *. injection H. intros.
  destruct d; simpl; congruence.
Qed.

Lemma no_wc_traffic_dir d x y :
  no_wc x = no_wc y → traffic_dir d x = traffic_dir d y.
Proof. intros H. destruct (no_wc_fields _ _ H) as (_&_&_&_&?&?). by destruct d. Qed.

#[local] Arguments router_route : simpl never.

Section WalkProps.
Context (info : node → NodeInfo) (ifc : Interfaces).
Context (rtc : gset nat → outcome (gmap nat (gmap rt_key (list Route)))).
Context (pop : Paths.heappop_t Paths.AEntry).

(** Two runs of the walk from networks that differ in the recorded peaks
    only do the same and end in networks that differ in the peaks only. *)
Definition walk_agree (a b : (Network * list hop * list obj) * outcome unit)
  : Prop :=
  agree no_wc a.1.1.1 b.1.1.1 ∧ a.1.1.2 = b.1.1.2 ∧ a.1.2 = b.1.2 ∧ a.2 = b.2.

Lemma router_route_agree c dv df r nk1 nk2 h p :
  agree no_wc nk1 nk2 →
  walk_agree (router_route info ifc c dv df r (nk1, h, p))
             (router_route info ifc c dv df r (nk2, h, p)).
Proof.
  intros Ha. unfold router_route, walk_agree.
  destruct (decide (dv = 0%nat)); [done|].
  destruct (r_ex_int r) as [ex_int|]; [|done].
  destruct (arpt (info c) !! r_nh_ip r) as [[mac ?]|]; [|done].
  destruct (r_ex_tk r) as [ex_tk|]; [|done].
  rewrite <- (agree_dir_from nk1 nk2 c ex_tk Ha).
  set (sd := dir_from c (link nk1 ex_tk)).
  set (thr := (throughput df / inject_Z (Z.of_nat dv))%Q).
  assert (agree no_wc
            (update_link (λ l, set_traffic_dir sd (traffic_dir sd l + thr)%Q l) ex_tk nk1)
            (update_link (λ l, set_traffic_dir sd (traffic_dir sd l + thr)%Q l) ex_tk nk2))
    as Ha'.
  { apply agree_update; [done|]. intros x y Hxy.
    apply no_wc_set_traffic; [done|]. by rewrite (no_wc_traffic_dir sd x y). }
  simpl. split_and!; try done.
  destruct Ha' as (_&_&_&Hl).
  destruct (no_wc_fields _ _ (Hl ex_tk)) as (Hs&Hd&_).
  by rewrite Hs, Hd.
Qed.

Lemma router_routes_cons c dv df r rs s :
  router_routes info ifc c dv df (r :: rs) s =
    match router_route info ifc c dv df r s with
    | (s', Ret _) => router_routes info ifc c dv df rs s'
    | (s', o) => (s', o)
    end.
Proof. done. Qed.

Lemma router_routes_agree c dv df rs nk1 nk2 h p :
  agree no_wc nk1 nk2 →
  walk_agree (router_routes info ifc c dv df rs (nk1, h, p))
             (router_routes info ifc c dv df rs (nk2, h, p)).
Proof.
  revert nk1 nk2 h p. induction rs as [|r rs IH]; intros nk1 nk2 h p Ha.
  { unfold walk_agree. simpl. by split_and!. }
  rewrite !router_routes_cons.
  pose proof (router_route_agree c dv df r nk1 nk2 h p Ha) as (H1&H2&H3&H4).
  destruct (router_route info ifc c dv df r (nk1, h, p)) as [[[nk1' h1] p1] o1].
  destruct (router_route info ifc c dv df r (nk2, h, p)) as [[[nk2' h2] p2] o2].
  simpl in *. subst h2 p2 o2.
  destruct o1; [by apply IH|unfold walk_agree; simpl; by split_and!..].
Qed.

Lemma RFT_loop_agree fuel rt failed traffic dst nk1 nk2 heap path :
  agree no_wc nk1 nk2 →
  agree no_wc (RFT_loop info ifc fuel rt failed traffic dst nk1 heap path).1
              (RFT_loop info ifc fuel rt failed traffic dst nk2 heap path).1 ∧
  (RFT_loop info ifc fuel rt failed traffic dst nk1 heap path).2 =
  (RFT_loop info ifc fuel rt failed traffic dst nk2 heap path).2.
Proof.
  revert nk1 nk2 heap path.
  induction fuel as [|fuel IH]; intros nk1 nk2 heap path Ha; simpl; [done|].
  destruct heap as [|[[curr ?] df] heap]; [done|].
  destruct (decide (curr = t_destination traffic)); [by apply IH|].
  destruct (n_subtype (info curr)); try by apply IH.
  - destruct (match rt_of rt curr !! Subnet dst with
              | Some r => Some r
              | None => rt_of rt curr !! DefaultRoute
              end) as [routes|]; [|done].
    match goal with |- context [router_routes _ _ ?c ?dv ?d ?rs (nk1, ?h, ?p)] =>
      pose proof (router_routes_agree c dv d rs nk1 nk2 h p Ha) as (H1&H2&H3&H4);
      destruct (router_routes info ifc c dv d rs (nk1, h, p)) as [[[nk1' h1] p1] o1];
      destruct (router_routes info ifc c dv d rs (nk2, h, p)) as [[[nk2' h2] p2] o2]
    end.
    simpl in *. subst h2 p2 o2. destruct o1; [by apply IH|done..].
  - destruct (dst_mac _) as [m|]; [|done].
    destruct (st (info curr) !! m) as [ex_int|]; [|done].
    destruct Ha as (Hn&Hg&Hd&Hl).
    destruct (no_wc_fields _ _ (Hl (if_link ifc ex_int))) as (Hs&Hds&_).
    rewrite Hs, Hds. by apply IH.
Qed.

Lemma RFT_loop_path fuel rt failed traffic p dst nk heap path :
  RFT_loop info ifc fuel rt failed (set_path p traffic) dst nk heap path =
  RFT_loop info ifc fuel rt failed traffic dst nk heap path.
Proof.
  revert nk heap path.
  induction fuel as [|fuel IH]; intros nk heap path; simpl; [done|].
  destruct heap as [|[[curr ?] df] heap]; [done|].
  destruct (decide (curr = t_destination traffic)); [by apply IH|].
  destruct (n_subtype (info curr)); try by apply IH.
  - destruct (match rt_of rt curr !! Subnet dst with
              | Some r => Some r
              | None => rt_of rt curr !! DefaultRoute
              end) as [routes|]; [|done].
    destruct (router_routes _ _ _ _ _ _ _) as [[[nk' h'] p'] oo].
    destruct oo; [by apply IH|done..].
  - destruct (dst_mac _) as [m|]; [|done].
    destruct (st (info curr) !! m) as [ex_int|]; [|done]. by apply IH.
Qed.

Lemma RFT_path_finder_path fuel rt failed nk traffic p :
  RFT_path_finder info ifc fuel rt failed nk (set_path p traffic) =
  RFT_path_finder info ifc fuel rt failed nk traffic.
Proof.
  unfold RFT_path_finder. simpl.
  destruct (t_source_IP traffic), (t_destination_IP traffic); try done.
  apply RFT_loop_path.
Qed.

Lemma RFT_path_finder_agree fuel rt failed nk1 nk2 traffic :
  agree no_wc nk1 nk2 →
  agree no_wc (RFT_path_finder info ifc fuel rt failed nk1 traffic).1
              (RFT_path_finder info ifc fuel rt failed nk2 traffic).1 ∧
  (RFT_path_finder info ifc fuel rt failed nk1 traffic).2 =
  (RFT_path_finder info ifc fuel rt failed nk2 traffic).2.
Proof.
  intros Ha. unfold RFT_path_finder.
  destruct (t_source_IP traffic), (t_destination_IP traffic); try done.
  by apply RFT_loop_agree.
Qed.

(** The walk writes the traffic fields and nothing else. *)
Lemma no_traffic_set_traffic d q x :
  no_traffic (set_traffic_dir d q x) = no_traffic x.
Proof. by destruct d. Qed.

Lemma router_route_frame c dv df r nk h p :
  agree no_traffic (router_route info ifc c dv df r (nk, h, p)).1.1.1 nk.
Proof.
  unfold router_route.
  destruct (decide (dv = 0%nat)); [apply agree_refl|].
  destruct (r_ex_int r) as [ex_int|]; [|apply agree_refl].
  destruct (arpt (info c) !! r_nh_ip r) as [[mac ?]|]; [|apply agree_refl].
  destruct (r_ex_tk r) as [ex_tk|]; [|apply agree_refl].
  simpl. apply agree_update_self. intros x. apply no_traffic_set_traffic.
Qed.

Lemma router_routes_frame c dv df rs nk h p :
  agree no_traffic (router_routes info ifc c dv df rs (nk, h, p)).1.1.1 nk.
Proof.
  revert nk h p. induction rs as [|r rs IH]; intros nk h p.
  { apply agree_refl. }
  rewrite router_routes_cons.
  pose proof (router_route_frame c dv df r nk h p) as Hf.
  destruct (router_route info ifc c dv df r (nk, h, p)) as [[[nk' h'] p'] oo].
  simpl in Hf. destruct oo; simpl; [|done..].
  eapply agree_trans; [apply IH|done].
Qed.

Lemma RFT_loop_frame fuel rt failed traffic dst nk heap path :
  agree no_traffic (RFT_loop info ifc fuel rt failed traffic dst nk heap path).1 nk.
Proof.
  revert nk heap path.
  induction fuel as [|fuel IH]; intros nk heap path; simpl; [apply agree_refl|].
  destruct heap as [|[[curr ?] df] heap]; [apply agree_refl|].
  destruct (decide (curr = t_destination traffic)); [by apply IH|].
  destruct (n_subtype (info curr)); try by apply IH.
  - destruct (match rt_of rt curr !! Subnet dst with
              | Some r => Some r
              | None => rt_of rt curr !! DefaultRoute
              end) as [routes|]; [|apply agree_refl].
    match goal with |- context [router_routes _ _ ?c ?dv ?d ?rs (nk, ?h, ?p)] =>
      pose proof (router_routes_frame c dv d rs nk h p) as Hf;
      destruct (router_routes info ifc c dv d rs (nk, h, p)) as [[[nk' h'] p'] oo]
    end.
    simpl in Hf. destruct oo; simpl; [|done..].
    eapply agree_trans; [apply IH|done].
  - destruct (dst_mac _) as [m|]; [|apply agree_refl].
    destruct (st (info curr) !! m) as [ex_int|]; [|apply agree_refl]. by apply IH.
Qed.

Lemma RFT_path_finder_frame fuel rt failed nk traffic :
  agree no_traffic (RFT_path_finder info ifc fuel rt failed nk traffic).1 nk.
Proof.
  unfold RFT_path_finder.
  destruct (t_source_IP traffic), (t_destination_IP traffic);
    try apply agree_refl.
  apply RFT_loop_frame.
Qed.

Lemma agree_call_cost nk1 nk2 l n :
  agree no_wc nk1 nk2 → call_cost (link nk1 l) n = call_cost (link nk2 l) n.
Proof.
  intros Ha. unfold call_cost. rewrite (agree_dir_from nk1 nk2 n l Ha).
  destruct Ha as (_&_&_&H).
  destruct (no_wc_fields _ _ (H l)) as (_&_&?&?&_).
  by destruct (dir_from n (link nk2 l)).
Qed.

Lemma A_star_push_agree nk1 nk2 a_p e_p a_n e_n e h :
  agree no_wc nk1 nk2 →
  Paths.A_star_push nk1 a_p e_p a_n e_n e h =
  Paths.A_star_push nk2 a_p e_p a_n e_n e h.
Proof.
  intros Ha. unfold Paths.A_star_push.
  rewrite (agree_adj _ nk1 nk2 _ Ha).
  generalize (adj nk2 (Paths.a_node e)). intros ls. revert h.
  induction ls as [|[nb pl] ls IH]; intros h; simpl; [done|].
  rewrite (agree_call_cost nk1 nk2 pl _ Ha). apply IH.
Qed.

Lemma A_star_loop_agree fuel nk1 nk2 a_p e_p a_n e_n visited heap pc :
  agree no_wc nk1 nk2 →
  Paths.A_star_loop pop fuel nk1 a_p e_p a_n e_n visited heap pc =
  Paths.A_star_loop pop fuel nk2 a_p e_p a_n e_n visited heap pc.
Proof.
  intros Ha. revert visited heap pc.
  induction fuel as [|fuel IH]; intros visited heap pc; simpl; [done|].
  destruct (pop heap) as [[e h]|]; [|done].
  destruct (decide (Paths.a_node e ∈ visited)); [apply IH|].
  rewrite !(A_star_push_agree nk1 nk2) by done.
  destruct (decide (last pc = Some (Paths.a_node e))); [|apply IH].
  destruct (removelast pc); [done|apply IH].
Qed.

Lemma A_star_agree fuel nk1 nk2 s t ep en pcs ap an :
  agree no_wc nk1 nk2 →
  Paths.A_star pop fuel nk1 s t ep en pcs ap an =
  Paths.A_star pop fuel nk2 s t ep en pcs ap an.
Proof.
  intros Ha. unfold Paths.A_star, Paths.allowed_plinks_of, Paths.allowed_nodes_of.
  rewrite (agree_all_plinks _ nk1 nk2 Ha). unfold all_nodes.
  rewrite (proj1 Ha). by apply A_star_loop_agree.
Qed.

(** Two states of the simulation that differ in the recorded peaks and in
    the recorded paths only. *)
Definition same_demands (t1 t2 : gmap nat Traffic) : Prop :=
  ∀ i, set_path [] <$> t1 !! i = set_path [] <$> t2 !! i.

Definition sim_agree (s1 s2 : Sim) : Prop :=
  agree no_wc (net s1) (net s2) ∧ rts s1 = rts s2 ∧
  failed_obj s1 = failed_obj s2 ∧ same_demands (traffics s1) (traffics s2).

Lemma same_demands_dom t1 t2 : same_demands t1 t2 → dom t1 = dom t2.
Proof.
  intros H. apply set_eq. intros i. rewrite !elem_of_dom.
  specialize (H i). by destruct (t1 !! i), (t2 !! i).
Qed.

Lemma same_demands_insert t1 t2 i p x y :
  same_demands t1 t2 → set_path [] x = set_path [] y →
  same_demands (<[i := set_path p x]> t1) (<[i := set_path p y]> t2).
Proof.
  intros H Hxy j. destruct (decide (i = j)) as [->|].
  - rewrite !lookup_insert_eq. simpl. f_equal.
    unfold set_path in *. simpl. injection Hxy. intros. congruence.
  - rewrite !lookup_insert_ne by done. apply H.
Qed.

Lemma set_path_same x y :
  set_path [] x = set_path [] y → x = set_path (t_path x) y.
Proof.
  unfold set_path. intros H. injection H. intros. destruct x; simpl in *.
  congruence.
Qed.

Lemma path_finder_demand_path fuel s traffic p :
  path_finder_demand info ifc pop fuel s (set_path p traffic) =
  path_finder_demand info ifc pop fuel s traffic.
Proof.
  unfold path_finder_demand. simpl.
  destruct (_ && _); [apply RFT_path_finder_path|done].
Qed.

Lemma path_finder_demand_agree fuel s1 s2 traffic :
  sim_agree s1 s2 →
  agree no_wc (path_finder_demand info ifc pop fuel s1 traffic).1
              (path_finder_demand info ifc pop fuel s2 traffic).1 ∧
  (path_finder_demand info ifc pop fuel s1 traffic).2 =
  (path_finder_demand info ifc pop fuel s2 traffic).2.
Proof.
  intros (Ha&Hr&Hf&Ht). unfold path_finder_demand.
  destruct (_ && _).
  - rewrite Hr, Hf. by apply RFT_path_finder_agree.
  - simpl. split; [done|]. by rewrite (A_star_agree _ _ _ _ _ _ _ _ _ _ Ha).
Qed.

Lemma path_finder_demand_frame fuel s traffic :
  agree no_traffic (path_finder_demand info ifc pop fuel s traffic).1 (net s).
Proof.
  unfold path_finder_demand. destruct (_ && _).
  - apply RFT_path_finder_frame.
  - apply agree_refl.
Qed.

Lemma path_finder_loop_agree fuel keys s1 s2 :
  sim_agree s1 s2 →
  sim_agree (path_finder_loop info ifc pop fuel keys s1).1
            (path_finder_loop info ifc pop fuel keys s2).1 ∧
  (path_finder_loop info ifc pop fuel keys s1).2 =
  (path_finder_loop info ifc pop fuel keys s2).2.
Proof.
  revert s1 s2. induction keys as [|i keys IH]; intros s1 s2 Hs; simpl; [done|].
  destruct Hs as (Ha&Hr&Hf&Ht).
  pose proof (Ht i) as Hi.
  destruct (traffics s1 !! i) as [x|] eqn:E1, (traffics s2 !! i) as [y|] eqn:E2;
    simpl in Hi; try done; [|by apply IH].
  assert (set_path [] x = set_path [] y) as Hxy by congruence. clear Hi.
  rewrite (set_path_same x y Hxy), path_finder_demand_path.
  pose proof (path_finder_demand_agree fuel s1 s2 y) as [H1 H2]; [done|].
  destruct (path_finder_demand info ifc pop fuel s1 y) as [nk1 o1].
  destruct (path_finder_demand info ifc pop fuel s2 y) as [nk2 o2].
  simpl in *. subst o2. destruct o1 as [path| |]; simpl; [|done..].
  apply IH. split_and!; simpl; try done.
  apply same_demands_insert; [done|]. done.
Qed.

Lemma same_demands_insert_self t i p x :
  t !! i = Some x → same_demands (<[i := set_path p x]> t) t.
Proof.
  intros Hx j. destruct (decide (i = j)) as [->|].
  - by rewrite lookup_insert_eq, Hx.
  - by rewrite lookup_insert_ne.
Qed.

Lemma same_demands_trans t1 t2 t3 :
  same_demands t1 t2 → same_demands t2 t3 → same_demands t1 t3.
Proof. intros H1 H2 i. by rewrite H1. Qed.

(** What a run of the loop of [path_finder] leaves alone. *)
Definition sim_frame (s' s : Sim) : Prop :=
  agree no_traffic (net s') (net s) ∧ failed_obj s' = failed_obj s ∧
  same_demands (traffics s') (traffics s).

Lemma path_finder_loop_frame fuel keys s :
  sim_frame (path_finder_loop info ifc pop fuel keys s).1 s ∧
  rts (path_finder_loop info ifc pop fuel keys s).1 = rts s.
Proof.
  revert s. induction keys as [|i keys IH]; intros s; simpl.
  { split; [|done]. split_and!; [apply agree_refl|done|done]. }
  destruct (traffics s !! i) as [x|] eqn:E; [|apply IH].
  pose proof (path_finder_demand_frame fuel s x) as Hf.
  destruct (path_finder_demand info ifc pop fuel s x) as [nk' o].
  simpl in Hf. destruct o as [path| |]; simpl;
    try (split; [|done]; unfold sim_frame; simpl; by split_and!).
  match goal with |- context [path_finder_loop _ _ _ _ _ ?s0] =>
    destruct (IH s0) as [(H1&H2&H3) H4] end.
  simpl in *. split; [|done]. split_and!; [|done|].
  - eapply agree_trans; [apply H1|done].
  - eapply same_demands_trans; [apply H3|]. by apply same_demands_insert_self.
Qed.

(** *** Resetting the traffic *)

Definition bare (x : Link) : Link := no_wc (no_traffic x).

Definition zero_traffic (x : Link) : Link :=
  set_traffic_dir DS 0%Q (set_traffic_dir SD 0%Q x).

Lemma reset_traffic_link nk l :
  link (reset_traffic nk) l =
    if decide (l ∈ dom (plinks nk)) then zero_traffic (link nk l) else link nk l.
Proof.
  unfold reset_traffic, all_plinks. destruct (decide (l ∈ dom (plinks nk))) as [Hl|Hl].
  - apply foldl_update_in.
    + apply NoDup_elements.
    + by apply elem_of_elements.
    + by apply elem_of_dom.
  - apply foldl_update_notin. by rewrite elem_of_elements.
Qed.

Lemma reset_traffic_agree nk1 nk2 :
  agree bare nk1 nk2 → agree no_wc (reset_traffic nk1) (reset_traffic nk2).
Proof.
  intros (Hn&Hg&Hd&Hl). unfold agree. split_and!.
  - unfold reset_traffic. by rewrite !(proj2 (foldl_update_graph _ _ _)).
  - unfold reset_traffic. by rewrite !(proj1 (foldl_update_graph _ _ _)).
  - unfold reset_traffic. by rewrite !foldl_update_dom.
  - intros l. rewrite !reset_traffic_link, Hd.
    specialize (Hl l). unfold bare, no_wc, no_traffic, zero_traffic in *.
    destruct (decide (l ∈ dom (plinks nk2))) as [Hin|Hin].
    + simpl in *. injection Hl. intros. congruence.
    + rewrite !link_missing; [done|by apply not_elem_of_dom..|].
      apply not_elem_of_dom. by rewrite Hd.
Qed.

Lemma reset_traffic_frame nk : agree no_traffic (reset_traffic nk) nk.
Proof. apply agree_foldl_self. by intros []. Qed.

(** *** One scenario *)

Definition pre_agree (s1 s2 : Sim) : Prop :=
  agree bare (net s1) (net s2) ∧ same_demands (traffics s1) (traffics s2).

Lemma route_agree fuel s1 s2 :
  pre_agree s1 s2 → failed_obj s1 = failed_obj s2 →
  sim_agree (route info ifc rtc pop fuel s1).1 (route info ifc rtc pop fuel s2).1 ∨
  (route info ifc rtc pop fuel s1).2 ≠ Ret ().
Proof.
  intros (Ha&Ht) Hf. unfold route. rewrite Hf.
  destruct (rtc (failed_obj s2)) as [rt|e|]; simpl; [|by right..].
  left. unfold path_finder. simpl.
  rewrite (same_demands_dom _ _ Ht). apply path_finder_loop_agree.
  split_and!; simpl; try done. by apply reset_traffic_agree.
Qed.

Lemma route_outcome fuel s1 s2 :
  pre_agree s1 s2 → failed_obj s1 = failed_obj s2 →
  (route info ifc rtc pop fuel s1).2 = (route info ifc rtc pop fuel s2).2.
Proof.
  intros (Ha&Ht) Hf. unfold route. rewrite Hf.
  destruct (rtc (failed_obj s2)) as [rt|e|]; simpl; [|done..].
  unfold path_finder. simpl.
  rewrite (same_demands_dom _ _ Ht). apply path_finder_loop_agree.
  split_and!; simpl; try done. by apply reset_traffic_agree.
Qed.

Lemma route_frame fuel s : sim_frame (route info ifc rtc pop fuel s).1 s.
Proof.
  unfold route. destruct (rtc (failed_obj s)) as [rt|e|]; simpl;
    try (split_and!; [apply agree_refl|done|done]).
  unfold path_finder.
  match goal with |- context [path_finder_loop _ _ _ _ ?k ?s0] =>
    destruct (path_finder_loop_frame fuel k s0) as [(H1&H2&H3) _] end.
  simpl in *. split_and!; [|done|done].
  eapply agree_trans; [apply H1|apply reset_traffic_frame].
Qed.

(** *** Recording the peaks *)

Lemma record_peak_no_wc f d x : no_wc (record_peak f d x) = no_wc x.
Proof. unfold record_peak. destruct (Qlt_le_dec _ _); [|done]. by destruct d. Qed.

Lemma record_peak_traffic f d d' x :
  traffic_dir d' (record_peak f d x) = traffic_dir d' x.
Proof.
  unfold record_peak. destruct (Qlt_le_dec _ _); [|done]. by destruct d, d'.
Qed.

Lemma record_peak_grows f d d' x :
  (wctraffic_dir d' x <= wctraffic_dir d' (record_peak f d x))%Q.
Proof.
  unfold record_peak. destruct (Qlt_le_dec _ _) as [Hlt|]; [|apply Qle_refl].
  destruct d, d'; simpl in *; try apply Qle_refl; by apply Qlt_le_weak.
Qed.

Lemma record_peak_covers f d x :
  (traffic_dir d x <= wctraffic_dir d (record_peak f d x))%Q.
Proof.
  unfold record_peak. destruct (Qlt_le_dec _ _) as [Hlt|]; [|done].
  destruct d; simpl; apply Qle_refl.
Qed.

Lemma record_peaks_link f nk l :
  link (record_peaks f nk) l =
    if decide (l ∈ dom (plinks nk))
    then record_peak f DS (record_peak f SD (link nk l)) else link nk l.
Proof.
  unfold record_peaks, all_plinks.
  destruct (decide (l ∈ dom (plinks nk))) as [Hl|Hl].
  - apply foldl_update_in.
    + apply NoDup_elements.
    + by apply elem_of_elements.
    + by apply elem_of_dom.
  - apply foldl_update_notin. by rewrite elem_of_elements.
Qed.

Lemma record_peaks_agree f nk : agree no_wc (record_peaks f nk) nk.
Proof.
  apply agree_foldl_self. intros x. by rewrite !record_peak_no_wc.
Qed.

Lemma record_peaks_grow f nk l d :
  (wctraffic_dir d (link nk l) <= wctraffic_dir d (link (record_peaks f nk) l))%Q.
Proof.
  rewrite record_peaks_link. destruct (decide _); [|apply Qle_refl].
  eapply Qle_trans; [|apply record_peak_grows]. apply record_peak_grows.
Qed.

Lemma record_peaks_cover f nk l d :
  (traffic_dir d (link nk l) <= wctraffic_dir d (link (record_peaks f nk) l))%Q.
Proof.
  rewrite record_peaks_link. destruct (decide _) as [Hl|Hl].
  - destruct d.
    + eapply Qle_trans; [apply (record_peak_covers f SD)|apply record_peak_grows].
    + rewrite <- (record_peak_traffic f SD DS). apply record_peak_covers.
  - rewrite link_missing by (by apply not_elem_of_dom). by destruct d.
Qed.

Lemma bare_of_no_wc x y : no_wc x = no_wc y → bare x = bare y.
Proof. unfold bare, no_wc, no_traffic. simpl. intros H. injection H. intros. congruence. Qed.

Lemma bare_of_no_traffic x y : no_traffic x = no_traffic y → bare x = bare y.
Proof. unfold bare. by intros ->. Qed.

Lemma agree_no_traffic_wc nk' nk l d :
  agree no_traffic nk' nk →
  wctraffic_dir d (link nk' l) = wctraffic_dir d (link nk l).
Proof.
  intros (_&_&_&H). destruct (no_traffic_fields _ _ (H l)) as (_&_&?&?).
  by destruct d.
Qed.

(** *** The loop over the failures *)

Lemma dimensioning_loop_peaks fuel s0 to_fail s s' :
  pre_agree s s0 →
  dimensioning_loop info ifc rtc pop fuel to_fail s = (s', Ret ()) →
  (∀ l d, (wctraffic_dir d (link (net s) l)
           <= wctraffic_dir d (link (net s') l))%Q) ∧
  ∀ f, f ∈ to_fail →
    (route info ifc rtc pop fuel
           (mkSim (net s0) (rts s0) {[f]} (traffics s0))).2 = Ret () ∧
    ∀ l d, (traffic_dir d
              (link (net (route info ifc rtc pop fuel
                            (mkSim (net s0) (rts s0) {[f]} (traffics s0))).1) l)
            <= wctraffic_dir d (link (net s') l))%Q.
Proof.
  revert s. induction to_fail as [|f rest IH]; intros s Hpre Hrun; simpl in Hrun.
  { injection Hrun as <-. split; [intros; apply Qle_refl|].
    intros f Hf. by apply elem_of_nil in Hf. }
  set (s1 := mkSim (net s) (rts s) {[f]} (traffics s)) in *.
  set (s0f := mkSim (net s0) (rts s0) {[f]} (traffics s0)).
  assert (pre_agree s1 s0f) as Hpre1 by (destruct Hpre; by split).
  pose proof (route_outcome fuel s1 s0f Hpre1 eq_refl) as Hout.
  pose proof (route_agree fuel s1 s0f Hpre1 eq_refl) as Hagree.
  pose proof (route_frame fuel s1) as (Hfr&_&Hdem).
  destruct (route info ifc rtc pop fuel s1) as [s2 o] eqn:Hroute.
  simpl in *. destruct o as [[]| |]; [|done..].
  destruct Hagree as [(Hnet&_)|]; [|done].
  set (s3 := mkSim (record_peaks f (net s2)) (rts s2) (failed_obj s2)
                   (traffics s2)) in *.
  assert (pre_agree s3 s0) as Hpre3.
  { destruct Hpre as [Hb Hd]. split; simpl.
    - eapply agree_trans; [|apply Hb].
      eapply agree_trans.
      + eapply agree_weaken; [apply bare_of_no_wc|apply record_peaks_agree].
      + eapply agree_weaken; [apply bare_of_no_traffic|apply Hfr].
    - eapply same_demands_trans; [apply Hdem|apply Hd]. }
  destruct (IH s3 Hpre3 Hrun) as [Hgrow Hrest].
  assert (∀ l d, (wctraffic_dir d (link (record_peaks f (net s2)) l)
                  <= wctraffic_dir d (link (net s') l))%Q) as Hgrow3
    by apply Hgrow.
  split.
  - intros l d. eapply Qle_trans; [|apply Hgrow3].
    rewrite <- (agree_no_traffic_wc _ _ l d Hfr). apply record_peaks_grow.
  - intros f' Hf'. apply elem_of_cons in Hf' as [->|Hf']; [|by apply Hrest].
    fold s0f. split; [done|]. intros l d.
    eapply Qle_trans; [|apply Hgrow3].
    destruct Hnet as (_&_&_&Hl).
    rewrite <- (no_wc_traffic_dir d _ _ (Hl l)). apply record_peaks_cover.
Qed.

(** C9: when [plink_dimensioning] returns, the set of failed objects is
    empty, no recorded peak has decreased, and on every link and in both
    directions the recorded peak is at least the traffic that the forwarding
    simulation puts there when any one link of the network has failed. *)
Theorem plink_dimensioning_peaks fuel s s' :
  plink_dimensioning info ifc rtc pop fuel s = (s', Ret ()) →
  failed_obj s' = ∅ ∧
  (∀ l d, (wctraffic_dir d (link (net s) l)
           <= wctraffic_dir d (link (net s') l))%Q) ∧
  ∀ f, f ∈ all_plinks (net s) →
    (route info ifc rtc pop fuel
           (mkSim (net s) (rts s) {[f]} (traffics s))).2 = Ret () ∧
    ∀ l d, (traffic_dir d
              (link (net (route info ifc rtc pop fuel
                            (mkSim (net s) (rts s) {[f]} (traffics s))).1) l)
            <= wctraffic_dir d (link (net s') l))%Q.
Proof.
  unfold plink_dimensioning. intros Hrun.
  destruct (dimensioning_loop info ifc rtc pop fuel (all_plinks (net s)) s)
    as [s1 o] eqn:Hloop.
  destruct o as [[]| |]; [|done..]. injection Hrun as <-. simpl.
  split; [done|].
  apply (dimensioning_loop_peaks fuel s (all_plinks (net s)) s s1); [|done].
  split; [apply agree_refl|done].
Qed.

End WalkProps.


(** On the fork with the demand of throughput 10 from router 1 to router 2:
    without failure each link carries 5; when link 2 has failed the whole
    demand crosses link 1, when link 1 has failed it crosses link 2, and
    [plink_dimensioning] records a peak of 10 on both. *)
Lemma plink_dimensioning_peaks_witness :
  let s' := (plink_dimensioning fork_info fork_ifc fork_rtc
                                (pop_min Paths.a_dist) 10 fork_sim).1 in
  let under f := (route fork_info fork_ifc fork_rtc (pop_min Paths.a_dist) 10
                        (mkSim (net fork_sim) (rts fork_sim) {[f]}
                               (traffics fork_sim))).1 in
  (trafficSD (link (net (under 2)) 1) = 10%Q ∧
   trafficSD (link (net (under 1)) 2) = 10%Q ∧
   wctrafficSD (link (net s') 1) = 10%Q ∧
   wctrafficSD (link (net s') 2) = 10%Q) ∧
  failed_obj s' = ∅ ∧
  (∀ l d, (wctraffic_dir d (link (net fork_sim) l)
           <= wctraffic_dir d (link (net s') l))%Q) ∧
  ∀ f, f ∈ all_plinks (net fork_sim) →
    (route fork_info fork_ifc fork_rtc (pop_min Paths.a_dist) 10
           (mkSim (net fork_sim) (rts fork_sim) {[f]} (traffics fork_sim))).2
      = Ret () ∧
    ∀ l d, (traffic_dir d
              (link (net (route fork_info fork_ifc fork_rtc
                            (pop_min Paths.a_dist) 10
                            (mkSim (net fork_sim) (rts fork_sim) {[f]}
                                   (traffics fork_sim))).1) l)
            <= wctraffic_dir d (link (net s') l))%Q.
Proof.
  split; [split_and!; vm_compute; reflexivity|].
  apply (plink_dimensioning_peaks fork_info fork_ifc fork_rtc
           (pop_min Paths.a_dist) 10 fork_sim).
  vm_compute. reflexivity.
Defined.

(** On the chain 1 - 2 - 3 with one demand of throughput 10 from router 1
    to router 3, the simulation without failure puts 10 on link 1, while
    under each single failure router 1 has no route and nothing is loaded:
    [plink_dimensioning] returns with a peak of 0 on link 1. *)
Lemma plink_dimensioning_peak_below_baseline :
  let base := route chain_info fork_ifc chain_rtc (pop_min Paths.a_dist) 10
                    chain_sim in
  let r := plink_dimensioning chain_info fork_ifc chain_rtc
                              (pop_min Paths.a_dist) 10 chain_sim in
  failed_obj chain_sim = ∅ ∧ base.2 = Ret () ∧ r.2 = Ret () ∧
  ¬ (traffic_dir SD (link (net base.1) 1)
     <= wctraffic_dir SD (link (net r.1) 1))%Q.
Proof.
  split_and!; [vm_compute; reflexivity..|].
  intros H. vm_compute in H. by apply H.
Qed.

End ForwardingProps.

Module FactoryProps.
Import Factory FactoryExamples.

Section FactoryProps.
Context (node_class : gmap string (gmap string Val → Obj)).
Context (link_class_with_vc : gmap string (gmap string Val → Obj)).
Context (subtype_to_type : gmap string string).

Lemma pool_lookup b t p : pn b !! t = Some p → pool b t = p.
Proof. unfold pool. by intros ->. Qed.

(** A call of [nf] that returns leaves the name of its node registered,
    with the node it returns in the pool. *)
Lemma nf_registers b subtype id kw name b1 r :
  kw !! "name" = Some name →
  nf node_class b subtype id kw = (b1, Ret r) →
  name_to_id b1 !! name = Some r ∧
  ∃ nodes node, pn b1 !! "node" = Some nodes ∧ nodes !! r = Some node.
Proof.
  intros Hname. unfold nf. rewrite Hname.
  destruct (name_to_id b !! name) as [i|] eqn:Hreg.
  - destruct (pn b !! "node") as [nodes|] eqn:Hp; [|done].
    destruct (nodes !! i) as [node|] eqn:Hi; [|done].
    intros [= <- <-]. simpl. split; [done|].
    eexists _, _. split; [apply lookup_insert_eq|apply lookup_insert_eq].
  - destruct (node_class !! subtype) as [cls|]; [|done].
    destruct (pn b !! "node") as [nodes|] eqn:Hp; [|done].
    intros [= <- <-]. simpl. split; [apply lookup_insert_eq|].
    eexists _, _. split; [apply lookup_insert_eq|apply lookup_insert_eq].
Qed.

(** A call of [nf] with a registered name whose node is in the pool. *)
Lemma nf_retrieves b subtype id kw name r nodes node :
  kw !! "name" = Some name →
  name_to_id b !! name = Some r →
  pn b !! "node" = Some nodes → nodes !! r = Some node →
  nf node_class b subtype id kw =
    (mkBase (<["node" := <[r := update_properties kw node]> nodes]> (pn b))
            (interfaces b) (graph_of b) (cpt_link b) (cpt_node b)
            (name_to_id b),
     Ret r).
Proof. intros Hname Hreg Hp Hr. unfold nf. by rewrite Hname, Hreg, Hp, Hr. Qed.

Lemma lf_registers b subtype lt name kw b1 r :
  subtype_to_type !! subtype = Some lt →
  lf link_class_with_vc subtype_to_type b subtype None name kw = (b1, Ret r) →
  is_Some (name_to_id b1 !! name) →
  ∃ i p l, r = (lt, i) ∧ name_to_id b1 !! name = Some i ∧
           pn b1 !! lt = Some p ∧ p !! i = Some l.
Proof.
  intros Hlt. unfold lf. rewrite Hlt.
  destruct (name_to_id b !! name) as [i|] eqn:Hreg.
  - destruct (pn b !! lt) as [p|] eqn:Hp; [|done].
    destruct (p !! i) as [l|] eqn:Hi; [|done].
    intros [= <- <-] _. simpl. eexists i, _, _.
    split_and!; [done|done|apply lookup_insert_eq|apply lookup_insert_eq].
  - destruct (kw !! "source") as [s|]; [|done].
    destruct (kw !! "destination") as [d|]; [|done].
    destruct (link_class_with_vc !! subtype) as [cls|]; [|done].
    destruct (pn b !! lt) as [p|] eqn:Hp; [|done].
    destruct (node_id s) as [sid| |]; [|done..].
    destruct (node_id d) as [did| |]; [|done..].
    set (name' := if val_truthy name then name
                  else VStr (subtype +:+ pretty (cpt_link b))).
    assert (∀ b' o, (let retrieve (b' : BaseNetwork) (id : nat) :=
                match pn b' !! lt with
                | None => (b', Raise KeyError)
                | Some p0 =>
                    match p0 !! id with
                    | None => (b', Raise KeyError)
                    | Some _ => (b', Ret (lt, id))
                    end
                end in retrieve b' (cpt_link b)) = (b1, Ret o) →
              b' = b1 ∧ o = (lt, cpt_link b)) as Hret.
    { intros b' o. simpl. destruct (pn b' !! lt) as [p0|]; [|done].
      destruct (p0 !! cpt_link b); [|done]. by intros [= <- <-]. }
    intros Hrun Hsome.
    assert (name_to_id b1 = <[name' := cpt_link b]> (name_to_id b) ∧
            pn b1 = <[lt := <[cpt_link b := cls (<["name" := name']>
                       (<["id" := VInt (Z.of_nat (cpt_link b))]> kw))]> p]> (pn b) ∧
            r = (lt, cpt_link b)) as (Hn&Hpn&->).
    { destruct (bool_decide (subtype = "ethernet link") ||
                bool_decide (subtype = "optical link")).
      - destruct (_ !! "interfaceS") as [iS|]; [|done].
        destruct (_ !! "interfaceD") as [iD|]; [|done].
        apply Hret in Hrun as [<- ->]. done.
      - apply Hret in Hrun as [<- ->]. done. }
    rewrite Hn in Hsome |- *. rewrite Hpn.
    destruct (decide (name' = name)) as [->|Hne].
    + eexists _, _, _.
      split_and!; [done|apply lookup_insert_eq|apply lookup_insert_eq
                  |apply lookup_insert_eq].
    + rewrite lookup_insert_ne, Hreg in Hsome by done. by destruct Hsome.
Qed.

Lemma lf_retrieves b subtype lt name kw i p l :
  subtype_to_type !! subtype = Some lt →
  name_to_id b !! name = Some i →
  pn b !! lt = Some p → p !! i = Some l →
  lf link_class_with_vc subtype_to_type b subtype None name kw =
    (mkBase (<[lt := <[i := update_properties kw l]> p]> (pn b))
            (interfaces b) (graph_of b) (cpt_link b) (cpt_node b)
            (name_to_id b),
     Ret (lt, i)).
Proof. intros Hlt Hreg Hp Hi. unfold lf. by rewrite Hlt, Hreg, Hp, Hi. Qed.

Lemma updated_in_place_intro b t i kw p o :
  pn b !! t = Some p → p !! i = Some o →
  updated_in_place b
    (mkBase (<[t := <[i := update_properties kw o]> p]> (pn b))
            (interfaces b) (graph_of b) (cpt_link b) (cpt_node b)
            (name_to_id b))
    t i kw.
Proof.
  intros Hp Hi. unfold updated_in_place, pool. simpl. split_and!; try done.
  - exists o. rewrite Hp, lookup_insert_eq. simpl.
    by rewrite lookup_insert_eq.
  - intros t'. destruct (decide (t = t')) as [<-|].
    + rewrite Hp, lookup_insert_eq. simpl. rewrite dom_insert_L.
      assert (i ∈ dom p) as Hin by (apply elem_of_dom; by eexists).
      apply set_eq. intros j. rewrite elem_of_union, elem_of_singleton.
      split; [intros [->|]; done|by right].
    + by rewrite lookup_insert_ne.
  - intros t' i' Hne. destruct (decide (t = t')) as [<-|].
    + rewrite Hp, lookup_insert_eq. simpl.
      rewrite lookup_insert_ne; [done|]. congruence.
    + by rewrite lookup_insert_ne.
Qed.

(** C5: a second call of [nf] (of [lf], for a subtype of the same link
    type and without an id) with a name that is registered returns the
    entity that the first call returned, updates its attributes from the
    new keyword arguments, and changes nothing else: the pools keep their
    keys and the counters their values. *)
Theorem factories_idempotent :
  (∀ b subtype1 id1 kw1 subtype2 id2 kw2 name b1 r,
     kw1 !! "name" = Some name → kw2 !! "name" = Some name →
     nf node_class b subtype1 id1 kw1 = (b1, Ret r) →
     ∃ b2, nf node_class b1 subtype2 id2 kw2 = (b2, Ret r) ∧
           updated_in_place b1 b2 "node" r kw2) ∧
  (∀ b subtype1 subtype2 lt name kw1 kw2 b1 r,
     subtype_to_type !! subtype1 = Some lt →
     subtype_to_type !! subtype2 = Some lt →
     lf link_class_with_vc subtype_to_type b subtype1 None name kw1 = (b1, Ret r) →
     is_Some (name_to_id b1 !! name) →
     ∃ b2, lf link_class_with_vc subtype_to_type b1 subtype2 None name kw2
             = (b2, Ret r) ∧
           updated_in_place b1 b2 r.1 r.2 kw2).
Proof.
  split.
  - intros b subtype1 id1 kw1 subtype2 id2 kw2 name b1 r Hn1 Hn2 Hrun.
    destruct (nf_registers b subtype1 id1 kw1 name b1 r Hn1 Hrun)
      as (Hreg&nodes&node&Hp&Hr).
    eexists. split.
    + by apply (nf_retrieves b1 subtype2 id2 kw2 name r nodes node).
    + by apply updated_in_place_intro.
  - intros b subtype1 subtype2 lt name kw1 kw2 b1 r Hlt1 Hlt2 Hrun Hsome.
    destruct (lf_registers b subtype1 lt name kw1 b1 r Hlt1 Hrun Hsome)
      as (i&p&l&->&Hreg&Hp&Hi).
    eexists. split.
    + by apply (lf_retrieves b1 subtype2 lt name kw2 i p l).
    + by apply updated_in_place_intro.
Qed.

End FactoryProps.

Lemma factories_idempotent_witness :
  (∃ b2, nf demo_classes
            (nf demo_classes demo_base "router" None (demo_names "r1")).1
            "router" None (<["x" := VInt 5]> (demo_names "r1")) = (b2, Ret 1%nat) ∧
         updated_in_place
           (nf demo_classes demo_base "router" None (demo_names "r1")).1 b2
           "node" 1 (<["x" := VInt 5]> (demo_names "r1"))) ∧
  (∃ b2, lf demo_classes demo_types
            (lf demo_classes demo_types demo_nodes "ethernet link" None
                (VStr "l1") demo_ends).1
            "optical link" None (VStr "l1") {[ "distance" := VInt 7 ]}
           = (b2, Ret ("plink", 1%nat)) ∧
         updated_in_place
           (lf demo_classes demo_types demo_nodes "ethernet link" None
               (VStr "l1") demo_ends).1 b2
           "plink" 1 {[ "distance" := VInt 7 ]}).
Proof.
  split.
  - apply (proj1 (factories_idempotent demo_classes demo_classes demo_types)
             demo_base "router" None (demo_names "r1") "router" None
             (<["x" := VInt 5]> (demo_names "r1")) (VStr "r1")).
    + vm_compute; reflexivity.
    + vm_compute; reflexivity.
    + vm_compute; reflexivity.
  - apply (proj2 (factories_idempotent demo_classes demo_classes demo_types)
             demo_nodes "ethernet link" "optical link" "plink" (VStr "l1")
             demo_ends {[ "distance" := VInt 7 ]} _ ("plink", 1%nat)).
    + vm_compute; reflexivity.
    + vm_compute; reflexivity.
    + vm_compute; reflexivity.
    + vm_compute. by eexists.
Defined.

(** Where a second call of [lf] with a registered name does not do so:
    after the ethernet link "l1" is made (a physical link, of id 1), a
    call with the same name and a subtype of another link type looks the
    id up in the pool of that type and raises [KeyError]; a call with the
    id returns the link and leaves its attributes as they are. *)
Lemma lf_registered_name_not_updated :
  name_to_id one_link !! VStr "l1" = Some 1 ∧
  lf demo_classes two_types one_link "l2vc" None (VStr "l1") ∅
    = (one_link, Raise KeyError) ∧
  lf demo_classes two_types one_link "ethernet link" (Some 1) (VStr "l1")
     {[ "distance" := VInt 7 ]}
    = (one_link, Ret ("plink", 1)) ∧
  (pool one_link "plink" !! 1) ≫= (.!! "distance") = None.
Proof. split_and!; vm_compute; reflexivity. Qed.

End FactoryProps.

Module LPProps.
Import LP Examples.

(** The formulation has a variable: some node has an adjacent link. *)
Definition has_link (nk : Network) : Prop :=
  ∃ n, n ∈ nodes nk ∧ adj nk n ≠ [].

Lemma dict_set_nonempty {A} k (v : A) d : dict_set k v d ≠ [].
Proof. destruct d as [|[k' v'] d]; simpl; [done|]. by destruct (decide (k = k')). Qed.

Lemma foldl_nonempty {A B} (step : list A → B → list A) (ls : list B) :
  (∀ d e, step d e ≠ []) → ls ≠ [] → foldl step [] ls ≠ [].
Proof.
  intros Hstep Hls. destruct ls as [|e ls _] using rev_ind; [done|].
  rewrite foldl_app. simpl. apply Hstep.
Qed.

Lemma variables_build_graph attr nk :
  has_link nk → variables (build_graph attr nk) ≠ [].
Proof.
  intros (n&Hn&Hadj). unfold build_graph.
  apply elem_of_remove_dups in Hn.
  induction (remove_dups (nodes nk)) as [|m ms IH]; [by apply elem_of_nil in Hn|].
  unfold variables in *. rewrite fmap_cons, bind_cons.
  apply elem_of_cons in Hn as [->|Hn].
  - intros Happ. apply app_eq_nil in Happ as [Happ _].
    apply fmap_nil_inv in Happ. revert Happ.
    apply foldl_nonempty; [|done].
    intros d [nb pl]. apply dict_set_nonempty.
  - intros Happ. apply app_eq_nil in Happ as [_ Happ]. by apply IH.
Qed.

Lemma decode_row_None cpt d : d ≠ [] → decode_row None cpt d = Raise TypeError.
Proof. by destruct d as [|[nb v] d]. Qed.

Lemma decode_None cpt g : variables g ≠ [] → decode None cpt g = Raise TypeError.
Proof.
  revert cpt. unfold variables.
  induction g as [|[n d] g IH]; intros cpt Hv; [done|].
  rewrite bind_cons in Hv. simpl.
  destruct d as [|[nb v] d]; simpl in *.
  - rewrite IH; done.
  - done.
Qed.

Lemma reset_flow_has_link nk : has_link nk → has_link (reset_flow nk).
Proof.
  intros (n&Hn&Hadj). exists n. unfold reset_flow, adj.
  destruct (foldl_update_graph
              (λ x, set_flowDS (Fin 0) (set_flowSD (Fin 0) x))
              (all_plinks nk) nk) as [-> ->].
  done.
Qed.




End LPProps.

Module FlowProps.
Import Flow Examples.

(** C4: from node 1 of [nk_back] the only link is taken against its
    orientation.  [edmonds_karp] and [dinic] report the maximum flow 5;
    [ford_fulkerson] computes the same flow on the link and then raises
    [AttributeError], because its sum reads the attribute [flow] where
    [edmonds_karp] reads [flowDS].  On [nk_flow], where every link of the
    source starts at the source, the three report 19. *)
Theorem ford_fulkerson_reads_attribute_flow :
  (ford_fulkerson 20 nk_back 1 2).2 = Raise AttributeError ∧
  flowDS (link (ford_fulkerson 20 nk_back 1 2).1 1) = Fin 5 ∧
  (edmonds_karp 20 nk_back 1 2).2 = Ret (Fin 5) ∧
  (dinic 20 nk_back 1 2).2 = Ret (Fin 5, Fin 5) ∧
  (ford_fulkerson 20 nk_flow 1 6).2 = Ret (Fin 19) ∧
  (edmonds_karp 20 nk_flow 1 6).2 = Ret (Fin 19) ∧
  (dinic 20 nk_flow 1 6).2 = Ret (Fin 9, Fin 19).
Proof. vm_compute. repeat split. Qed.

End FlowProps.

Module MSTProps.
Import MST Examples.

Section Connectivity.
Context (nk : Network).

Local Abbreviation ends l := (endpoints (link nk l)).

Lemma connected_by_mono (P Q : nat → Prop) x y :
  (∀ l, P l → Q l) → connected_by nk P x y → connected_by nk Q x y.
Proof.
  intros HPQ. unfold connected_by, rtsc. apply rtc_subrel.
  intros a b [(l&Hl&He)|(l&Hl&He)]; [left|right]; exists l; auto.
Qed.

Lemma connected_by_link (P : nat → Prop) l :
  P l → connected_by nk P (ends l).1 (ends l).2.
Proof.
  intros Hl. apply rtsc_lr. exists l. split; [done|]. by destruct (ends l).
Qed.

(** Connectivity after one more link, between [a] and [b]. *)
Lemma connected_by_add (P : nat → Prop) l0 a b x y :
  ends l0 = (a, b) →
  connected_by nk (λ l, P l ∨ l = l0) x y ↔
    connected_by nk P x y ∨
    (connected_by nk P x a ∧ connected_by nk P b y) ∨
    (connected_by nk P x b ∧ connected_by nk P a y).
Proof.
  intros He. split.
  - unfold connected_by at 1. unfold rtsc. intros H.
    induction H as [x|x x' y Hstep _ IH].
    { left. reflexivity. }
    assert (connected_by nk P x x' ∨ (x = a ∧ x' = b) ∨ (x = b ∧ x' = a)) as Hs.
    { destruct Hstep as [(l&[Hl| ->]&Hl')|(l&[Hl| ->]&Hl')].
      - left. apply rtsc_lr. by exists l.
      - right. left. rewrite He in Hl'. by injection Hl'.
      - left. apply rtsc_rl. by exists l.
      - right. right. rewrite He in Hl'. by injection Hl'. }
    destruct Hs as [Hc|[[-> ->]|[-> ->]]].
    + destruct IH as [IH|[[IH1 IH2]|[IH1 IH2]]].
      * left. by etrans.
      * right. left. split; [by etrans|done].
      * right. right. split; [by etrans|done].
    + destruct IH as [IH|[[IH1 IH2]|[IH1 IH2]]].
      * right. left. split; [reflexivity|done].
      * left. etrans; [symmetry; apply IH1|done].
      * left. done.
    + destruct IH as [IH|[[IH1 IH2]|[IH1 IH2]]].
      * right. right. split; [reflexivity|done].
      * left. done.
      * left. etrans; [symmetry; apply IH1|done].
  - assert (connected_by nk (λ l, P l ∨ l = l0) a b) as Hab.
    { apply rtsc_lr. exists l0. auto. }
    assert (∀ u v, connected_by nk P u v → connected_by nk (λ l, P l ∨ l = l0) u v)
      as Hm by (intros u v; apply connected_by_mono; auto).
    intros [H|[[H1 H2]|[H1 H2]]].
    + by apply Hm.
    + etrans; [apply Hm, H1|]. etrans; [apply Hab|]. by apply Hm.
    + etrans; [apply Hm, H1|]. etrans; [symmetry; apply Hab|]. by apply Hm.
Qed.

Lemma connected_snoc F l0 a b x y :
  ends l0 = (a, b) ∨ ends l0 = (b, a) →
  connected nk (F ++ [l0]) x y ↔
    connected nk F x y ∨
    (connected nk F x a ∧ connected nk F b y) ∨
    (connected nk F x b ∧ connected nk F a y).
Proof.
  intros He. unfold connected.
  assert (connected_by nk (.∈ F ++ [l0]) x y ↔
          connected_by nk (λ l, l ∈ F ∨ l = l0) x y) as ->.
  { split; apply connected_by_mono; intros l; rewrite elem_of_app, list_elem_of_singleton; done. }
  destruct He as [He|He].
  - by apply connected_by_add.
  - rewrite (connected_by_add _ l0 b a x y He). tauto.
Qed.

Lemma connected_nil x y : connected nk [] x y → x = y.
Proof.
  unfold connected, connected_by, rtsc. intros H.
  induction H as [|x x' y [(l&Hl&_)|(l&Hl&_)] _ _]; [done|..];
    by apply elem_of_nil in Hl.
Qed.

(** [uf] holds the components of the links of [F]. *)
Definition represents (uf : UnionFind) (F : list nat) : Prop :=
  ∀ x y, uf x = uf y ↔ connected nk F x y.

Lemma represents_init : represents uf_init [].
Proof.
  intros x y. unfold uf_init. split; [intros ->; reflexivity|apply connected_nil].
Qed.

Lemma uf_union_same uf u v x y :
  (uf_union uf u v).1 x = (uf_union uf u v).1 y ↔
    uf x = uf y ∨ (uf x = uf u ∧ uf y = uf v) ∨ (uf x = uf v ∧ uf y = uf u).
Proof.
  unfold uf_union. destruct (decide (uf u = uf v)) as [Huv|Huv]; simpl.
  - split; [by left|]. intros [H|[[H1 H2]|[H1 H2]]]; congruence.
  - destruct (decide (uf x = uf v)), (decide (uf y = uf v)); split;
      try (intros [H|[[H1 H2]|[H1 H2]]]); try intros H; try congruence;
      try (left; congruence); try (right; left; split; congruence);
      try (right; right; split; congruence).
Qed.

Lemma represents_union uf F l a b :
  ends l = (a, b) ∨ ends l = (b, a) →
  represents uf F → represents (uf_union uf a b).1 (F ++ [l]).
Proof.
  intros He Hr x y. rewrite uf_union_same, (connected_snoc F l a b x y He).
  pose proof (Hr x y). pose proof (Hr x a). pose proof (Hr y b).
  pose proof (Hr x b). pose proof (Hr y a).
  assert (connected nk F b y ↔ connected nk F y b) by (split; intros; by symmetry).
  assert (connected nk F a y ↔ connected nk F y a) by (split; intros; by symmetry).
  tauto.
Qed.

(** A link between two nodes of one component adds nothing. *)
Lemma connected_snoc_same F l a b x y :
  ends l = (a, b) ∨ ends l = (b, a) → connected nk F a b →
  connected nk (F ++ [l]) x y ↔ connected nk F x y.
Proof.
  intros He Hab. rewrite (connected_snoc F l a b x y He). split; [|by left].
  intros [H|[[H1 H2]|[H1 H2]]]; [done|..].
  - etrans; [apply H1|]. by etrans.
  - etrans; [apply H1|]. etrans; [symmetry; apply Hab|done].
Qed.

End Connectivity.

(** *** Counting components *)

(** The number of components of [uf] among the nodes of [V]. *)
Definition classes (uf : UnionFind) (V : gset node) : nat :=
  size (set_map uf V : gset node).

Lemma classes_init V : classes uf_init V = size V.
Proof.
  unfold classes. f_equal. apply set_eq. intros x.
  rewrite elem_of_map. unfold uf_init. naive_solver.
Qed.

(** A coarser partition has no more components. *)
Lemma classes_refine (uf1 uf2 : UnionFind) (V : gset node) :
  (∀ x y, x ∈ V → y ∈ V → uf1 x = uf1 y → uf2 x = uf2 y) →
  classes uf2 V ≤ classes uf1 V.
Proof.
  unfold classes. induction V as [|x X Hx IH] using set_ind_L; intros Href.
  { by rewrite !set_map_empty. }
  rewrite !set_map_union_L, !set_map_singleton_L.
  assert (size (set_map uf2 X : gset node) ≤ size (set_map uf1 X : gset node))
    as IH' by (apply IH; intros; apply Href; set_solver).
  destruct (decide (uf1 x ∈ (set_map uf1 X : gset node))) as [Hin|Hnin].
  - apply elem_of_map in Hin as (y&Hy&HyX).
    assert (uf2 x = uf2 y) as H2 by (apply Href; set_solver).
    assert (uf2 x ∈ (set_map uf2 X : gset node))
      by (apply elem_of_map; exists y; done).
    replace ({[uf2 x]} ∪ set_map uf2 X) with (set_map uf2 X : gset node) by set_solver.
    replace ({[uf1 x]} ∪ set_map uf1 X) with (set_map uf1 X : gset node).
    + done.
    + assert (uf1 x ∈ (set_map uf1 X : gset node))
        by (apply elem_of_map; exists y; done).
      set_solver.
  - rewrite (size_union {[uf1 x]}) by set_solver.
    rewrite size_union_alt, !size_singleton.
    assert (size ((set_map uf2 X : gset node) ∖ {[uf2 x]})
            ≤ size (set_map uf2 X : gset node))
      by (apply subseteq_size; set_solver).
    lia.
Qed.

(** Merging two components leaves one component fewer. *)
Lemma classes_merge (uf : UnionFind) (V : gset node) a b :
  a ∈ V → b ∈ V → uf a ≠ uf b →
  classes (uf_union uf a b).1 V + 1 = classes uf V.
Proof.
  intros Ha Hb Hab. unfold classes, uf_union.
  destruct (decide (uf a = uf b)); [done|]. simpl.
  assert ((set_map (λ x, if decide (uf x = uf b) then uf a else uf x) V : gset node)
          = (set_map uf V : gset node) ∖ {[uf b]}) as ->.
  { apply set_eq. intros z.
    rewrite elem_of_difference, !elem_of_map, elem_of_singleton. split.
    - intros (x&->&Hx). destruct (decide (uf x = uf b)).
      + split; [by exists a|done].
      + split; [by exists x|done].
    - intros [(x&->&Hx) Hz]. exists x.
      by destruct (decide (uf x = uf b)). }
  assert (({[uf b]} : gset node) ⊆ set_map uf V) as Hsub.
  { apply singleton_subseteq_l. apply elem_of_map. by exists b. }
  rewrite size_difference by done.
  apply subseteq_size in Hsub. rewrite size_singleton in Hsub |- *. lia.
Qed.

Lemma classes_same (uf : UnionFind) (V : gset node) a b :
  uf a = uf b → (uf_union uf a b).1 = uf.
Proof. intros H. unfold uf_union. by destruct (decide (uf a = uf b)). Qed.

(** *** Forests *)

Section Forests.
Context (nk : Network) (V : gset node).

Local Abbreviation ends l := (endpoints (link nk l)).

(** The components of a list of links, merged one link after the other. *)
Definition lab_of (F : list nat) : UnionFind :=
  foldl (λ uf l, (uf_union uf (ends l).1 (ends l).2).1) uf_init F.

(** The links of [F] join nodes of [V]. *)
Definition within (F : list nat) : Prop :=
  ∀ l, l ∈ F → (ends l).1 ∈ V ∧ (ends l).2 ∈ V.

(** A forest built link by link: each link joins two components. *)
Inductive sforest : list nat → Prop :=
  | sforest_nil : sforest []
  | sforest_snoc F l :
      sforest F → ¬ connected nk F (ends l).1 (ends l).2 → sforest (F ++ [l]).

Lemma lab_of_snoc F l :
  lab_of (F ++ [l]) = (uf_union (lab_of F) (ends l).1 (ends l).2).1.
Proof. unfold lab_of. by rewrite foldl_app. Qed.

Lemma lab_of_represents F : represents nk (lab_of F) F.
Proof.
  induction F as [|l F IH] using rev_ind; [apply represents_init|].
  rewrite lab_of_snoc. apply represents_union; [|done].
  left. by destruct (ends l).
Qed.

Lemma within_app F G : within (F ++ G) ↔ within F ∧ within G.
Proof.
  unfold within. split.
  - intros H. split; intros l Hl; apply H; set_solver.
  - intros [H1 H2] l Hl. apply elem_of_app in Hl as [Hl|Hl]; auto.
Qed.

Lemma classes_lab_of_ge F :
  within F → size V ≤ classes (lab_of F) V + length F.
Proof.
  induction F as [|l F IH] using rev_ind; intros Hw.
  { unfold lab_of. simpl. rewrite classes_init. lia. }
  apply within_app in Hw as [HwF Hwl].
  specialize (IH HwF). rewrite lab_of_snoc, length_app.
  change (length [l]) with 1.
  destruct (Hwl l) as [Ha Hb]; [set_solver|].
  destruct (decide (lab_of F (ends l).1 = lab_of F (ends l).2)) as [Heq|Hne].
  - rewrite (classes_same (lab_of F) V _ _ Heq). lia.
  - pose proof (classes_merge (lab_of F) V _ _ Ha Hb Hne). lia.
Qed.

Lemma classes_sforest F :
  within F → sforest F → classes (lab_of F) V + length F = size V.
Proof.
  intros Hw Hf. induction Hf as [|F l Hf IH Hnc].
  { unfold lab_of. simpl. rewrite classes_init. lia. }
  apply within_app in Hw as [HwF Hwl].
  specialize (IH HwF). rewrite lab_of_snoc, length_app.
  change (length [l]) with 1.
  destruct (Hwl l) as [Ha Hb]; [set_solver|].
  assert (lab_of F (ends l).1 ≠ lab_of F (ends l).2) as Hne.
  { intros Heq. apply Hnc. by apply lab_of_represents. }
  pose proof (classes_merge (lab_of F) V _ _ Ha Hb Hne). lia.
Qed.

Lemma acyclic_sub T F :
  acyclic nk T → NoDup F → (∀ l, l ∈ F → l ∈ T) → acyclic nk F.
Proof.
  intros [_ Hb] Hnd Hsub. split; [done|]. intros l Hl Hc.
  apply (Hb l (Hsub l Hl)). revert Hc. apply connected_by_mono.
  intros l' [? ?]. auto.
Qed.

Lemma acyclic_sforest F : acyclic nk F → sforest F.
Proof.
  induction F as [|l F IH] using rev_ind; intros Hac; [constructor|].
  pose proof Hac as [Hnd Hb].
  apply NoDup_app in Hnd as (HndF&Hdisj&_).
  constructor.
  - apply IH. apply (acyclic_sub (F ++ [l])); [done|done|set_solver].
  - intros Hc. apply (Hb l); [set_solver|]. revert Hc.
    apply connected_by_mono. intros l' Hl'. split; [set_solver|].
    intros ->. apply (Hdisj l Hl'). set_solver.
Qed.

Lemma sforest_NoDup F : sforest F → NoDup F.
Proof.
  induction 1 as [|F l Hf IH Hnc]; [constructor|].
  apply NoDup_app. split_and!; [done| |apply NoDup_singleton].
  intros l' Hl' Hin. apply list_elem_of_singleton in Hin as ->.
  apply Hnc. by apply connected_by_link.
Qed.

Lemma length_filter_ne (l : nat) (F : list nat) :
  l ∈ F → length (filter (λ l', l' ≠ l) F) < length F.
Proof.
  induction F as [|x F IH]; intros Hl; [by apply elem_of_nil in Hl|].
  rewrite filter_cons. destruct (decide (x ≠ l)) as [Hne|Heq]; simpl.
  - apply elem_of_cons in Hl as [->|Hl]; [done|]. specialize (IH Hl). lia.
  - pose proof (length_filter (λ l', l' ≠ l) F). lia.
Qed.

Lemma sforest_acyclic F : within F → sforest F → acyclic nk F.
Proof.
  intros Hw Hf. split; [by apply sforest_NoDup|]. intros l Hl Hc.
  set (F' := filter (λ l', l' ≠ l) F).
  assert (∀ x y, connected nk F' x y ↔
                 connected_by nk (λ l', l' ∈ F ∧ l' ≠ l) x y) as HF'.
  { intros x y. split; apply connected_by_mono; intros l';
      unfold F'; rewrite list_elem_of_filter; tauto. }
  assert (∀ x y, connected nk F x y → connected nk F' x y) as Hsame.
  { intros x y Hxy. apply HF'.
    assert (connected_by nk (λ l', (l' ∈ F ∧ l' ≠ l) ∨ l' = l) x y) as Hxy'.
    { revert Hxy. apply connected_by_mono. intros l' Hl'.
      destruct (decide (l' = l)); auto. }
    apply (connected_by_add nk _ l (ends l).1 (ends l).2) in Hxy';
      [|by destruct (ends l)].
    destruct Hxy' as [H|[[H1 H2]|[H1 H2]]]; [done|..].
    - etrans; [apply H1|]. by etrans.
    - etrans; [apply H1|]. etrans; [symmetry; apply Hc|done]. }
  assert (within F') as Hw'.
  { intros l' Hl'. apply Hw. unfold F' in Hl'.
    by apply list_elem_of_filter in Hl' as [_ ?]. }
  pose proof (classes_lab_of_ge F' Hw') as Hge.
  pose proof (classes_sforest F Hw Hf) as Heq.
  assert (classes (lab_of F') V ≤ classes (lab_of F) V) as Hle.
  { apply classes_refine. intros x y _ _ Hxy.
    apply lab_of_represents, Hsame. by apply lab_of_represents. }
  pose proof (length_filter_ne l F Hl). fold F' in H. lia.
Qed.

End Forests.

(** *** The scan of Kruskal *)

Section Scan.
Context (nk : Network) (allowed_nodes : list node).

Local Abbreviation ends l := (endpoints (link nk l)).
Local Abbreviation V := (list_to_set allowed_nodes : gset node).

(** An entry of [edges]: a link between two allowed nodes, with its cost. *)
Definition edge_ok (e : Edge) : Prop :=
  (ends (e_link e) = (e_node e, e_neighbor e) ∨
   ends (e_link e) = (e_neighbor e, e_node e)) ∧
  e_node e ∈ allowed_nodes ∧ e_neighbor e ∈ allowed_nodes ∧
  e_cost e = costSD (link nk (e_link e)) ∧
  (e_neighbor e, e_link e) ∈ adj nk (e_node e).

Lemma kruskal_scan_app uf P R :
  kruskal_scan uf (P ++ R) =
  kruskal_scan uf P ++ kruskal_scan (scan_uf uf P) R.
Proof.
  revert uf. induction P as [|e P IH]; intros uf; simpl; [done|].
  unfold uf_union.
  destruct (decide (uf (e_node e) = uf (e_neighbor e))); simpl;
    by rewrite IH.
Qed.

Lemma scan_uf_app uf P R : scan_uf uf (P ++ R) = scan_uf (scan_uf uf P) R.
Proof. revert uf. induction P as [|e P IH]; intros uf; simpl; [done|apply IH]. Qed.

(** The step of the scan: a link is yielded when, and only when, its two
    nodes have different representatives. *)
Lemma kruskal_scan_snoc P e :
  kruskal_scan uf_init (P ++ [e]) =
    kruskal_scan uf_init P ++
    (if decide (scan_uf uf_init P (e_node e) = scan_uf uf_init P (e_neighbor e))
     then [] else [e_link e]).
Proof.
  rewrite kruskal_scan_app. f_equal. simpl. unfold uf_union.
  by destruct (decide (_ = _)).
Qed.

Lemma edge_ok_within e :
  edge_ok e → (ends (e_link e)).1 ∈ V ∧ (ends (e_link e)).2 ∈ V.
Proof.
  intros ([-> | ->]&Hu&Hv&_); simpl; split; by apply elem_of_list_to_set.
Qed.

(** What holds after the scan of a prefix [P] of the edges: the structure
    holds the components of the links yielded, which form a forest and
    connect what the links scanned connect. *)
Lemma scan_invariant P :
  Forall edge_ok P →
  represents nk (scan_uf uf_init P) (kruskal_scan uf_init P) ∧
  sforest nk (kruskal_scan uf_init P) ∧
  within nk V (kruskal_scan uf_init P) ∧
  (∀ l, l ∈ kruskal_scan uf_init P → l ∈ e_link <$> P) ∧
  (∀ x y, connected nk (kruskal_scan uf_init P) x y ↔
          connected nk (e_link <$> P) x y).
Proof.
  induction P as [|e P IH] using rev_ind; intros Hok.
  { simpl. split_and!; [apply represents_init|constructor| | |done].
    - intros l Hl. by apply elem_of_nil in Hl.
    - intros l Hl. by apply elem_of_nil in Hl. }
  apply Forall_app in Hok. destruct Hok as [HokP Hoke].
  apply Forall_inv in Hoke.
  destruct (IH HokP) as (Hrep&Hsf&Hw&Hsub&Hconn).
  pose proof Hoke as Hoke'. unfold edge_ok in Hoke'.
  destruct Hoke' as (Hends&Hu&Hv&_).
  rewrite kruskal_scan_snoc, scan_uf_app, fmap_app. simpl.
  set (K := kruskal_scan uf_init P) in *.
  set (U := scan_uf uf_init P) in *.
  destruct (decide (U (e_node e) = U (e_neighbor e))) as [Heq|Hne].
  - rewrite (classes_same U V _ _ Heq), app_nil_r.
    assert (connected nk (e_link <$> P) (e_node e) (e_neighbor e)) as Hab
      by (by apply Hconn, Hrep).
    split_and!; try done.
    + intros l Hl. apply elem_of_app. left. by apply Hsub.
    + intros x y. rewrite Hconn.
      symmetry.
      by apply (connected_snoc_same nk _ _ (e_node e) (e_neighbor e)).
  - split_and!.
    + by apply represents_union.
    + constructor; [done|]. intros Hc. apply Hne, Hrep.
      destruct Hends as [He|He]; rewrite He in Hc; simpl in Hc;
        [done|by symmetry].
    + apply within_app. split; [done|]. intros l Hl.
      apply list_elem_of_singleton in Hl as ->. by apply edge_ok_within.
    + intros l Hl. apply elem_of_app in Hl as [Hl|Hl].
      * apply elem_of_app. left. by apply Hsub.
      * apply elem_of_app. by right.
    + intros x y.
      rewrite (connected_snoc nk K _ _ _ x y Hends).
      rewrite (connected_snoc nk (e_link <$> P) _ _ _ x y Hends).
      rewrite !Hconn. done.
Qed.

End Scan.

(** *** The edges and their order *)

Lemma elem_of_kruskal_edges nk allowed_nodes e :
  e ∈ kruskal_edges nk allowed_nodes ↔
    e_node e ∈ allowed_nodes ∧ e_neighbor e ∈ allowed_nodes ∧
    (e_neighbor e, e_link e) ∈ adj nk (e_node e) ∧
    e_cost e = costSD (link nk (e_link e)).
Proof.
  unfold kruskal_edges. rewrite list_elem_of_bind. split.
  - intros (n&He&Hn). apply list_elem_of_omap in He as ([nb pl]&Hin&Hsome).
    unfold mem in Hsome. case_bool_decide as Hnb; [|done].
    injection Hsome as <-. simpl. done.
  - intros (Hn&Hnb&Hadj&Hc). exists (e_node e). split; [|done].
    apply list_elem_of_omap. exists (e_neighbor e, e_link e). split; [done|].
    unfold mem. rewrite bool_decide_eq_true_2 by done.
    destruct e; simpl in *. by subst.
Qed.

Lemma kruskal_edges_links nk allowed_nodes l :
  l ∈ e_link <$> kruskal_edges nk allowed_nodes ↔ induced nk allowed_nodes l.
Proof.
  rewrite list_elem_of_fmap. split.
  - intros (e&->&He). apply elem_of_kruskal_edges in He as (?&?&?&?).
    by exists (e_node e), (e_neighbor e).
  - intros (u&v&Hu&Hv&Hadj).
    exists (mkEdge (costSD (link nk l)) l u v). split; [done|].
    by apply elem_of_kruskal_edges.
Qed.

Lemma kruskal_edges_ok nk allowed_nodes :
  adjacency_of_links nk →
  Forall (edge_ok nk allowed_nodes) (kruskal_edges nk allowed_nodes).
Proof.
  intros Hwf. apply Forall_forall. intros e He.
  apply elem_of_kruskal_edges in He as (Hn&Hnb&Hadj&Hc).
  split_and!; try done. by apply Hwf.
Qed.

Lemma insert_by_cost_perm e l : insert_by_cost e l ≡ₚ e :: l.
Proof.
  induction l as [|e' l IH]; simpl; [done|].
  destruct (nlt (e_cost e') (e_cost e)); [|done].
  rewrite IH. apply Permutation_swap.
Qed.

Lemma sorted_by_cost_perm l : sorted_by_cost l ≡ₚ l.
Proof.
  induction l as [|e l IH]; simpl; [done|].
  rewrite insert_by_cost_perm. by constructor.
Qed.

(** The cost of an edge as an integer, where it is one. *)
Definition cz (e : Edge) : Z :=
  match e_cost e with Fin z => z | _ => 0%Z end.

Definition finite_edge (e : Edge) : Prop := ∃ z, e_cost e = Fin z.

Lemma insert_by_cost_sorted e l :
  finite_edge e → Forall finite_edge l →
  StronglySorted (λ a b, (cz a ≤ cz b)%Z) l →
  StronglySorted (λ a b, (cz a ≤ cz b)%Z) (insert_by_cost e l).
Proof.
  intros [z Hz] Hfin Hs. induction Hs as [|e' l Hs IH Hall]; simpl.
  { repeat constructor. }
  apply Forall_cons in Hfin as [[z' Hz'] Hfin].
  unfold nlt. rewrite Hz, Hz'. case_bool_decide as Hlt.
  - constructor; [by apply IH|].
    rewrite insert_by_cost_perm. constructor; [|done].
    unfold cz. rewrite Hz, Hz'. lia.
  - constructor; [by constructor|].
    constructor; [unfold cz; rewrite Hz, Hz'; lia|].
    eapply Forall_impl; [apply Hall|]. intros x Hx. simpl in Hx.
    unfold cz in *. rewrite Hz, Hz' in *. lia.
Qed.

Lemma sorted_by_cost_sorted l :
  Forall finite_edge l →
  StronglySorted (λ a b, (cz a ≤ cz b)%Z) (sorted_by_cost l).
Proof.
  induction l as [|e l IH]; intros Hfin; simpl; [constructor|].
  apply Forall_cons in Hfin as [He Hfin].
  apply insert_by_cost_sorted; [done| |by apply IH].
  by rewrite sorted_by_cost_perm.
Qed.

Lemma StronglySorted_on {A} (R R' : relation A) (Q : A → Prop) l :
  (∀ a b, Q a → Q b → R a b → R' a b) →
  Forall Q l → StronglySorted R l → StronglySorted R' l.
Proof.
  intros HR HQ Hs. induction Hs as [|a l Hs IH Hall]; [constructor|].
  apply Forall_cons in HQ as [Ha HQ]. constructor; [by apply IH|].
  rewrite Forall_forall in *. intros b Hb. apply HR; auto.
Qed.

Lemma nle_cz a b : finite_edge a → finite_edge b →
  nle (e_cost a) (e_cost b) ↔ (cz a ≤ cz b)%Z.
Proof.
  intros [x Hx] [y Hy]. unfold nle, nlt, cz. rewrite Hx, Hy.
  rewrite bool_decide_eq_false. lia.
Qed.

(** *** Least total cost *)

Section Optimal.
Context (nk : Network) (allowed_nodes : list node).

Local Abbreviation ends l := (endpoints (link nk l)).
Local Abbreviation V := (list_to_set allowed_nodes : gset node).

(** The forward cost of a link as an integer, and the sum over a list. *)
Definition lc (l : nat) : Z :=
  match costSD (link nk l) with Fin z => z | _ => 0%Z end.

Definition zsum (F : list nat) : Z := foldr (λ l acc, (lc l + acc)%Z) 0%Z F.

Lemma zsum_app F G : zsum (F ++ G) = (zsum F + zsum G)%Z.
Proof. induction F as [|l F IH]; simpl; [done|]. rewrite IH. lia. Qed.

Lemma nsum_finite (a : Z) (F : list nat) :
  (∀ l, l ∈ F → ∃ z, costSD (link nk l) = Fin z) →
  foldl nadd (Fin a) ((λ l, costSD (link nk l)) <$> F) = Fin (a + zsum F).
Proof.
  revert a. induction F as [|l F IH]; intros a Hfin; simpl.
  { f_equal. lia. }
  destruct (Hfin l) as [z Hz]; [set_solver|].
  unfold lc at 1. rewrite Hz. simpl. rewrite IH by (intros; apply Hfin; set_solver).
  f_equal. lia.
Qed.

Lemma total_cost_finite (F : list nat) :
  (∀ l, l ∈ F → ∃ z, costSD (link nk l) = Fin z) →
  total_cost nk F = Fin (zsum F).
Proof. intros Hfin. unfold total_cost, nsum. by rewrite nsum_finite. Qed.

Lemma induced_within F :
  adjacency_of_links nk →
  (∀ l, l ∈ F → induced nk allowed_nodes l) → within nk V F.
Proof.
  intros Hwf Hind l Hl. destruct (Hind l Hl) as (u&v&Hu&Hv&Hadj).
  destruct (Hwf u v l Hadj) as [He|He]; rewrite He; simpl;
    split; by apply elem_of_list_to_set.
Qed.

(** The links of [T] among those of the edges scanned. *)
Definition seen (P : list Edge) (T : list nat) : list nat :=
  filter (λ l, l ∈ e_link <$> P) T.

Lemma seen_nil T : seen [] T = [].
Proof.
  unfold seen. induction T as [|l T IH]; [done|].
  rewrite filter_cons. destruct (decide (l ∈ e_link <$> [])) as [Hl|_]; [|done].
  by apply elem_of_nil in Hl.
Qed.

Lemma filter_one_more (A T : list nat) (a : nat) :
  NoDup T → a ∉ A →
  length (filter (λ l, l ∈ A ++ [a]) T) =
    length (filter (λ l, l ∈ A) T) + (if decide (a ∈ T) then 1 else 0) ∧
  zsum (filter (λ l, l ∈ A ++ [a]) T) =
    (zsum (filter (λ l, l ∈ A) T) + (if decide (a ∈ T) then lc a else 0))%Z.
Proof.
  intros Hnd Ha. induction T as [|x T IH].
  { done. }
  apply NoDup_cons in Hnd as [Hx Hnd]. destruct (IH Hnd) as [IHl IHz].
  rewrite !filter_cons.
  destruct (decide (x ∈ A)) as [HxA|HxA].
  - assert (x ≠ a) as Hne by (by intros ->).
    destruct (decide (x ∈ A ++ [a])) as [_|Hn]; [|set_solver].
    simpl. rewrite IHl, IHz.
    destruct (decide (a ∈ T)), (decide (a ∈ x :: T)); try set_solver; lia.
  - destruct (decide (x = a)) as [->|Hne].
    + destruct (decide (a ∈ A ++ [a])) as [_|Hn]; [|set_solver].
      simpl. rewrite IHl, IHz.
      destruct (decide (a ∈ T)); [done|].
      destruct (decide (a ∈ a :: T)); [|set_solver]. lia.
    + destruct (decide (x ∈ A ++ [a])) as [Hn|_]; [set_solver|].
      rewrite IHl, IHz.
      destruct (decide (a ∈ T)), (decide (a ∈ x :: T)); try set_solver; lia.
Qed.

Lemma seen_snoc P e T :
  NoDup T →
  ∃ d : nat, d ≤ 1 ∧
    length (seen (P ++ [e]) T) = length (seen P T) + d ∧
    zsum (seen (P ++ [e]) T) = (zsum (seen P T) + Z.of_nat d * lc (e_link e))%Z.
Proof.
  intros Hnd. unfold seen. rewrite fmap_app. simpl.
  destruct (decide (e_link e ∈ e_link <$> P)) as [Hin|Hnin].
  - exists 0. split; [lia|].
    rewrite (list_filter_iff (λ l, l ∈ (e_link <$> P) ++ [e_link e])
                             (λ l, l ∈ e_link <$> P)) by set_solver.
    split; lia.
  - destruct (filter_one_more (e_link <$> P) T (e_link e) Hnd Hnin) as [Hl Hz].
    destruct (decide (e_link e ∈ T)).
    + exists 1. split; [lia|]. rewrite Hl, Hz. split; lia.
    + exists 0. split; [lia|]. rewrite Hl, Hz. split; lia.
Qed.

(** The links accepted are at least as many as the links of a forest among
    the edges scanned. *)
Lemma seen_dominated P T :
  Forall (edge_ok nk allowed_nodes) P → acyclic nk T → within nk V T →
  length (seen P T) ≤ length (kruskal_scan uf_init P).
Proof.
  intros Hok Hac HwT.
  destruct (scan_invariant nk allowed_nodes P Hok) as (_&Hsf&Hw&_&Hconn).
  set (K := kruskal_scan uf_init P) in *. set (F := seen P T).
  assert (acyclic nk F) as HacF.
  { apply (acyclic_sub nk T); [done|apply NoDup_filter, Hac|].
    intros l Hl. unfold F, seen in Hl. by apply list_elem_of_filter in Hl as [_ ?]. }
  assert (within nk V F) as HwF.
  { intros l Hl. apply HwT. unfold F, seen in Hl.
    by apply list_elem_of_filter in Hl as [_ ?]. }
  pose proof (classes_sforest nk V F HwF (acyclic_sforest nk F HacF)) as HF.
  pose proof (classes_sforest nk V K Hw Hsf) as HK.
  assert (classes (lab_of nk K) V ≤ classes (lab_of nk F) V) as Hle.
  { apply classes_refine. intros x y _ _ Hxy.
    apply lab_of_represents, Hconn. apply lab_of_represents in Hxy.
    revert Hxy. apply connected_by_mono. intros l Hl.
    unfold F, seen in Hl. by apply list_elem_of_filter in Hl as [? _]. }
  lia.
Qed.

(** The cost accepted so far exceeds the cost of the links of [T] scanned
    by no more than the links in excess, each at the greatest cost scanned. *)
Lemma scan_cost P T :
  StronglySorted (λ a b, (cz a ≤ cz b)%Z) P →
  Forall (edge_ok nk allowed_nodes) P → acyclic nk T → within nk V T →
  ∀ c, (∀ e, e ∈ P → (cz e ≤ c)%Z) →
  (zsum (kruskal_scan uf_init P) - zsum (seen P T) ≤
   (Z.of_nat (length (kruskal_scan uf_init P)) - Z.of_nat (length (seen P T))) * c)%Z.
Proof.
  intros Hs Hok Hac HwT. induction P as [|e P IH] using rev_ind; intros c Hc.
  { rewrite seen_nil. simpl. lia. }
  pose proof (seen_dominated (P ++ [e]) T Hok Hac HwT) as Hdom.
  apply StronglySorted_app in Hs as (Hle&HsP&_).
  apply Forall_app in Hok. destruct Hok as [HokP Hoke].
  apply Forall_inv in Hoke.
  assert (lc (e_link e) = cz e) as Hcost.
  { unfold lc, cz. destruct Hoke as (_&_&_&->&_). done. }
  specialize (IH HsP HokP (cz e)).
  assert (zsum (kruskal_scan uf_init P) - zsum (seen P T) ≤
          (Z.of_nat (length (kruskal_scan uf_init P)) -
           Z.of_nat (length (seen P T))) * cz e)%Z as IH'.
  { apply IH. intros e' He'. apply Hle; [done|set_solver]. }
  destruct (seen_snoc P e T) as (d&Hd&Hlen&Hz); [apply Hac|].
  assert (cz e ≤ c)%Z as Hce by (apply Hc; set_solver).
  revert Hdom. rewrite kruskal_scan_snoc, Hlen, Hz, Hcost.
  destruct (decide (_ = _)).
  - rewrite app_nil_r. intros Hdom. nia.
  - rewrite zsum_app, length_app. simpl. rewrite Hcost. intros Hdom. nia.
Qed.

End Optimal.

Lemma filter_all {A} (Q : A → Prop) `{∀ x, Decision (Q x)} (l : list A) :
  (∀ x, x ∈ l → Q x) → filter Q l = l.
Proof.
  induction l as [|x l IH]; intros HQ; [done|].
  rewrite filter_cons. destruct (decide (Q x)) as [_|Hn].
  - f_equal. apply IH. intros; apply HQ; set_solver.
  - destruct Hn. apply HQ. set_solver.
Qed.

Lemma cz_bounded (l : list Edge) : ∃ c, ∀ e, e ∈ l → (cz e ≤ c)%Z.
Proof.
  induction l as [|e l [c Hc]]; [exists 0%Z; intros e He; by apply elem_of_nil in He|].
  exists (Z.max (cz e) c). intros e' He'. apply elem_of_cons in He' as [->|He'].
  - lia.
  - specialize (Hc e' He'). lia.
Qed.

(** Checks of the hypotheses on a given network. *)
Lemma adjacency_of_links_checked nk :
  map_Forall (λ u es,
      Forall (λ p : node * nat,
                endpoints (link nk p.2) = (u, p.1) ∨
                endpoints (link nk p.2) = (p.1, u)) es) (graph nk) →
  adjacency_of_links nk.
Proof.
  intros Hall u v l Hin. unfold adj in Hin.
  destruct (graph nk !! u) as [es|] eqn:Hes; simpl in Hin;
    [|by apply elem_of_nil in Hin].
  specialize (Hall u es Hes). rewrite Forall_forall in Hall.
  apply (Hall (v, l) Hin).
Qed.

Lemma finite_costs_checked nk allowed_nodes :
  Forall (λ u, Forall (λ p : node * nat,
                         ∃ z, costSD (link nk p.2) = Fin z) (adj nk u))
         allowed_nodes →
  finite_costs nk allowed_nodes.
Proof.
  intros Hall l (u&v&Hu&_&Hadj). rewrite Forall_forall in Hall.
  specialize (Hall u Hu). rewrite Forall_forall in Hall.
  apply (Hall (v, l) Hadj).
Qed.

(** C6.  For a node subset whose induced subgraph of physical links is
    connected (in a graph whose adjacency entries are links between the two
    nodes, with numbers for costs), the links yielded by
    [kruskal(allowed_nodes)] are links of the subset, acyclic, span the
    subset, and their total forward cost is at most the total forward cost
    of every spanning tree of the subset.  The loop scans exactly the links
    with both endpoints in the subset, each with its forward cost, in
    ascending order of that cost, and yields a link when, and only when,
    [union] finds its two nodes in different components, which are the
    components of the links yielded before. *)
Theorem kruskal_minimum_spanning_tree nk allowed_nodes :
  adjacency_of_links nk →
  finite_costs nk allowed_nodes →
  (∀ u v, u ∈ allowed_nodes → v ∈ allowed_nodes →
          connected_by nk (induced nk allowed_nodes) u v) →
  let K := kruskal nk allowed_nodes in
  let S := sorted_by_cost (kruskal_edges nk allowed_nodes) in
  spanning_tree nk allowed_nodes K ∧
  (∀ T, spanning_tree nk allowed_nodes T →
        nle (total_cost nk K) (total_cost nk T)) ∧
  (∀ l, l ∈ e_link <$> S ↔ induced nk allowed_nodes l) ∧
  (∀ e, e ∈ S → e_cost e = costSD (link nk (e_link e))) ∧
  S ≡ₚ kruskal_edges nk allowed_nodes ∧
  StronglySorted (λ a b, nle (e_cost a) (e_cost b)) S ∧
  (∀ P e R, S = P ++ e :: R →
     let accepted := (uf_union (scan_uf uf_init P) (e_node e) (e_neighbor e)).2 in
     K = kruskal_scan uf_init P ++ (if accepted then [e_link e] else []) ++
         kruskal_scan (scan_uf uf_init (P ++ [e])) R ∧
     (accepted = true ↔
        scan_uf uf_init P (e_node e) ≠ scan_uf uf_init P (e_neighbor e)) ∧
     (accepted = true ↔
        ¬ connected nk (kruskal_scan uf_init P) (e_node e) (e_neighbor e))).
Proof.
  intros Hwf Hfin Hconn K S.
  assert (S ≡ₚ kruskal_edges nk allowed_nodes) as Hperm
    by apply sorted_by_cost_perm.
  assert (Forall (edge_ok nk allowed_nodes) S) as Hok.
  { unfold S. rewrite sorted_by_cost_perm. by apply kruskal_edges_ok. }
  assert (∀ l, l ∈ e_link <$> S ↔ induced nk allowed_nodes l) as Hlinks.
  { intros l. unfold S. rewrite sorted_by_cost_perm. apply kruskal_edges_links. }
  assert (Forall finite_edge (kruskal_edges nk allowed_nodes)) as HfinE.
  { apply Forall_forall. intros e He.
    assert (induced nk allowed_nodes (e_link e)) as Hind.
    { apply kruskal_edges_links, list_elem_of_fmap. by exists e. }
    apply elem_of_kruskal_edges in He as (_&_&_&Hc).
    destruct (Hfin _ Hind) as [z Hz]. exists z. by rewrite Hc. }
  assert (Forall finite_edge S) as HfinS.
  { unfold S. by rewrite sorted_by_cost_perm. }
  assert (StronglySorted (λ a b, (cz a ≤ cz b)%Z) S) as Hsorted
    by (by apply sorted_by_cost_sorted).
  destruct (scan_invariant nk allowed_nodes S Hok) as (Hrep&Hsf&Hw&Hsub&HconnK).
  change (kruskal_scan uf_init S) with K in Hrep, Hsf, Hw, Hsub, HconnK.
  assert (∀ l, l ∈ K → induced nk allowed_nodes l) as HindK.
  { intros l Hl. by apply Hlinks, Hsub. }
  assert (spans nk allowed_nodes K) as HspK.
  { intros u v Hu Hv. apply HconnK. specialize (Hconn u v Hu Hv).
    revert Hconn. apply connected_by_mono. intros l. apply Hlinks. }
  split_and!.
  - split_and!; [done| |done].
    by apply (sforest_acyclic nk (list_to_set allowed_nodes)).
  - intros T (HindT&HacT&HspT).
    pose proof (induced_within nk allowed_nodes T Hwf HindT) as HwT.
    destruct (cz_bounded S) as [c Hc].
    pose proof (scan_cost nk allowed_nodes S T Hsorted Hok HacT HwT c Hc) as Hcost.
    change (kruskal_scan uf_init S) with K in Hcost.
    assert (seen S T = T) as HseenT.
    { apply filter_all. intros l Hl. by apply Hlinks, HindT. }
    rewrite HseenT in Hcost.
    pose proof (classes_sforest nk _ K Hw Hsf) as HcK.
    pose proof (classes_sforest nk _ T HwT (acyclic_sforest nk T HacT)) as HcT.
    assert (classes (lab_of nk K) (list_to_set allowed_nodes) ≤
            classes (lab_of nk T) (list_to_set allowed_nodes)) as H1.
    { apply classes_refine. intros x y Hx Hy _.
      apply elem_of_list_to_set in Hx, Hy. by apply lab_of_represents, HspK. }
    assert (classes (lab_of nk T) (list_to_set allowed_nodes) ≤
            classes (lab_of nk K) (list_to_set allowed_nodes)) as H2.
    { apply classes_refine. intros x y Hx Hy _.
      apply elem_of_list_to_set in Hx, Hy. by apply lab_of_represents, HspT. }
    assert (length K = length T) as Hlen by lia.
    rewrite Hlen in Hcost.
    rewrite !(total_cost_finite nk).
    + unfold nle, nlt. rewrite bool_decide_eq_false. lia.
    + intros l Hl. by apply Hfin, HindT.
    + intros l Hl. by apply Hfin, HindK.
  - done.
  - intros e He. rewrite Forall_forall in Hok.
    by destruct (Hok e He) as (_&_&_&?&_).
  - done.
  - eapply StronglySorted_on; [|exact HfinS|exact Hsorted].
    intros a b Ha Hb Hab. by apply nle_cz.
  - intros P e R HS accepted.
    assert (Forall (edge_ok nk allowed_nodes) P) as HokP.
    { rewrite HS in Hok. apply Forall_app in Hok. by destruct Hok. }
    destruct (scan_invariant nk allowed_nodes P HokP) as (HrepP&_).
    assert (accepted = true ↔
            scan_uf uf_init P (e_node e) ≠ scan_uf uf_init P (e_neighbor e))
      as Hacc.
    { unfold accepted, uf_union. by destruct (decide (_ = _)). }
    split_and!.
    + unfold K, kruskal. fold S. rewrite HS.
      rewrite (cons_middle e P R), app_assoc, kruskal_scan_app.
      rewrite kruskal_scan_snoc, <-app_assoc. do 2 f_equal.
      unfold accepted, uf_union. by destruct (decide (_ = _)).
    + done.
    + rewrite Hacc. by rewrite (HrepP (e_node e) (e_neighbor e)).
Qed.

Lemma square_adjacency : adjacency_of_links nk_square.
Proof.
  apply adjacency_of_links_checked.
  eapply (bool_decide_unpack _). vm_compute. exact I.
Qed.

Lemma square_finite_costs : finite_costs nk_square [1; 2; 3; 4].
Proof.
  apply finite_costs_checked.
  repeat (apply Forall_cons; split); try apply Forall_nil; vm_compute;
    by eexists.
Qed.

Lemma square_connected u v :
  u ∈ [1; 2; 3; 4] → v ∈ [1; 2; 3; 4] →
  connected_by nk_square (induced nk_square [1; 2; 3; 4]) u v.
Proof.
  assert (∀ l a b, (b, l) ∈ adj nk_square a →
                   a ∈ [1; 2; 3; 4] → b ∈ [1; 2; 3; 4] →
                   endpoints (link nk_square l) = (a, b) →
                   connected_by nk_square (induced nk_square [1; 2; 3; 4]) a b)
    as Hstep.
  { intros l a b Hadj Ha Hb He. apply rtsc_lr. exists l. split; [|done].
    by exists a, b. }
  assert (∀ w, w ∈ [1; 2; 3; 4] →
               connected_by nk_square (induced nk_square [1; 2; 3; 4]) 1 w)
    as Hone.
  { intros w Hw. set_unfold in Hw. destruct Hw as [->|[->|[->|[->|[]]]]].
    - reflexivity.
    - apply (Hstep 1); [vm_compute; set_solver|set_solver|set_solver|done].
    - apply (Hstep 3); [vm_compute; set_solver|set_solver|set_solver|done].
    - apply (Hstep 5); [vm_compute; set_solver|set_solver|set_solver|done]. }
  intros Hu Hv. etrans; [symmetry; by apply Hone|by apply Hone].
Qed.

Lemma kruskal_minimum_spanning_tree_witness :
  kruskal nk_square [1; 2; 3; 4] = [1; 3; 5] ∧
  spanning_tree nk_square [1; 2; 3; 4] (kruskal nk_square [1; 2; 3; 4]) ∧
  ∀ T, spanning_tree nk_square [1; 2; 3; 4] T →
       nle (total_cost nk_square (kruskal nk_square [1; 2; 3; 4]))
           (total_cost nk_square T).
Proof.
  split; [vm_compute; reflexivity|].
  pose proof (kruskal_minimum_spanning_tree nk_square [1; 2; 3; 4]
                square_adjacency square_finite_costs square_connected) as H.
  split; [exact (proj1 H)|exact (proj1 (proj2 H))].
Defined.

End MSTProps.

(** ** Floyd-Warshall and A* *)

Module ShortestProps.
Import Paths Examples.

(** *** Distances: numbers that are non-negative, or infinite *)

Definition nonneg (a : num) : Prop :=
  match a with Fin z => (0 ≤ z)%Z | PInf => True | _ => False end.

Ltac num_solve :=
  unfold nle, nmin, nlt, nadd, nonneg in *;
  repeat match goal with a : num |- _ => destruct a end;
  simpl in *; repeat case_bool_decide; simplify_eq;
  try done; try lia; try (f_equal; lia).

Lemma nle_refl a : nonneg a → nle a a.
Proof. intros. num_solve. Qed.

Lemma nle_trans a b c : nonneg b → nle a b → nle b c → nle a c.
Proof. intros. num_solve. Qed.

Lemma nadd_nonneg a b : nonneg a → nonneg b → nonneg (nadd a b).
Proof. intros. num_solve. Qed.

Lemma nmin_nonneg a b : nonneg a → nonneg b → nonneg (nmin a b).
Proof. intros. num_solve. Qed.

Lemma nmin_le_l a b : nonneg a → nonneg b → nle (nmin a b) a.
Proof. intros. num_solve. Qed.

Lemma nmin_le_r a b : nonneg a → nonneg b → nle (nmin a b) b.
Proof. intros. num_solve. Qed.

Lemma nmin_cases a b : nmin a b = a ∨ nmin a b = b.
Proof. unfold nmin. destruct (nlt b a); auto. Qed.

Lemma nadd_mono a a' b b' :
  nonneg a → nonneg a' → nonneg b → nonneg b' →
  nle a a' → nle b b' → nle (nadd a b) (nadd a' b').
Proof. intros. num_solve. Qed.

Lemma nadd_assoc a b c : nadd a (nadd b c) = nadd (nadd a b) c.
Proof. num_solve. Qed.

Lemma nadd_comm a b : nadd a b = nadd b a.
Proof. num_solve. Qed.

Lemma nadd_0_l a : nadd (Fin 0) a = a.
Proof. num_solve. Qed.

Lemma nadd_0_r a : nadd a (Fin 0) = a.
Proof. num_solve. Qed.

Lemma nle_nadd_l a b : nonneg a → nonneg b → nle b (nadd a b).
Proof. intros. num_solve. Qed.

Lemma nle_nadd_r a b : nonneg a → nonneg b → nle a (nadd a b).
Proof. intros. num_solve. Qed.

Lemma nadd_Fin_inv a b d :
  nadd a b = Fin d → ∃ x y, a = Fin x ∧ b = Fin y ∧ d = (x + y)%Z.
Proof. intros. num_solve. by eexists _, _. Qed.

Lemma nle_Fin a d : nonneg a → nle a (Fin d) → ∃ z, a = Fin z ∧ (z ≤ d)%Z.
Proof. intros. num_solve. eexists. split; [done|lia]. Qed.

Lemma nle_antisym a b : nonneg a → nonneg b → nle a b → nle b a → a = b.
Proof. intros. num_solve. Qed.

Lemma nsum_from a cs : foldl nadd a cs = nadd a (nsum cs).
Proof.
  revert a. induction cs as [|c cs IH]; intros a; simpl.
  { unfold nsum. simpl. by rewrite nadd_0_r. }
  change (nsum (c :: cs)) with (foldl nadd (nadd (Fin 0) c) cs).
  by rewrite !IH, nadd_0_l, nadd_assoc.
Qed.

Lemma nsum_cons c cs : nsum (c :: cs) = nadd c (nsum cs).
Proof.
  change (nsum (c :: cs)) with (foldl nadd (nadd (Fin 0) c) cs).
  by rewrite nsum_from, nadd_0_l.
Qed.

Lemma nsum_snoc cs c : nsum (cs ++ [c]) = nadd (nsum cs) c.
Proof. unfold nsum. by rewrite foldl_app. Qed.

(** *** The matrix of Floyd-Warshall *)

Lemma foldl_fmap' {A B C} (f : A → C → A) (g : B → C) a (l : list B) :
  foldl f a (g <$> l) = foldl (λ a x, f a (g x)) a l.
Proof. revert a. induction l as [|x l IH]; intros a; simpl; [done|apply IH]. Qed.

Lemma float_max_int_pos : (0 < float_max_int)%Z.
Proof. vm_compute. reflexivity. Qed.

(** The relaxation and the rounds of [floyd_warshall] with the exact sum:
    what [floyd_warshall_relax] and [floyd_warshall_rounds] return when no
    sum overflows. *)
Definition relax_exact (W : list (list num)) (k u v : nat)
  : list (list num) :=
  W_set W u v (nmin (W_at W u v) (nadd (W_at W u k) (W_at W k v))).

Definition rounds_exact (n : nat) (W : list (list num))
  : list (list num) :=
  foldl (λ W k,
           foldl (λ W u,
                    foldl (λ W v, relax_exact W k u v) W (seq 0 n))
                 W (seq 0 n))
        W (seq 0 n).

Section Matrix.
Context (n : nat).

Definition square (W : list (list num)) : Prop :=
  length W = n ∧ ∀ u, u < n → length (W !!! u) = n.

Lemma W_at_set W u v x i j :
  square W → u < n → v < n →
  W_at (W_set W u v x) i j =
    if decide (i = u ∧ j = v) then x else W_at W i j.
Proof.
  intros [Hl Hr] Hu Hv. unfold W_at, W_set.
  destruct (decide (i = u)) as [->|Hne].
  - rewrite list_lookup_total_insert_eq by lia.
    destruct (decide (j = v)) as [->|Hne'].
    + rewrite list_lookup_total_insert_eq by (rewrite Hr; lia).
      by rewrite decide_True.
    + rewrite list_lookup_total_insert_ne by done.
      rewrite decide_False; [done|]. by intros [_ ?].
  - rewrite list_lookup_total_insert_ne by done.
    rewrite decide_False; [done|]. by intros [? _].
Qed.

Lemma square_set W u v x : square W → square (W_set W u v x).
Proof.
  intros [Hl Hr]. unfold W_set. split; [by rewrite length_insert|].
  intros i Hi. destruct (decide (i = u)) as [->|Hne].
  - rewrite list_lookup_total_insert_eq by lia.
    rewrite length_insert. by apply Hr.
  - rewrite list_lookup_total_insert_ne by done. by apply Hr.
Qed.

Context (w0 : nat → nat → num).
Hypothesis Hw0 : ∀ i j, i < n → j < n → nonneg (w0 i j).

(** The cost of the direct steps from [i] through [mid] to [j]. *)
Fixpoint pcost (i : nat) (mid : list nat) (j : nat) : num :=
  match mid with
  | [] => w0 i j
  | m :: mid' => nadd (w0 i m) (pcost m mid' j)
  end.

Lemma pcost_nonneg i mid j :
  i < n → Forall (λ m, m < n) mid → j < n → nonneg (pcost i mid j).
Proof.
  intros Hi Hmid Hj. revert i Hi. induction Hmid as [|m mid Hm Hmid IH];
    intros i Hi; simpl; [by apply Hw0|].
  apply nadd_nonneg; [by apply Hw0|by apply IH].
Qed.

Lemma pcost_app i a k c j :
  pcost i (a ++ k :: c) j = nadd (pcost i a k) (pcost k c j).
Proof.
  revert i. induction a as [|m a IH]; intros i; simpl; [done|].
  by rewrite IH, nadd_assoc.
Qed.

Lemma pcost_snoc i a k j : pcost i (a ++ [k]) j = nadd (pcost i a k) (w0 k j).
Proof. apply pcost_app. Qed.

Lemma Forall_lt_weaken k (l : list nat) :
  Forall (λ m, m < k) l → k ≤ n → Forall (λ m, m < n) l.
Proof. intros H Hk. eapply Forall_impl; [done|]. simpl. lia. Qed.

(** A path through [k] costs no less than one that visits [k] once. *)
Lemma pcost_split i j k mid :
  i < n → j < n → k < n →
  Forall (λ m, m < S k) mid → k ∈ mid →
  ∃ a c, Forall (λ m, m < k) a ∧ Forall (λ m, m < k) c ∧
         nle (pcost i (a ++ k :: c) j) (pcost i mid j).
Proof.
  intros Hi Hj Hk Hmid Hin.
  assert (∀ l : list nat, Forall (λ m, m < S k) l → k ∉ l →
                          Forall (λ m, m < k) l) as Hlt.
  { intros l Hl Hnin. rewrite Forall_forall in *. intros m Hm.
    specialize (Hl m Hm). assert (m ≠ k) by (by intros ->). lia. }
  apply list_elem_of_split_l in Hin as (a&r&->&Ha).
  apply Forall_app in Hmid. destruct Hmid as [Hla Hlr].
  apply Forall_cons in Hlr as [_ Hlr].
  pose proof (Hlt a Hla Ha) as Ha'.
  destruct (decide (k ∈ r)) as [Hkr|Hkr].
  - apply list_elem_of_split_r in Hkr as (b&c&->&Hc).
    apply Forall_app in Hlr. destruct Hlr as [Hlb Hlc].
    apply Forall_cons in Hlc as [_ Hlc].
    pose proof (Hlt c Hlc Hc) as Hc'.
    exists a, c. split_and!; [done..|].
    rewrite !pcost_app.
    assert (Forall (λ m, m < n) a) by (apply (Forall_lt_weaken k); [done|lia]).
    assert (Forall (λ m, m < n) c) by (apply (Forall_lt_weaken k); [done|lia]).
    assert (Forall (λ m, m < n) b) by (apply (Forall_lt_weaken (S k)); [done|lia]).
    apply nadd_mono; try (by apply pcost_nonneg).
    + apply nadd_nonneg; by apply pcost_nonneg.
    + apply nle_refl. by apply pcost_nonneg.
    + apply nle_nadd_l; by apply pcost_nonneg.
  - exists a, r. split_and!; [done|by apply Hlt|].
    apply nle_refl. apply pcost_nonneg; [done| |done].
    apply Forall_app. split; [apply (Forall_lt_weaken k); [done|lia]|].
    constructor; [done|]. apply (Forall_lt_weaken (S k)); [done|lia].
Qed.

(** Every entry is infinite, or the cost of a path. *)
Definition sound (W : list (list num)) : Prop :=
  ∀ i j, i < n → j < n →
    W_at W i j = PInf ∨
    ∃ mid, Forall (λ m, m < n) mid ∧ W_at W i j = pcost i mid j.

(** No path through the first [k] nodes costs less than the entry. *)
Definition below (k : nat) (W : list (list num)) : Prop :=
  ∀ i j mid, i < n → j < n → Forall (λ m, m < k) mid →
    nle (W_at W i j) (pcost i mid j).

(** The same for the paths that visit [k] once, between [u] and [v]. *)
Definition via (k : nat) (W : list (list num)) (u v : nat) : Prop :=
  ∀ a c, Forall (λ m, m < k) a → Forall (λ m, m < k) c →
    nle (W_at W u v) (pcost u (a ++ k :: c) v).

Lemma sound_nonneg W i j : sound W → i < n → j < n → nonneg (W_at W i j).
Proof.
  intros Hs Hi Hj. destruct (Hs i j Hi Hj) as [->|(mid&Hmid&->)]; [done|].
  by apply pcost_nonneg.
Qed.

Section Relax.
Context (W : list (list num)) (k u v : nat).
Hypothesis (Hsq : square W) (Hs : sound W).
Hypothesis (Hk : k < n) (Hu : u < n) (Hv : v < n).

Lemma relax_square : square (relax_exact W k u v).
Proof. by apply square_set. Qed.

Lemma relax_sound : sound (relax_exact W k u v).
Proof.
  intros i j Hi Hj. unfold relax_exact. rewrite W_at_set by done.
  destruct (decide (i = u ∧ j = v)) as [[-> ->]|_]; [|by apply Hs].
  destruct (nmin_cases (W_at W u v) (nadd (W_at W u k) (W_at W k v))) as [->| ->].
  { by apply Hs. }
  destruct (Hs u k Hu Hk) as [->|(a&Ha&->)].
  { left. pose proof (sound_nonneg W k v Hs Hk Hv) as Hn.
    by destruct (W_at W k v). }
  destruct (Hs k v Hk Hv) as [->|(c&Hc&->)].
  { left. pose proof (pcost_nonneg u a k Hu Ha Hk) as Hn.
    by destruct (pcost u a k). }
  right. exists (a ++ k :: c). split; [|by rewrite pcost_app].
  apply Forall_app. split; [done|by constructor].
Qed.

Lemma relax_le i j :
  i < n → j < n →
  nle (W_at (relax_exact W k u v) i j) (W_at W i j).
Proof.
  intros Hi Hj. unfold relax_exact. rewrite W_at_set by done.
  destruct (decide (i = u ∧ j = v)) as [[-> ->]|_].
  - apply nmin_le_l; [by apply sound_nonneg|].
    apply nadd_nonneg; by apply sound_nonneg.
  - apply nle_refl. by apply sound_nonneg.
Qed.

Lemma relax_keeps i j x :
  i < n → j < n →
  nle (W_at W i j) x → nle (W_at (relax_exact W k u v) i j) x.
Proof.
  intros Hi Hj Hle. eapply nle_trans; [|by apply relax_le|done].
  by apply sound_nonneg.
Qed.

Lemma relax_via : below k W → via k (relax_exact W k u v) u v.
Proof.
  intros Hb a c Ha Hc. unfold relax_exact. rewrite W_at_set by done.
  rewrite decide_True by done. rewrite pcost_app.
  assert (Forall (λ m, m < n) a) by (apply (Forall_lt_weaken k); [done|lia]).
  assert (Forall (λ m, m < n) c) by (apply (Forall_lt_weaken k); [done|lia]).
  eapply nle_trans; [|apply nmin_le_r|].
  - apply nadd_nonneg; by apply sound_nonneg.
  - by apply sound_nonneg.
  - apply nadd_nonneg; by apply sound_nonneg.
  - apply nadd_mono; try (by apply sound_nonneg); try (by apply pcost_nonneg).
    + by apply Hb.
    + by apply Hb.
Qed.

End Relax.

(** One round, over a list of cells. *)
Definition relax_cells (k : nat) (W : list (list num)) (cs : list (nat * nat))
  : list (list num) :=
  foldl (λ W c, relax_exact W k c.1 c.2) W cs.

Definition cells : list (nat * nat) :=
  seq 0 n ≫= λ u, (λ v, (u, v)) <$> seq 0 n.

Lemma elem_of_cells u v : u < n → v < n → (u, v) ∈ cells.
Proof.
  intros Hu Hv. unfold cells. apply list_elem_of_bind. exists u.
  split; [|apply elem_of_seq; lia].
  apply list_elem_of_fmap. exists v. split; [done|apply elem_of_seq; lia].
Qed.

Lemma cells_lt c : c ∈ cells → c.1 < n ∧ c.2 < n.
Proof.
  unfold cells. intros Hc. apply list_elem_of_bind in Hc as (u&Hc&Hu).
  apply list_elem_of_fmap in Hc as (v&->&Hv).
  apply elem_of_seq in Hu, Hv. simpl. lia.
Qed.

Lemma round_cells_of k W (us vs : list nat) :
  foldl (λ W u, foldl (λ W v, relax_exact W k u v) W vs) W us
  = relax_cells k W (us ≫= λ u, (λ v, (u, v)) <$> vs).
Proof.
  unfold relax_cells. revert W. induction us as [|u us IH]; intros W; simpl;
    [done|].
  by rewrite foldl_app, foldl_fmap', IH.
Qed.

Lemma round_cells k W :
  foldl (λ W u, foldl (λ W v, relax_exact W k u v) W (seq 0 n))
        W (seq 0 n)
  = relax_cells k W cells.
Proof. apply round_cells_of. Qed.

Lemma relax_cells_inv k W cs :
  k < n → (∀ c, c ∈ cs → c.1 < n ∧ c.2 < n) →
  square W → sound W → below k W →
  square (relax_cells k W cs) ∧ sound (relax_cells k W cs) ∧
  below k (relax_cells k W cs) ∧
  ∀ c, c ∈ cs → via k (relax_cells k W cs) c.1 c.2.
Proof.
  intros Hk Hcs Hsq Hs Hb. induction cs as [|[u v] cs IH] using rev_ind.
  { simpl. split_and!; [done..|]. intros c Hc. by apply elem_of_nil in Hc. }
  destruct IH as (Hsq'&Hs'&Hb'&Hv').
  { intros c Hc. apply Hcs. set_solver. }
  destruct (Hcs (u, v)) as [Hu Hv]; [set_solver|]. simpl in Hu, Hv.
  unfold relax_cells in *. rewrite foldl_app. simpl.
  set (W' := foldl (λ W c, relax_exact W k c.1 c.2) W cs) in *.
  split_and!.
  - by apply relax_square.
  - by apply relax_sound.
  - intros i j mid Hi Hj Hmid. apply relax_keeps; auto.
  - intros c Hc. apply elem_of_app in Hc as [Hc|Hc].
    + intros a b Ha Hb0. destruct (Hcs c) as [? ?]; [set_solver|].
      apply relax_keeps; auto. by apply Hv'.
    + apply list_elem_of_singleton in Hc as ->. simpl. by apply relax_via.
Qed.

Lemma round_below k W :
  k < n → square W → sound W → below k W →
  square (relax_cells k W cells) ∧ sound (relax_cells k W cells) ∧
  below (S k) (relax_cells k W cells).
Proof.
  intros Hk Hsq Hs Hb.
  destruct (relax_cells_inv k W cells Hk cells_lt Hsq Hs Hb) as (Hsq'&Hs'&Hb'&Hv').
  split_and!; [done..|]. intros i j mid Hi Hj Hmid.
  destruct (decide (k ∈ mid)) as [Hin|Hnin].
  - destruct (pcost_split i j k mid Hi Hj Hk Hmid Hin) as (a&c&Ha&Hc&Hle).
    eapply nle_trans; [|by apply (Hv' (i, j) (elem_of_cells i j Hi Hj) a c)|done].
    apply pcost_nonneg; [done| |done].
    apply Forall_app. split; [apply (Forall_lt_weaken k); [done|lia]|].
    constructor; [done|]. apply (Forall_lt_weaken k); [done|lia].
  - apply Hb'; [done..|]. rewrite Forall_forall in *. intros m Hm.
    specialize (Hmid m Hm). assert (m ≠ k) by (by intros ->). lia.
Qed.

Lemma rounds_below W m :
  m ≤ n → square W → sound W → below 0 W →
  let W' := foldl (λ W k, relax_cells k W cells) W (seq 0 m) in
  square W' ∧ sound W' ∧ below m W'.
Proof.
  intros Hm Hsq Hs Hb. induction m as [|m IH]; [done|].
  destruct IH as (Hsq'&Hs'&Hb'); [lia|]. cbv zeta.
  rewrite seq_S, foldl_app. simpl. apply round_below; [lia|done..].
Qed.

Lemma rounds_exact_cells W :
  rounds_exact n W = foldl (λ W k, relax_cells k W cells) W (seq 0 n).
Proof.
  unfold rounds_exact.
  assert (∀ ks W,
    foldl (λ W k,
             foldl (λ W u,
                      foldl (λ W v, relax_exact W k u v) W (seq 0 n))
                   W (seq 0 n)) W ks
    = foldl (λ W k, relax_cells k W cells) W ks) as Hks.
  { intros ks. induction ks as [|k ks IH]; intros W'; simpl; [done|].
    by rewrite round_cells, IH. }
  apply Hks.
Qed.

(** The entries after all the rounds: costs of paths, and no more than the
    cost of any path. *)
Lemma rounds_exact_correct W :
  square W → (∀ i j, i < n → j < n → W_at W i j = w0 i j) →
  sound (rounds_exact n W) ∧ below n (rounds_exact n W).
Proof.
  intros Hsq HW. rewrite rounds_exact_cells.
  destruct (rounds_below W n) as (_&Hs&Hb); [lia|done| | |done].
  - intros i j Hi Hj. right. exists []. split; [constructor|by apply HW].
  - intros i j mid Hi Hj Hmid. destruct mid as [|m mid].
    + simpl. rewrite HW by done. apply nle_refl. by apply Hw0.
    + apply Forall_cons in Hmid as [? _]. lia.
Qed.

(** *** No sum of the rounds overflows *)

Lemma for_each_app {A S} (l1 l2 : list A) (s : S) (f : A → S → outcome S) :
  for_each (l1 ++ l2) s f = for_each l1 s f ≫= λ s', for_each l2 s' f.
Proof.
  revert s. induction l1 as [|a l1 IH]; intros s; simpl; [done|].
  destruct (f a s) as [s'| |]; simpl; [apply IH|done..].
Qed.

Lemma for_each_ext {A S} (l : list A) (s : S) (f g : A → S → outcome S) :
  (∀ a s', f a s' = g a s') → for_each l s f = for_each l s g.
Proof.
  intros Hfg. revert s. induction l as [|a l IH]; intros s; simpl; [done|].
  rewrite Hfg. destruct (g a s) as [s'| |]; simpl; [apply IH|done..].
Qed.

Lemma for_each_fmap {A B S} (h : B → A) (l : list B) (s : S)
    (f : A → S → outcome S) :
  for_each (h <$> l) s f = for_each l s (λ b, f (h b)).
Proof.
  revert s. induction l as [|b l IH]; intros s; simpl; [done|].
  destruct (f (h b) s) as [s'| |]; simpl; [apply IH|done..].
Qed.

Lemma for_each_cells {S} (us vs : list nat) (s : S)
    (f : nat → nat → S → outcome S) :
  for_each us s (λ u s', for_each vs s' (λ v s'', f u v s''))
  = for_each (us ≫= λ u, (λ v, (u, v)) <$> vs) s (λ c s', f c.1 c.2 s').
Proof.
  revert s. induction us as [|u us IH]; intros s; simpl; [done|].
  rewrite for_each_app, for_each_fmap. simpl.
  destruct (for_each vs s _) as [s'| |]; simpl; [apply IH|done..].
Qed.

(** A path costs no less than one that visits no node twice. *)
Lemma pcost_simple m i mid j :
  i < n → j < n → m ≤ n → Forall (λ x, x < m) mid →
  ∃ mid', NoDup mid' ∧ Forall (λ x, x < m) mid' ∧
          nle (pcost i mid' j) (pcost i mid j).
Proof.
  intros Hi Hj Hm Hmid. revert i Hi.
  induction Hmid as [|x r Hx Hr IH]; intros i Hi.
  { exists []. split_and!; [constructor|constructor|].
    apply nle_refl. by apply Hw0. }
  assert (x < n) as Hxn by lia.
  destruct (IH x Hxn) as (r'&Hnd&Hr'&Hle).
  assert (Forall (λ y, y < n) r) as Hrn by (by apply (Forall_lt_weaken m)).
  assert (Forall (λ y, y < n) r') as Hrn' by (by apply (Forall_lt_weaken m)).
  destruct (decide (x ∈ r')) as [Hin|Hnin].
  - apply list_elem_of_split in Hin as (b&c&->).
    apply Forall_app in Hr' as [Hb Hc]. apply Forall_cons in Hc as [_ Hc].
    apply Forall_app in Hrn' as [Hbn Hcn]. apply Forall_cons in Hcn as [_ Hcn].
    apply NoDup_app in Hnd as (_&_&Hnd).
    exists (x :: c). split_and!; [done|by constructor|]. simpl.
    rewrite pcost_app in Hle.
    apply nadd_mono; [by apply Hw0..|by apply pcost_nonneg|by apply pcost_nonneg
                     |apply nle_refl; by apply Hw0|].
    eapply nle_trans; [|apply (nle_nadd_l (pcost x b x))|done];
      try (by apply pcost_nonneg).
    apply nadd_nonneg; by apply pcost_nonneg.
  - exists (x :: r'). split_and!; [by constructor|by constructor|]. simpl.
    apply nadd_mono; [by apply Hw0..|by apply pcost_nonneg|by apply pcost_nonneg
                     |apply nle_refl; by apply Hw0|done].
Qed.

Lemma NoDup_lt_length (l : list nat) :
  NoDup l → Forall (λ x, x < n) l → length l ≤ n.
Proof.
  intros Hnd Hl.
  assert (l ⊆+ seq 0 n) as Hsub.
  { apply NoDup_submseteq; [done|]. intros x Hx. apply elem_of_seq.
    rewrite Forall_forall in Hl. specialize (Hl x Hx). lia. }
  apply submseteq_length in Hsub. by rewrite length_seq in Hsub.
Qed.

Context (C : Z).
Hypothesis HC : ∀ i j z, i < n → j < n → w0 i j = Fin z → (z ≤ C)%Z.
Hypothesis HT : ((Z.of_nat n + 1) * C < float_max_int)%Z.

Lemma pcost_bound i mid j z :
  i < n → j < n → Forall (λ x, x < n) mid → pcost i mid j = Fin z →
  (z ≤ (Z.of_nat (length mid) + 1) * C)%Z.
Proof.
  intros Hi Hj Hmid. revert i z Hi.
  induction Hmid as [|x r Hx Hr IH]; intros i z Hi Hz; simpl in Hz.
  { simpl. specialize (HC i j z Hi Hj Hz). lia. }
  apply nadd_Fin_inv in Hz as (a&b&Ha&Hb&->).
  specialize (HC i x a Hi Hx Ha). specialize (IH x b Hx Hb).
  rewrite length_cons. lia.
Qed.

(** An entry that is not infinite is an int that converts to a float. *)
Definition bounded (a : num) : Prop :=
  a = PInf ∨ ∃ z, a = Fin z ∧ (0 ≤ z < float_max_int)%Z.

Lemma add_numbers_bounded a b :
  bounded a → bounded b → add_numbers a b = Ret (nadd a b).
Proof.
  intros [->|(x&->&Hx)] [->|(y&->&Hy)]; unfold add_numbers; simpl; try done.
  - rewrite bool_decide_true by lia. done.
  - rewrite bool_decide_true by lia. done.
Qed.

(** The entry is the cost of a path through the first [m] nodes, and no
    such path costs less. *)
Definition reach (m : nat) (W : list (list num)) (i j : nat) : Prop :=
  W_at W i j = PInf ∨
  ∃ mid, Forall (λ x, x < m) mid ∧ W_at W i j = pcost i mid j.

Definition tight (m : nat) (W : list (list num)) (i j : nat) : Prop :=
  ∀ mid, Forall (λ x, x < m) mid → nle (W_at W i j) (pcost i mid j).

Definition exact (m : nat) (W : list (list num)) (i j : nat) : Prop :=
  reach m W i j ∧ tight m W i j.

(** During round [k] an entry is exact for the first [k] nodes, or for
    [k + 1] of them once it has been relaxed. *)
Definition in_round (k : nat) (W : list (list num)) : Prop :=
  ∀ i j, i < n → j < n → exact k W i j ∨ exact (S k) W i j.

Lemma exact_ext m W W' i j :
  W_at W' i j = W_at W i j → exact m W i j → exact m W' i j.
Proof. unfold exact, reach, tight. intros ->. done. Qed.

Lemma reach_mono m m' W i j : m ≤ m' → reach m W i j → reach m' W i j.
Proof.
  intros Hm [?|(mid&Hmid&?)]; [by left|]. right. exists mid. split; [|done].
  eapply Forall_impl; [done|]. simpl. lia.
Qed.

Lemma tight_mono m m' W i j : m ≤ m' → tight m' W i j → tight m W i j.
Proof.
  intros Hm Ht mid Hmid. apply Ht. eapply Forall_impl; [done|]. simpl. lia.
Qed.

Lemma exact_bounded m W i j :
  m ≤ n → i < n → j < n → exact m W i j → bounded (W_at W i j).
Proof.
  intros Hm Hi Hj [[?|(mid&Hmid&Heq)] Ht]; [by left|].
  destruct (pcost_simple m i mid j Hi Hj Hm Hmid) as (mid'&Hnd&Hmid'&Hle).
  assert (Forall (λ x, x < n) mid) by (by apply (Forall_lt_weaken m)).
  assert (Forall (λ x, x < n) mid') as Hn' by (by apply (Forall_lt_weaken m)).
  pose proof (Ht mid' Hmid') as Hle'. rewrite Heq in Hle'.
  pose proof (pcost_nonneg i mid j Hi ltac:(done) Hj) as Hnn.
  pose proof (pcost_nonneg i mid' j Hi Hn' Hj) as Hnn'.
  pose proof (nle_antisym _ _ Hnn Hnn' Hle' Hle) as Hsame.
  rewrite Heq, Hsame. destruct (pcost i mid' j) as [z| | |] eqn:Hp;
    [|by left|done..].
  right. exists z. split; [done|]. simpl in Hnn'. split; [done|].
  pose proof (pcost_bound i mid' j z Hi Hj Hn' Hp) as Hz.
  pose proof (NoDup_lt_length mid' Hnd Hn').
  assert (0 ≤ C)%Z by nia. nia.
Qed.

Lemma in_round_reach k W i j :
  in_round k W → i < n → j < n → reach (S k) W i j.
Proof.
  intros Hr Hi Hj. destruct (Hr i j Hi Hj) as [[? _]|[? _]]; [|done].
  by apply (reach_mono k); [lia|].
Qed.

Lemma in_round_tight k W i j :
  in_round k W → i < n → j < n → tight k W i j.
Proof.
  intros Hr Hi Hj. destruct (Hr i j Hi Hj) as [[_ ?]|[_ ?]]; [done|].
  by apply (tight_mono k (S k)); [lia|].
Qed.

Lemma in_round_bounded k W i j :
  k < n → in_round k W → i < n → j < n → bounded (W_at W i j).
Proof.
  intros Hk Hr Hi Hj. destruct (Hr i j Hi Hj) as [He|He].
  - by apply (exact_bounded k); [lia|..].
  - by apply (exact_bounded (S k)); [lia|..].
Qed.

Lemma bounded_nonneg a : bounded a → nonneg a.
Proof. intros [->|(z&->&?)]; simpl; [done|lia]. Qed.

Section RelaxRound.
Context (W : list (list num)) (k u v : nat).
Hypothesis (Hsq : square W) (Hr : in_round k W).
Hypothesis (Hk : k < n) (Hu : u < n) (Hv : v < n).

Lemma relax_returns :
  floyd_warshall_relax W k u v = Ret (relax_exact W k u v).
Proof.
  unfold floyd_warshall_relax, relax_exact.
  rewrite add_numbers_bounded; [done|by apply (in_round_bounded k)..].
Qed.

Lemma W_at_nonneg i j : i < n → j < n → nonneg (W_at W i j).
Proof. intros. apply bounded_nonneg. by apply (in_round_bounded k). Qed.

Lemma relax_exact_cell : exact (S k) (relax_exact W k u v) u v.
Proof.
  split.
  - unfold reach, relax_exact. rewrite W_at_set by done.
    rewrite decide_True by done.
    destruct (nmin_cases (W_at W u v) (nadd (W_at W u k) (W_at W k v)))
      as [->| ->].
    { by apply in_round_reach. }
    destruct (in_round_reach k W u k Hr Hu Hk) as [->|(a&Ha&->)].
    { left. pose proof (W_at_nonneg k v Hk Hv) as Hn.
      by destruct (W_at W k v). }
    destruct (in_round_reach k W k v Hr Hk Hv) as [->|(c&Hc&->)].
    { left.
      assert (Forall (λ x, x < n) a) by (apply (Forall_lt_weaken (S k)); [done|lia]).
      pose proof (pcost_nonneg u a k Hu ltac:(done) Hk) as Hn.
      by destruct (pcost u a k). }
    right. exists (a ++ k :: c). split; [|by rewrite pcost_app].
    apply Forall_app. split; [done|]. constructor; [lia|done].
  - intros mid Hmid. unfold relax_exact. rewrite W_at_set by done.
    rewrite decide_True by done.
    assert (nonneg (nadd (W_at W u k) (W_at W k v))) as Hsum
      by (apply nadd_nonneg; by apply W_at_nonneg).
    destruct (decide (k ∈ mid)) as [Hin|Hnin].
    + destruct (pcost_split u v k mid Hu Hv Hk Hmid Hin) as (a&c&Ha&Hc&Hle).
      assert (Forall (λ m, m < n) a) by (apply (Forall_lt_weaken k); [done|lia]).
      assert (Forall (λ m, m < n) c) by (apply (Forall_lt_weaken k); [done|lia]).
      eapply nle_trans; [|apply nmin_le_r|]; [done|by apply W_at_nonneg|done|].
      eapply nle_trans; [| |apply Hle].
      { apply pcost_nonneg; [done| |done]. apply Forall_app.
        split; [done|by constructor]. }
      rewrite pcost_app.
      apply nadd_mono; try (by apply W_at_nonneg); try (by apply pcost_nonneg).
      * by apply (in_round_tight k W u k Hr Hu Hk).
      * by apply (in_round_tight k W k v Hr Hk Hv).
    + assert (Forall (λ m, m < k) mid) as Hmid'.
      { rewrite Forall_forall in *. intros m Hm. specialize (Hmid m Hm).
        assert (m ≠ k) by (by intros ->). lia. }
      eapply nle_trans; [|apply nmin_le_l|]; [|by apply W_at_nonneg|done|].
      * by apply W_at_nonneg.
      * by apply (in_round_tight k W u v Hr Hu Hv).
Qed.

Lemma relax_other_cell i j :
  ¬ (i = u ∧ j = v) → W_at (relax_exact W k u v) i j = W_at W i j.
Proof.
  intros Hne. unfold relax_exact. rewrite W_at_set by done.
  by rewrite decide_False.
Qed.

Lemma relax_exact_kept i j :
  exact (S k) W i j → exact (S k) (relax_exact W k u v) i j.
Proof.
  intros He. destruct (decide (i = u ∧ j = v)) as [[-> ->]|Hne].
  - apply relax_exact_cell.
  - eapply exact_ext; [by apply relax_other_cell|done].
Qed.

Lemma relax_in_round : in_round k (relax_exact W k u v).
Proof.
  intros i j Hi Hj. destruct (decide (i = u ∧ j = v)) as [[-> ->]|Hne].
  - right. apply relax_exact_cell.
  - destruct (Hr i j Hi Hj) as [He|He]; [left|right];
      (eapply exact_ext; [by apply relax_other_cell|done]).
Qed.

End RelaxRound.

(** One round returns, and every cell that it has relaxed is exact for one
    node more. *)
Lemma round_returns k W cs :
  k < n → (∀ c, c ∈ cs → c.1 < n ∧ c.2 < n) →
  square W → in_round k W →
  for_each cs W (λ c W', floyd_warshall_relax W' k c.1 c.2)
    = Ret (relax_cells k W cs) ∧
  square (relax_cells k W cs) ∧ in_round k (relax_cells k W cs) ∧
  ∀ c, c ∈ cs → exact (S k) (relax_cells k W cs) c.1 c.2.
Proof.
  intros Hk Hcs Hsq Hr. induction cs as [|[u v] cs IH] using rev_ind.
  { simpl. split_and!; [done..|]. intros c Hc. by apply elem_of_nil in Hc. }
  destruct IH as (Hret&Hsq'&Hr'&He').
  { intros c Hc. apply Hcs. set_solver. }
  destruct (Hcs (u, v)) as [Hu Hv]; [set_solver|]. simpl in Hu, Hv.
  rewrite for_each_app, Hret. unfold relax_cells in *. rewrite foldl_app.
  simpl.
  set (W' := foldl (λ W c, relax_exact W k c.1 c.2) W cs) in *.
  rewrite (relax_returns W' k u v) by done. simpl. split_and!.
  - done.
  - by apply square_set.
  - by apply relax_in_round.
  - intros c Hc. apply elem_of_app in Hc as [Hc|Hc].
    + apply relax_exact_kept; [done..|by apply He'].
    + apply list_elem_of_singleton in Hc as ->. simpl.
      by apply relax_exact_cell.
Qed.

Lemma rounds_return W m :
  m ≤ n → square W → (∀ i j, i < n → j < n → exact 0 W i j) →
  let W' := foldl (λ W k, relax_cells k W cells) W (seq 0 m) in
  for_each (seq 0 m) W
           (λ k W', for_each cells W'
                             (λ c W'', floyd_warshall_relax W'' k c.1 c.2))
    = Ret W' ∧
  square W' ∧ ∀ i j, i < n → j < n → exact m W' i j.
Proof.
  intros Hm Hsq He. induction m as [|m IH]; [done|].
  destruct IH as (Hret&Hsq'&He'); [lia|]. cbv zeta.
  rewrite seq_S, for_each_app, foldl_app, Hret. simpl.
  set (W' := foldl (λ W k, relax_cells k W cells) W (seq 0 m)) in *.
  destruct (round_returns m W' cells) as (Hret'&Hsq''&_&He'');
    [lia|apply cells_lt|done| |].
  { intros i j Hi Hj. left. by apply He'. }
  rewrite Hret'. simpl. split_and!; [done..|].
  intros i j Hi Hj. apply (He'' (i, j)). by apply elem_of_cells.
Qed.

(** The rounds return the matrix of the rounds with exact sums. *)
Lemma floyd_warshall_rounds_returns W :
  square W → (∀ i j, i < n → j < n → W_at W i j = w0 i j) →
  floyd_warshall_rounds n W = Ret (rounds_exact n W).
Proof.
  intros Hsq HW. rewrite rounds_exact_cells. unfold floyd_warshall_rounds.
  destruct (rounds_return W n) as (Hret&_); [lia|done| |].
  { intros i j Hi Hj. split.
    - right. exists []. split; [constructor|by apply HW].
    - intros mid Hmid. destruct mid as [|m mid].
      + simpl. rewrite HW by done. apply nle_refl. by apply Hw0.
      + apply Forall_cons in Hmid as [? _]. lia. }
  rewrite <- Hret. apply for_each_ext. intros k W'.
  apply (for_each_cells (seq 0 n) (seq 0 n) W'
           (λ u v W'', floyd_warshall_relax W'' k u v)).
Qed.

End Matrix.

(** *** The distances of Floyd-Warshall in the graph *)

Lemma walk_cons nk u v l ls x :
  (v, l) ∈ adj nk u → walk nk v ls x → walk nk u (l :: ls) x.
Proof.
  intros Hadj Hw. induction Hw as [|ls y l' x Hw IH Hadj'].
  - apply (walk_snoc nk u [] u l v); [constructor|done].
  - rewrite app_comm_cons. by apply (walk_snoc nk u _ y).
Qed.

Lemma walk_app nk s ls1 v ls2 x :
  walk nk s ls1 v → walk nk v ls2 x → walk nk s (ls1 ++ ls2) x.
Proof.
  intros Hw1 Hw2. induction Hw2 as [|ls y l x Hw2 IH Hadj].
  - by rewrite app_nil_r.
  - rewrite app_assoc. by apply (walk_snoc nk s _ y).
Qed.

Lemma path_cost_app nk ls1 ls2 :
  path_cost nk (ls1 ++ ls2) = nadd (path_cost nk ls1) (path_cost nk ls2).
Proof.
  unfold path_cost. rewrite fmap_app. unfold nsum at 1.
  rewrite foldl_app. apply nsum_from.
Qed.

Lemma path_cost_snoc nk ls l :
  path_cost nk (ls ++ [l]) = nadd (path_cost nk ls) (costSD (link nk l)).
Proof. unfold path_cost. rewrite fmap_app. apply nsum_snoc. Qed.

Lemma path_cost_cons nk l ls :
  path_cost nk (l :: ls) = nadd (costSD (link nk l)) (path_cost nk ls).
Proof. unfold path_cost. rewrite fmap_cons. apply nsum_cons. Qed.

Lemma first_cost_cases nk v es :
  first_cost nk v es = PInf ∨
  ∃ l, (v, l) ∈ es ∧ first_cost nk v es = costSD (link nk l).
Proof.
  induction es as [|[v' l] es IH]; simpl; [by left|].
  destruct (decide (v' = v)) as [->|Hne].
  - right. exists l. split; [left|done].
  - destruct IH as [IH|(l'&Hin&IH)]; [by left|].
    right. exists l'. split; [by right|done].
Qed.

Lemma first_cost_found nk v l es :
  (v, l) ∈ es → ∃ l', (v, l') ∈ es ∧ first_cost nk v es = costSD (link nk l').
Proof.
  induction es as [|[v' l0] es IH]; intros Hin; [by apply elem_of_nil in Hin|].
  simpl. destruct (decide (v' = v)) as [->|Hne].
  - exists l0. split; [left|done].
  - apply elem_of_cons in Hin as [Heq|Hin]; [congruence|].
    destruct (IH Hin) as (l'&Hin'&IH'). exists l'. split; [by right|done].
Qed.

Lemma lookup_total_imap_node {B} `{!Inhabited B} (f : nat → node → B)
    (l : list node) i :
  i < length l → imap f l !!! i = f i (l !!! i).
Proof.
  intros [x Hx]%lookup_lt_is_Some_2.
  by rewrite !list_lookup_total_alt, list_lookup_imap, Hx.
Qed.

(** The dictionary of the distances. *)
Definition get2 (m : gmap node (gmap node num)) (a b : node) : option num :=
  m !! a ≫= (.!! b).

Definition set2 (m : gmap node (gmap node num)) (a b : node) (x : num)
  : gmap node (gmap node num) :=
  <[a := <[b := x]> (default ∅ (m !! a))]> m.

Lemma get2_set2 m a b x a' b' :
  get2 (set2 m a b x) a' b' =
    if decide (a' = a ∧ b' = b) then Some x else get2 m a' b'.
Proof.
  unfold get2, set2. destruct (decide (a' = a)) as [->|Hne].
  - rewrite lookup_insert_eq. simpl.
    destruct (decide (b' = b)) as [->|Hne'].
    + rewrite lookup_insert_eq. by rewrite decide_True.
    + rewrite lookup_insert_ne by done.
      rewrite decide_False by (by intros [_ ?]).
      by destruct (m !! a).
  - rewrite lookup_insert_ne by done.
    by rewrite decide_False by (by intros [? _]).
Qed.

Definition set_cell (W : list (list num)) (m : gmap node (gmap node num))
    (c : (nat * node) * (nat * node)) : gmap node (gmap node num) :=
  set2 m c.1.2 c.2.2 (W_at W c.1.1 c.2.1).

Lemma all_length_of_cells nodes W :
  all_length_of nodes W =
    foldl (set_cell W) ∅
          (imap pair nodes ≫= λ p1, (λ p2, (p1, p2)) <$> imap pair nodes).
Proof.
  unfold all_length_of. generalize (∅ : gmap node (gmap node num)).
  generalize (imap pair nodes) at 2 4. intros L1.
  induction L1 as [|[id1 n1] L1 IH]; intros m; simpl; [done|].
  rewrite foldl_app, IH. f_equal. rewrite foldl_fmap'.
  generalize (imap pair nodes). intros L2. revert m.
  induction L2 as [|[id2 n2] L2 IH2]; intros m; simpl; [done|].
  by rewrite IH2.
Qed.

Lemma foldl_set_cell W cs m c :
  (∀ c', c' ∈ cs → c'.1.2 = c.1.2 → c'.2.2 = c.2.2 →
         c'.1.1 = c.1.1 ∧ c'.2.1 = c.2.1) →
  c ∈ cs →
  get2 (foldl (set_cell W) m cs) c.1.2 c.2.2 = Some (W_at W c.1.1 c.2.1).
Proof.
  induction cs as [|c' cs IH] using rev_ind; intros Hfun Hin.
  { by apply elem_of_nil in Hin. }
  rewrite foldl_app. simpl. unfold set_cell at 1. rewrite get2_set2.
  destruct (decide (c.1.2 = c'.1.2 ∧ c.2.2 = c'.2.2)) as [[H1 H2]|Hne].
  - destruct (Hfun c') as [-> ->]; [set_solver|done|done|done].
  - apply IH.
    + intros c0 Hc0. apply Hfun. set_solver.
    + apply elem_of_app in Hin as [?|Hin]; [done|].
      apply list_elem_of_singleton in Hin as ->. by destruct Hne.
Qed.

Lemma all_length_of_at (nodes : list node) W i j a b :
  NoDup nodes → nodes !! i = Some a → nodes !! j = Some b →
  get2 (all_length_of nodes W) a b = Some (W_at W i j).
Proof.
  intros Hnd Hi Hj. rewrite all_length_of_cells.
  assert (∀ p : nat * node, p ∈ imap pair nodes ↔ nodes !! p.1 = Some p.2) as Hp.
  { intros [k v]. rewrite list_elem_of_lookup. simpl. split.
    - intros (k'&Hk). apply list_lookup_imap_Some in Hk as (y&Hy&[= -> ->]).
      done.
    - intros Hk. exists k. apply list_lookup_imap_Some. by exists v. }
  apply (foldl_set_cell W _ _ ((i, a), (j, b))).
  - intros [[i' a'] [j' b']] Hc. simpl. intros -> ->.
    apply list_elem_of_bind in Hc as (p1&Hc&Hp1).
    apply list_elem_of_fmap in Hc as (p2&[= <- <-]&Hp2).
    apply Hp in Hp1, Hp2. simpl in *.
    split; by eapply NoDup_lookup.
  - apply list_elem_of_bind. exists (i, a). split; [|by apply Hp].
    apply list_elem_of_fmap. exists (j, b). split; [done|by apply Hp].
Qed.

Section Graph.
Context (nk : Network).
Hypothesis Hnd : NoDup (nodes nk).
Hypothesis Hclosed : graph_closed nk.
Hypothesis Hcost : costs_symmetric nk.
Hypothesis Hpar : parallel_links_agree nk.

Local Abbreviation n := (length (nodes nk)).
Local Abbreviation node_at i := (nodes nk !!! i).

(** The entries of [W] before the rounds. *)
Definition w0 (i j : nat) : num :=
  if decide (i = j) then Fin 0
  else first_cost nk (node_at j) (adj nk (node_at i)).

Lemma W_init_square : square n (W_init nk).
Proof.
  unfold W_init. split; [by rewrite length_imap|].
  intros u Hu. rewrite lookup_total_imap_node by done.
  by rewrite length_imap.
Qed.

Lemma W_init_at i j : i < n → j < n → W_at (W_init nk) i j = w0 i j.
Proof.
  intros Hi Hj. unfold W_at, W_init.
  rewrite lookup_total_imap_node by done.
  by rewrite lookup_total_imap_node by done.
Qed.

Lemma adj_cost_nonneg u v l : (v, l) ∈ adj nk u → nonneg (costSD (link nk l)).
Proof. intros Hadj. destruct (Hcost u v l Hadj) as (c&Hc&->&_). done. Qed.

Lemma w0_nonneg i j : i < n → j < n → nonneg (w0 i j).
Proof.
  intros Hi Hj. unfold w0. destruct (decide (i = j)); [done|].
  destruct (first_cost_cases nk (node_at j) (adj nk (node_at i)))
    as [->|(l&Hin&->)]; [done|].
  by eapply adj_cost_nonneg.
Qed.

Lemma walk_cost_nonneg s ls x : walk nk s ls x → nonneg (path_cost nk ls).
Proof.
  induction 1 as [|ls v l x Hw IH Hadj]; [done|].
  rewrite path_cost_snoc. apply nadd_nonneg; [done|by eapply adj_cost_nonneg].
Qed.

Lemma walk_in_nodes s ls x : s ∈ nodes nk → walk nk s ls x → x ∈ nodes nk.
Proof.
  intros Hs. induction 1 as [|ls v l x Hw IH Hadj]; [done|].
  by destruct (Hclosed v x l Hadj).
Qed.

Lemma node_index v : v ∈ nodes nk → ∃ i, i < n ∧ node_at i = v.
Proof.
  intros Hv. apply list_elem_of_lookup_1 in Hv as [i Hi].
  exists i. split; [by eapply lookup_lt_Some|].
  by apply list_lookup_total_correct.
Qed.

Lemma node_at_inj i j : i < n → j < n → node_at i = node_at j → i = j.
Proof.
  intros Hi Hj Heq.
  apply (NoDup_lookup (nodes nk) i j (node_at i)); [done|..].
  - by apply list_lookup_lookup_total_lt.
  - rewrite Heq. by apply list_lookup_lookup_total_lt.
Qed.

(** A walk costs no less than the direct steps between its nodes. *)
Lemma walk_pcost i j ls :
  i < n → j < n → walk nk (node_at i) ls (node_at j) →
  ∃ mid, Forall (λ m, m < n) mid ∧ nle (pcost w0 i mid j) (path_cost nk ls).
Proof.
  intros Hi Hj Hw. remember (node_at j) as x eqn:Hx. revert j Hj Hx.
  induction Hw as [|ls v l x Hw IH Hadj]; intros j Hj Hx.
  - apply node_at_inj in Hx; [|done..]. subst j. exists []. split; [constructor|].
    simpl. unfold w0. by rewrite decide_True.
  - assert (v ∈ nodes nk) as Hv.
    { eapply walk_in_nodes; [|done]. by apply list_elem_of_lookup_total_2. }
    destruct (node_index v Hv) as (m&Hm&Hmv).
    destruct (IH m Hm (eq_sym Hmv)) as (mid&Hmid&Hle).
    exists (mid ++ [m]). split; [apply Forall_app; split; [done|by constructor]|].
    rewrite pcost_snoc, path_cost_snoc.
    apply nadd_mono.
    + apply (pcost_nonneg n); [apply w0_nonneg|done..].
    + by eapply walk_cost_nonneg.
    + by apply w0_nonneg.
    + by eapply adj_cost_nonneg.
    + done.
    + unfold w0. destruct (decide (m = j)) as [->|Hne].
      * pose proof (adj_cost_nonneg v x l Hadj) as Hn.
        destruct (costSD (link nk l)); num_solve.
      * rewrite Hmv, <-Hx.
        destruct (first_cost_found nk x l (adj nk v) Hadj) as (l'&Hin&->).
        rewrite (Hpar v x l' l Hin Hadj). apply nle_refl.
        by eapply adj_cost_nonneg.
Qed.

(** Direct steps of finite cost are a walk of that cost. *)
Lemma pcost_walk i mid j d :
  i < n → j < n → Forall (λ m, m < n) mid → pcost w0 i mid j = Fin d →
  ∃ ls, walk nk (node_at i) ls (node_at j) ∧ path_cost nk ls = Fin d.
Proof.
  intros Hi Hj Hmid. revert i d Hi.
  assert (∀ a b c, a < n → b < n → w0 a b = Fin c →
            ∃ ls, walk nk (node_at a) ls (node_at b) ∧ path_cost nk ls = Fin c)
    as Hstep.
  { intros a b c Ha Hb. unfold w0. destruct (decide (a = b)) as [->|Hne].
    - intros [= <-]. exists []. split; [constructor|done].
    - destruct (first_cost_cases nk (node_at b) (adj nk (node_at a)))
        as [->|(l&Hin&->)]; [done|].
      intros Hc. exists [l]. split.
      + apply (walk_snoc nk _ [] (node_at a)); [constructor|done].
      + change (path_cost nk [l]) with (nadd (Fin 0) (costSD (link nk l))).
        by rewrite nadd_0_l. }
  induction Hmid as [|m mid Hm Hmid IH]; intros i d Hi; simpl.
  { by apply Hstep. }
  intros Hd. apply nadd_Fin_inv in Hd as (x&y&Hx&Hy&->).
  destruct (IH m y Hm Hy) as (ls2&Hw2&Hc2).
  destruct (Hstep i m x Hi Hm Hx) as (ls1&Hw1&Hc1).
  exists (ls1 ++ ls2). split; [by eapply walk_app|].
  by rewrite path_cost_app, Hc1, Hc2.
Qed.

(** [floyd_warshall] returns the distances: each is no more than the cost of
    any walk, and is the cost of a walk when it is a number. *)
(** The largest cost that [costs_fit] allows. *)
Definition cost_cap : Z := (float_max_int - 1) / (Z.of_nat n + 1).

Lemma cost_cap_nonneg : (0 ≤ cost_cap)%Z.
Proof.
  unfold cost_cap. pose proof float_max_int_pos.
  apply Z.div_pos; lia.
Qed.

Lemma cost_cap_fits : ((Z.of_nat n + 1) * cost_cap < float_max_int)%Z.
Proof.
  unfold cost_cap.
  pose proof (Z.mul_div_le (float_max_int - 1) (Z.of_nat n + 1)). lia.
Qed.

Lemma w0_capped :
  costs_fit nk → ∀ i j z, i < n → j < n → w0 i j = Fin z → (z ≤ cost_cap)%Z.
Proof.
  intros Hfit i j z Hi Hj. unfold w0. destruct (decide (i = j)).
  { intros [= <-]. apply cost_cap_nonneg. }
  destruct (first_cost_cases nk (node_at j) (adj nk (node_at i)))
    as [->|(l&Hin&->)]; [done|].
  intros Hz. specialize (Hfit _ _ _ _ Hin Hz).
  unfold cost_cap. apply Z.div_le_lower_bound; lia.
Qed.

Lemma floyd_warshall_distances :
  costs_fit nk →
  ∃ m, floyd_warshall nk = Ret (FW_lengths m) ∧
    ∀ s t, s ∈ nodes nk → t ∈ nodes nk →
      ∃ d, get2 m s t = Some d ∧ nonneg d ∧
        (∀ ls, walk nk s ls t → nle d (path_cost nk ls)) ∧
        (∀ z, d = Fin z → ∃ ls, walk nk s ls t ∧ path_cost nk ls = Fin z).
Proof.
  intros Hfit.
  destruct (rounds_exact_correct n w0 w0_nonneg (W_init nk)
              W_init_square W_init_at) as [Hs Hb].
  pose proof (floyd_warshall_rounds_returns n w0 w0_nonneg cost_cap
                (w0_capped Hfit) cost_cap_fits (W_init nk)
                W_init_square W_init_at) as Hret.
  unfold floyd_warshall. rewrite Hret. simpl.
  set (W := rounds_exact n (W_init nk)) in *.
  destruct (existsb _ _) eqn:Hex.
  { apply existsb_exists in Hex as (v&Hv&Hlt).
    apply list_elem_of_In, elem_of_seq in Hv.
    pose proof (sound_nonneg n w0 w0_nonneg W v v Hs) as Hn.
    destruct (W_at W v v); [|done| |]; try (exfalso; apply Hn; lia).
    simpl in Hlt. case_bool_decide; [|done]. simpl in Hn. lia. }
  eexists. split; [done|]. intros s t Hs' Ht'.
  destruct (node_index s Hs') as (i&Hi&<-).
  destruct (node_index t Ht') as (j&Hj&<-).
  exists (W_at W i j). split_and!.
  - apply all_length_of_at; [done|by apply list_lookup_lookup_total_lt..].
  - by apply (sound_nonneg n w0 w0_nonneg).
  - intros ls Hw. destruct (walk_pcost i j ls Hi Hj Hw) as (mid&Hmid&Hle).
    eapply nle_trans; [|by apply (Hb i j mid)|done].
    by apply (pcost_nonneg n); [apply w0_nonneg|..].
  - intros z Hz. destruct (Hs i j Hi Hj) as [Hinf|(mid&Hmid&Hp)]; [congruence|].
    apply (pcost_walk i mid j); [done..|congruence].
Qed.

End Graph.

(** *** The search of A* *)

Section AStar.
Context (nk : Network) (pop : heappop_t AEntry).
Hypothesis Hpop : is_heappop a_dist pop.
Hypothesis Hnd : NoDup (nodes nk).
Hypothesis Hclosed : graph_closed nk.
Hypothesis Hcost : costs_symmetric nk.
Context (s t : node).
Hypothesis Hs : s ∈ nodes nk.

(** The entry pushed for an adjacency entry of the node of [e]. *)
Definition pushed (e : AEntry) (p : node * nat) : AEntry :=
  mkAEntry (nadd (a_dist e) (call_cost (link nk p.2) (a_node e))) p.1
           (a_nodes e ++ [p.1]) (a_plinks e ++ [p.2]).

Lemma A_star_push_all e heap :
  A_star_push nk (all_plinks nk) [] (nodes nk) [] e heap =
    heap ++ (pushed e <$> adj nk (a_node e)).
Proof.
  unfold A_star_push.
  assert (∀ es, (∀ p, p ∈ es → p ∈ adj nk (a_node e)) →
            ∀ h, foldl (λ h '(neighbor, adj_plink),
                   if negb (mem neighbor (nodes nk) && negb (mem neighbor []))
                   then h
                   else if negb (mem adj_plink (all_plinks nk) &&
                                 negb (mem adj_plink []))
                   then h
                   else h ++ [mkAEntry
                                (nadd (a_dist e)
                                   (call_cost (link nk adj_plink) (a_node e)))
                                neighbor (a_nodes e ++ [neighbor])
                                (a_plinks e ++ [adj_plink])]) h es
                 = h ++ (pushed e <$> es)) as Hes.
  { induction es as [|[nb l] es IH]; intros Hsub h; simpl.
    { by rewrite app_nil_r. }
    destruct (Hclosed (a_node e) nb l) as [Hnb Hl]; [apply Hsub; left|].
    assert (mem nb (nodes nk) = true) as -> by (by apply bool_decide_eq_true_2).
    assert (mem l (all_plinks nk) = true) as -> by (by apply bool_decide_eq_true_2).
    assert (∀ x, mem x [] = false) as Hnil
      by (intros x; apply bool_decide_eq_false_2, not_elem_of_nil).
    rewrite ?Hnil. simpl.
    rewrite IH by (intros; apply Hsub; by right).
    by rewrite <-app_assoc. }
  by apply Hes.
Qed.

Lemma call_cost_adj u v l n :
  (v, l) ∈ adj nk u → call_cost (link nk l) n = costSD (link nk l).
Proof.
  intros Hadj. destruct (Hcost u v l Hadj) as (c&_&HSD&HDS).
  unfold call_cost, cost_dir. destruct (dir_from n (link nk l)); congruence.
Qed.

(** A heap entry: a walk from the source, with its cost. *)
Definition valid (e : AEntry) : Prop :=
  walk nk s (a_plinks e) (a_node e) ∧ a_dist e = path_cost nk (a_plinks e) ∧
  a_node e ∈ nodes nk.

Record Inv (visited : gset nat) (heap : list AEntry) : Prop := {
  inv_valid : ∀ e, e ∈ heap → valid e;
  inv_source : s ∈ visited ∨ ∃ e, e ∈ heap ∧ a_node e = s ∧ a_dist e = Fin 0;
  inv_frontier : ∀ x ls y l,
    x ∈ visited → walk nk s ls x → (y, l) ∈ adj nk x →
    y ∈ visited ∨
    ∃ e, e ∈ heap ∧ a_node e = y ∧ nle (a_dist e) (path_cost nk (ls ++ [l]));
  inv_target : t ∉ visited
}.

Lemma valid_nonneg e : valid e → nonneg (a_dist e).
Proof. intros (Hw&->&_). by eapply walk_cost_nonneg. Qed.

(** Every walk from the source ends at a visited node, or costs no less
    than some entry of the heap. *)
Lemma frontier visited heap ls x :
  Inv visited heap → walk nk s ls x →
  x ∈ visited ∨ ∃ e, e ∈ heap ∧ nle (a_dist e) (path_cost nk ls).
Proof.
  intros HI Hw. induction Hw as [|ls v l x Hw IH Hadj].
  - destruct (inv_source _ _ HI) as [?|(e&He&_&Hd)]; [by left|].
    right. exists e. split; [done|]. rewrite Hd. done.
  - destruct IH as [Hv|(e&He&Hle)].
    + destruct (inv_frontier _ _ HI v ls x l Hv Hw Hadj) as [?|(e&He&_&Hle)];
        [by left|].
      right. by exists e.
    + right. exists e. split; [done|]. rewrite path_cost_snoc.
      eapply nle_trans; [|exact Hle|].
      * by eapply walk_cost_nonneg.
      * apply nle_nadd_r; [by eapply walk_cost_nonneg|].
        by eapply adj_cost_nonneg.
Qed.

Lemma pop_None heap : pop heap = None → heap = [].
Proof.
  intros Hp. destruct heap as [|e heap]; [done|].
  destruct (pop_cons _ _ Hpop (e :: heap)) as (e'&h'&Hp'&_); [done|congruence].
Qed.

Lemma pop_Some heap e h :
  pop heap = Some (e, h) → (∀ e', e' ∈ heap → valid e') →
  heap ≡ₚ e :: h ∧ ∀ e', e' ∈ heap → nle (a_dist e) (a_dist e').
Proof.
  intros Hp Hv. destruct heap as [|e0 heap].
  { by rewrite (pop_nil _ _ Hpop) in Hp. }
  destruct (pop_cons _ _ Hpop (e0 :: heap)) as (e'&h'&Hp'&Hperm&Hmin); [done|].
  rewrite Hp in Hp'. injection Hp' as <- <-. split; [done|].
  intros e' He'. assert (Forall (λ x, a_dist x ≠ NaN) (e0 :: heap)) as Hnan.
  { apply Forall_forall. intros x Hx Heq. pose proof (valid_nonneg x (Hv x Hx)) as Hn.
    by rewrite Heq in Hn. }
  specialize (Hmin Hnan). rewrite Forall_forall in Hmin. by apply Hmin.
Qed.

(** The entry popped for a node not yet visited costs no more than any
    walk to that node. *)
Lemma popped_least visited heap e h ls :
  Inv visited heap → pop heap = Some (e, h) → a_node e ∉ visited →
  walk nk s ls (a_node e) → nle (a_dist e) (path_cost nk ls).
Proof.
  intros HI Hp Hnv Hw.
  destruct (pop_Some heap e h Hp (inv_valid _ _ HI)) as [_ Hmin].
  destruct (frontier visited heap ls (a_node e) HI Hw) as [?|(e'&He'&Hle)];
    [done|].
  eapply nle_trans; [|by apply Hmin|done].
  by apply valid_nonneg, (inv_valid _ _ HI).
Qed.

Lemma Inv_init : t ≠ s ∨ True → Inv ∅ [mkAEntry (Fin 0) s [s] []].
Proof.
  intros _. split.
  - intros e He. apply list_elem_of_singleton in He as ->.
    split_and!; [constructor|done|done].
  - right. eexists. split; [by apply list_elem_of_singleton|done].
  - intros x ls y l Hx. by apply elem_of_empty in Hx.
  - apply not_elem_of_empty.
Qed.

Lemma Inv_skip visited heap e h :
  Inv visited heap → pop heap = Some (e, h) → a_node e ∈ visited →
  Inv visited h.
Proof.
  intros HI Hp Hv.
  destruct (pop_Some heap e h Hp (inv_valid _ _ HI)) as [Hperm _].
  assert (∀ e', e' ∈ heap ↔ e' = e ∨ e' ∈ h) as Hin.
  { intros e'. rewrite Hperm. apply elem_of_cons. }
  split.
  - intros e' He'. apply (inv_valid _ _ HI), Hin. by right.
  - destruct (inv_source _ _ HI) as [?|(e'&He'&Hn&Hd)]; [by left|].
    apply Hin in He' as [->|He']; [left; congruence|].
    right. by exists e'.
  - intros x ls y l Hx Hw Hadj.
    destruct (inv_frontier _ _ HI x ls y l Hx Hw Hadj) as [?|(e'&He'&Hn&Hle)];
      [by left|].
    apply Hin in He' as [->|He']; [left; congruence|].
    right. by exists e'.
  - apply (inv_target _ _ HI).
Qed.

Lemma Inv_expand visited heap e h :
  Inv visited heap → pop heap = Some (e, h) → a_node e ∉ visited →
  a_node e ≠ t →
  Inv ({[a_node e]} ∪ visited) (h ++ (pushed e <$> adj nk (a_node e))).
Proof.
  intros HI Hp Hnv Hnt.
  destruct (pop_Some heap e h Hp (inv_valid _ _ HI)) as [Hperm _].
  assert (∀ e', e' ∈ heap ↔ e' = e ∨ e' ∈ h) as Hin.
  { intros e'. rewrite Hperm. apply elem_of_cons. }
  destruct (inv_valid _ _ HI e) as (Hwe&Hde&Hne); [apply Hin; by left|].
  split.
  - intros e' He'. apply elem_of_app in He' as [He'|He'].
    + apply (inv_valid _ _ HI), Hin. by right.
    + apply list_elem_of_fmap in He' as ([nb l]&->&Hadj).
      unfold valid, pushed. simpl. split_and!.
      * by apply (walk_snoc nk s _ (a_node e)).
      * rewrite path_cost_snoc, Hde. f_equal. by eapply call_cost_adj.
      * by destruct (Hclosed _ _ _ Hadj).
  - destruct (inv_source _ _ HI) as [?|(e'&He'&Hn&Hd)]; [left; set_solver|].
    apply Hin in He' as [->|He']; [left; set_solver|].
    right. exists e'. split; [|done]. apply elem_of_app. by left.
  - intros x ls y l Hx Hw Hadj.
    apply elem_of_union in Hx as [Hx|Hx].
    + apply elem_of_singleton in Hx as ->. right.
      exists (pushed e (y, l)). split_and!.
      * apply elem_of_app. right. apply list_elem_of_fmap. by exists (y, l).
      * done.
      * unfold pushed. simpl. rewrite path_cost_snoc.
        rewrite (call_cost_adj _ _ _ _ Hadj).
        pose proof (adj_cost_nonneg nk Hcost _ _ _ Hadj) as Hnl.
        apply nadd_mono; try done.
        -- apply valid_nonneg. apply (inv_valid _ _ HI), Hin. by left.
        -- by eapply walk_cost_nonneg.
        -- by eapply popped_least.
        -- by apply nle_refl.
    + destruct (inv_frontier _ _ HI x ls y l Hx Hw Hadj) as [?|(e'&He'&Hn&Hle)];
        [left; set_solver|].
      apply Hin in He' as [->|He']; [left; set_solver|].
      right. exists e'. split; [|done]. apply elem_of_app. by left.
  - pose proof (inv_target _ _ HI). set_solver.
Qed.

(** The iterations left: the entries of the heap, and those that the nodes
    not yet visited can push. *)
Definition to_push (visited : gset nat) (l : list node) : nat :=
  sum_list_with (λ u, if decide (u ∈ visited) then 0 else length (adj nk u)) l.

Lemma to_push_visit visited y (l : list node) :
  NoDup l → y ∉ visited →
  to_push ({[y]} ∪ visited) l + (if decide (y ∈ l) then length (adj nk y) else 0)
  = to_push visited l.
Proof.
  intros Hl Hy. unfold to_push. induction Hl as [|u l Hu Hl IH]; [done|].
  simpl. destruct (decide (u = y)) as [->|Hne].
  - destruct (decide (y ∈ {[y]} ∪ visited)); [|set_solver].
    destruct (decide (y ∈ visited)); [done|].
    destruct (decide (y ∈ y :: l)); [|set_solver].
    destruct (decide (y ∈ l)); [done|]. lia.
  - assert (y ∈ u :: l ↔ y ∈ l) as Hiff.
    { rewrite elem_of_cons. split; [intros [Heq|?]; [by destruct Hne|done]|].
      by right. }
    destruct (decide (u ∈ visited)) as [Hv|Hv].
    + destruct (decide (u ∈ {[y]} ∪ visited)); [|set_solver].
      destruct (decide (y ∈ l)) as [H1|H1], (decide (y ∈ u :: l)) as [H2|H2];
        try lia; exfalso; tauto.
    + destruct (decide (u ∈ {[y]} ∪ visited)); [set_solver|].
      destruct (decide (y ∈ l)) as [H1|H1], (decide (y ∈ u :: l)) as [H2|H2];
        try lia; exfalso; tauto.
Qed.

Lemma to_push_empty (l : list node) :
  to_push ∅ l = sum_list_with (λ u, length (adj nk u)) l.
Proof.
  unfold to_push. induction l as [|u l IH]; simpl; [done|].
  destruct (decide (u ∈ (∅ : gset nat))); [set_solver|]. by rewrite IH.
Qed.

(** The loop returns a cheapest walk to the target, or the empty path when
    there is no walk. *)
Lemma A_star_loop_correct fuel visited heap :
  Inv visited heap →
  length heap + to_push visited (nodes nk) < fuel →
  ∃ ns ls,
    A_star_loop pop fuel nk (all_plinks nk) [] (nodes nk) [] visited heap [t]
      = Ret (ns, ls) ∧
    ((walk nk s ls t ∧
      ∀ ls', walk nk s ls' t → nle (path_cost nk ls) (path_cost nk ls')) ∨
     (ns = [] ∧ ls = [] ∧ ∀ ls', ¬ walk nk s ls' t)).
Proof.
  revert visited heap. induction fuel as [|fuel IH]; intros visited heap HI Hf;
    [lia|].
  simpl. destruct (pop heap) as [[e h]|] eqn:Hp.
  - destruct (pop_Some heap e h Hp (inv_valid _ _ HI)) as [Hperm _].
    assert (length heap = S (length h)) as Hlen by (by rewrite Hperm).
    destruct (decide (a_node e ∈ visited)) as [Hv|Hv].
    + apply IH; [by apply (Inv_skip visited heap e h)|lia].
    + destruct (decide (Some t = Some (a_node e))) as [Ht|Ht].
      * injection Ht as Ht. exists (a_nodes e), (a_plinks e). split; [done|].
        left. destruct (inv_valid _ _ HI e) as (Hwe&Hde&_).
        { rewrite Hperm. left. }
        split; [by rewrite Ht|]. intros ls' Hw'. rewrite <-Hde.
        eapply popped_least; [done..|by rewrite <-Ht].
      * rewrite A_star_push_all. apply IH.
        -- apply (Inv_expand visited heap); [done..|congruence].
        -- rewrite length_app, length_fmap.
           pose proof (to_push_visit visited (a_node e) (nodes nk) Hnd Hv) as Hm.
           destruct (inv_valid _ _ HI e) as (_&_&Hne); [rewrite Hperm; left|].
           rewrite decide_True in Hm by done. lia.
  - apply pop_None in Hp as ->. exists [], []. split; [done|].
    right. split_and!; [done..|]. intros ls' Hw'.
    destruct (frontier visited [] ls' t HI Hw') as [Ht|(e&He&_)].
    + by apply (inv_target _ _ HI).
    + by apply elem_of_nil in He.
Qed.

(** [A_star] with its default arguments. *)
Lemma A_star_correct fuel :
  A_star_fuel nk ≤ fuel →
  ∃ ns ls,
    A_star pop fuel nk s t None None None None None = Ret (ns, ls) ∧
    ((walk nk s ls t ∧
      ∀ ls', walk nk s ls' t → nle (path_cost nk ls) (path_cost nk ls')) ∨
     (ns = [] ∧ ls = [] ∧ ∀ ls', ¬ walk nk s ls' t)).
Proof.
  intros Hf. unfold A_star. simpl.
  apply A_star_loop_correct; [apply Inv_init; by right|].
  rewrite to_push_empty. unfold A_star_fuel in Hf. simpl. lia.
Qed.

End AStar.

(** *** The two together *)

Lemma nle_trans_number a b c : b ≠ NaN → nle a b → nle b c → nle a c.
Proof. intros. num_solve. Qed.

Lemma pop_min_None {E} (key : E → num) h : pop_min key h = None → h = [].
Proof.
  destruct h as [|e h]; [done|]. simpl.
  destruct (pop_min key h) as [[m r]|]; [|done].
  by destruct (nlt (key m) (key e)).
Qed.

(** The pop used for evaluation removes a least entry. *)
Lemma pop_min_is_heappop {E} (key : E → num) : is_heappop key (pop_min key).
Proof.
  split; [done|]. intros h Hh.
  induction h as [|e h IH]; [done|]. simpl.
  destruct (pop_min key h) as [[m r]|] eqn:Hp.
  - destruct IH as (m'&r'&Heq&Hperm&Hmin).
    { intros ->. done. }
    injection Heq as <- <-.
    destruct (nlt (key m) (key e)) eqn:Hlt.
    + exists m, (e :: r). split_and!; [done| |].
      * rewrite Hperm. apply Permutation_swap.
      * intros Hnan. apply Forall_cons in Hnan as [_ Hnan].
        constructor; [|by apply Hmin].
        unfold nle. revert Hlt. generalize (key m), (key e). intros a b ?.
        num_solve.
    + exists e, h. split_and!; [done..|].
      intros Hnan. apply Forall_cons in Hnan as [He Hnan].
      specialize (Hmin Hnan). constructor.
      * unfold nle. generalize (key e). intros a. num_solve.
      * rewrite Forall_forall in *. intros x Hx.
        apply (nle_trans_number _ (key m)); [|done|by apply Hmin].
        apply Hnan. rewrite Hperm. left.
  - apply pop_min_None in Hp as ->. exists e, []. split_and!; [done..|].
    intros _. constructor; [|constructor].
    unfold nle. generalize (key e). intros a. num_solve.
Qed.

Lemma walk_cost_number nk s ls x :
  costs_symmetric nk → walk nk s ls x → ∃ c, path_cost nk ls = Fin c.
Proof.
  intros Hcost. induction 1 as [|ls v l x Hw [c IH] Hadj]; [by exists 0%Z|].
  destruct (Hcost v x l Hadj) as (c'&_&Hc'&_).
  rewrite path_cost_snoc, IH, Hc'. by eexists.
Qed.

(** Checks of the hypotheses on a given network. *)
Lemma adj_forall nk (P : node → node * nat → Prop) :
  map_Forall (λ u es, Forall (P u) es) (graph nk) →
  ∀ u v l, (v, l) ∈ adj nk u → P u (v, l).
Proof.
  intros Hall u v l Hin. unfold adj in Hin.
  destruct (graph nk !! u) as [es|] eqn:Hes; simpl in Hin;
    [|by apply elem_of_nil in Hin].
  specialize (Hall u es Hes). rewrite Forall_forall in Hall. by apply Hall.
Qed.

Definition symmetric_cost (l : Link) : bool :=
  match costSD l, costDS l with
  | Fin a, Fin b => bool_decide (a = b ∧ (0 ≤ a)%Z)
  | _, _ => false
  end.

Lemma costs_symmetric_checked nk :
  map_Forall (λ (u : nat) es,
      Forall (λ p : node * nat, symmetric_cost (link nk p.2) = true) es)
    (graph nk) →
  costs_symmetric nk.
Proof.
  intros Hall u v l Hadj.
  pose proof (adj_forall nk (λ _ p, symmetric_cost (link nk p.2) = true)
                Hall u v l Hadj) as Hc.
  simpl in Hc. unfold symmetric_cost in Hc.
  destruct (costSD (link nk l)) as [a| | |]; try done.
  destruct (costDS (link nk l)) as [b| | |]; try done.
  apply bool_decide_eq_true in Hc as [-> ?]. by exists b.
Qed.

Lemma graph_closed_checked nk :
  map_Forall (λ (u : nat) es,
      Forall (λ p : node * nat, p.1 ∈ nodes nk ∧ p.2 ∈ all_plinks nk) es)
    (graph nk) →
  graph_closed nk.
Proof.
  intros Hall u v l Hadj.
  apply (adj_forall nk (λ _ p, p.1 ∈ nodes nk ∧ p.2 ∈ all_plinks nk)
           Hall u v l Hadj).
Qed.

Lemma parallel_links_agree_checked nk :
  map_Forall (λ (u : nat) es,
      Forall (λ p : node * nat,
                Forall (λ q : node * nat,
                          p.1 = q.1 →
                          costSD (link nk p.2) = costSD (link nk q.2))
                       (adj nk u)) es)
    (graph nk) →
  parallel_links_agree nk.
Proof.
  intros Hall u v l l' Hadj Hadj'.
  pose proof (adj_forall nk
    (λ u p, Forall (λ q : node * nat,
                      p.1 = q.1 → costSD (link nk p.2) = costSD (link nk q.2))
                   (adj nk u)) Hall u v l Hadj) as Hq.
  simpl in Hq. rewrite Forall_forall in Hq. by apply (Hq (v, l') Hadj').
Qed.

Definition fitting_cost (n : nat) (l : Link) : bool :=
  match costSD l with
  | Fin c => bool_decide ((Z.of_nat n + 1) * c < float_max_int)%Z
  | _ => true
  end.

Lemma costs_fit_checked nk :
  map_Forall (λ (u : nat) es,
      Forall (λ p : node * nat,
                fitting_cost (length (nodes nk)) (link nk p.2) = true) es)
    (graph nk) →
  costs_fit nk.
Proof.
  intros Hall u v l c Hadj Hc.
  pose proof (adj_forall nk
    (λ _ p, fitting_cost (length (nodes nk)) (link nk p.2) = true)
    Hall u v l Hadj) as Hf.
  cbn [snd] in Hf. unfold fitting_cost in Hf. rewrite Hc in Hf.
  by apply bool_decide_eq_true in Hf.
Qed.


Lemma square_NoDup : NoDup (nodes nk_square).
Proof. eapply (bool_decide_unpack _). vm_compute. exact I. Qed.

Lemma square_closed : graph_closed nk_square.
Proof.
  apply graph_closed_checked. eapply (bool_decide_unpack _).
  vm_compute. exact I.
Qed.

Lemma square_symmetric : costs_symmetric nk_square.
Proof.
  apply costs_symmetric_checked. eapply (bool_decide_unpack _).
  vm_compute. exact I.
Qed.

Lemma square_parallel : parallel_links_agree nk_square.
Proof.
  apply parallel_links_agree_checked. eapply (bool_decide_unpack _).
  vm_compute. exact I.
Qed.

Lemma square_fit : costs_fit nk_square.
Proof.
  apply costs_fit_checked. eapply (bool_decide_unpack _).
  vm_compute. exact I.
Qed.



End ShortestProps.

(** ** Further properties of the searches *)

Module SearchProps.
Import Paths Examples ShortestProps.

(** With its default arguments, a pop of a least entry and [A_star_fuel]
    iterations, [A_star] returns a cheapest path from the source to the
    target, or the empty path when the target cannot be reached (in a
    network of distinct nodes whose adjacency entries name nodes and links
    of the network, with costs that are non-negative numbers, the same in
    both directions). *)
Theorem A_star_cheapest_path nk pop fuel s t :
  is_heappop a_dist pop →
  NoDup (nodes nk) → graph_closed nk → costs_symmetric nk →
  s ∈ nodes nk → A_star_fuel nk ≤ fuel →
  ∃ ns ls,
    A_star pop fuel nk s t None None None None None = Ret (ns, ls) ∧
    ((walk nk s ls t ∧
      ∀ ls', walk nk s ls' t → nle (path_cost nk ls) (path_cost nk ls')) ∨
     (ns = [] ∧ ls = [] ∧ ∀ ls', ¬ walk nk s ls' t)).
Proof.
  intros Hpop Hnd Hclosed Hcost Hs Hf.
  exact (A_star_correct nk pop Hpop Hnd Hclosed Hcost s t Hs fuel Hf).
Qed.

Lemma A_star_cheapest_path_witness :
  ∃ ns ls,
    A_star (pop_min a_dist) 12 nk_square 2 4 None None None None None
      = Ret (ns, ls) ∧
    ((walk nk_square 2 ls 4 ∧
      ∀ ls', walk nk_square 2 ls' 4 →
             nle (path_cost nk_square ls) (path_cost nk_square ls')) ∨
     (ns = [] ∧ ls = [] ∧ ∀ ls', ¬ walk nk_square 2 ls' 4)).
Proof.
  apply (A_star_cheapest_path nk_square (pop_min a_dist) 12 2 4).
  - apply pop_min_is_heappop.
  - apply square_NoDup.
  - apply square_closed.
  - apply square_symmetric.
  - vm_compute. set_solver.
  - vm_compute. lia.
Defined.



End SearchProps.

(** ** Kruskal on any subset of the nodes *)

Module ForestProps.
Import MST Examples MSTProps.

Lemma size_list_to_set_le (l : list node) :
  size (list_to_set l : gset node) ≤ length l.
Proof.
  induction l as [|x l IH]; [done|].
  change (list_to_set (x :: l) : gset node)
    with ({[x]} ∪ (list_to_set l : gset node)).
  rewrite size_union_alt, size_singleton. simpl.
  assert (size ((list_to_set l : gset node) ∖ {[x]}) ≤ size (list_to_set l : gset node))
    by (apply subseteq_size; set_solver).
  lia.
Qed.

Lemma classes_pos (uf : UnionFind) (V : gset node) x :
  x ∈ V → 1 ≤ classes uf V.
Proof.
  intros Hx. unfold classes.
  assert (({[uf x]} : gset node) ⊆ set_map uf V) as Hsub.
  { apply singleton_subseteq_l, elem_of_map. by exists x. }
  apply subseteq_size in Hsub. by rewrite size_singleton in Hsub.
Qed.

(** Whatever the subset of nodes, connected or not, the links yielded by
    [kruskal] are links between nodes of the subset, contain no cycle,
    connect two nodes exactly when links between nodes of the subset
    connect them, and are fewer than the nodes of the subset (in a graph
    whose adjacency entries are links between the two nodes). *)
Theorem kruskal_spanning_forest nk allowed_nodes :
  adjacency_of_links nk →
  (∀ l, l ∈ kruskal nk allowed_nodes → induced nk allowed_nodes l) ∧
  acyclic nk (kruskal nk allowed_nodes) ∧
  (∀ x y, connected nk (kruskal nk allowed_nodes) x y ↔
          connected_by nk (induced nk allowed_nodes) x y) ∧
  (allowed_nodes ≠ [] →
   length (kruskal nk allowed_nodes) < length allowed_nodes).
Proof.
  intros Hwf. unfold kruskal.
  set (S := sorted_by_cost (kruskal_edges nk allowed_nodes)).
  assert (Forall (edge_ok nk allowed_nodes) S) as Hok.
  { unfold S. rewrite sorted_by_cost_perm. by apply kruskal_edges_ok. }
  assert (∀ l, l ∈ e_link <$> S ↔ induced nk allowed_nodes l) as Hlinks.
  { intros l. unfold S. rewrite sorted_by_cost_perm. apply kruskal_edges_links. }
  destruct (scan_invariant nk allowed_nodes S Hok) as (_&Hsf&Hw&Hsub&Hconn).
  split_and!.
  - intros l Hl. by apply Hlinks, Hsub.
  - by apply (sforest_acyclic nk (list_to_set allowed_nodes)).
  - intros x y. rewrite Hconn.
    split; apply connected_by_mono; intros l; apply Hlinks.
  - intros Hne. destruct allowed_nodes as [|x a_n]; [done|].
    pose proof (classes_sforest nk _ _ Hw Hsf) as Hc.
    pose proof (classes_pos (lab_of nk (kruskal_scan uf_init S))
                  (list_to_set (x :: a_n)) x) as Hp.
    pose proof (size_list_to_set_le (x :: a_n)) as Hs.
    assert (x ∈ (list_to_set (x :: a_n) : gset node)) as Hx by set_solver.
    specialize (Hp Hx). lia.
Qed.

Lemma kruskal_spanning_forest_witness :
  kruskal nk_square [1; 2; 4] = [1; 5] ∧
  (∀ l, l ∈ kruskal nk_square [1; 2; 4] → induced nk_square [1; 2; 4] l) ∧
  acyclic nk_square (kruskal nk_square [1; 2; 4]) ∧
  (∀ x y, connected nk_square (kruskal nk_square [1; 2; 4]) x y ↔
          connected_by nk_square (induced nk_square [1; 2; 4]) x y) ∧
  ([1; 2; 4] ≠ [] → length (kruskal nk_square [1; 2; 4]) < length [1; 2; 4]).
Proof.
  split; [vm_compute; reflexivity|].
  apply (kruskal_spanning_forest nk_square [1; 2; 4]).
  apply square_adjacency.
Defined.

End ForestProps.

(** ** What A* returns, whatever its arguments *)

Module AStarProps.
Import Paths Examples.

Section Sound.
Context (nk : Network) (pop : heappop_t AEntry).
Hypothesis Hpop : is_heappop a_dist pop.
Context (a_p e_p : list nat) (a_n e_n : list node) (s : node).
Context (full : list node).

Definition link_ok (l : nat) : Prop := l ∈ a_p ∧ l ∉ e_p.
Definition node_ok (x : node) : Prop := x ∈ a_n ∧ x ∉ e_n.

(** An entry of the heap, when the constraints [met] have been met. *)
Definition entry_ok (met : list node) (e : AEntry) : Prop :=
  route nk s (a_nodes e) (a_plinks e) (a_node e) ∧
  Forall link_ok (a_plinks e) ∧
  Forall node_ok (tail (a_nodes e)) ∧
  met `sublist_of` removelast (a_nodes e).

Lemma route_last ns ls x : route nk s ns ls x → last ns = Some x.
Proof. destruct 1; [done|apply last_snoc]. Qed.

Lemma route_tail_snoc ns ls v x :
  route nk s ns ls v → tail (ns ++ [x]) = tail ns ++ [x].
Proof. by destruct 1 as [|ns' ? ? ? ? ? ?]; [|destruct ns']. Qed.

Lemma elem_of_A_star_push e heap e' :
  e' ∈ A_star_push nk a_p e_p a_n e_n e heap →
  e' ∈ heap ∨
  ∃ nb l, (nb, l) ∈ adj nk (a_node e) ∧ node_ok nb ∧ link_ok l ∧
          a_node e' = nb ∧ a_nodes e' = a_nodes e ++ [nb] ∧
          a_plinks e' = a_plinks e ++ [l].
Proof.
  unfold A_star_push.
  assert (∀ es h, (∀ p, p ∈ es → p ∈ adj nk (a_node e)) →
            e' ∈ foldl (λ h '(neighbor, adj_plink),
                   if negb (mem neighbor a_n && negb (mem neighbor e_n)) then h
                   else if negb (mem adj_plink a_p && negb (mem adj_plink e_p))
                   then h
                   else h ++ [mkAEntry
                                (nadd (a_dist e)
                                   (call_cost (link nk adj_plink) (a_node e)))
                                neighbor (a_nodes e ++ [neighbor])
                                (a_plinks e ++ [adj_plink])]) h es →
            e' ∈ h ∨
            ∃ nb l, (nb, l) ∈ adj nk (a_node e) ∧ node_ok nb ∧ link_ok l ∧
                    a_node e' = nb ∧ a_nodes e' = a_nodes e ++ [nb] ∧
                    a_plinks e' = a_plinks e ++ [l]) as Hes.
  { induction es as [|[nb l] es IH]; intros h Hsub; simpl; [by left|].
    intros Hin. apply IH in Hin; [|intros; apply Hsub; by right].
    destruct Hin as [Hin|Hin]; [|by right].
    unfold mem in Hin.
    repeat case_bool_decide; simpl in Hin; try (by left).
    apply elem_of_app in Hin as [Hin|Hin]; [by left|].
    apply list_elem_of_singleton in Hin as ->. right. exists nb, l.
    split_and!; try done. apply Hsub. left. }
  by apply Hes.
Qed.

Lemma pushed_ok met e heap :
  entry_ok met e →
  (∀ e', e' ∈ heap → entry_ok met e') →
  ∀ e', e' ∈ A_star_push nk a_p e_p a_n e_n e heap → entry_ok met e'.
Proof.
  intros (Hr&Hl&Hn&Hd) Hheap e' He'.
  apply elem_of_A_star_push in He' as [?|(nb&l&Hadj&Hnb&Hlk&H1&H2&H3)];
    [by apply Hheap|].
  unfold entry_ok. rewrite H1, H2, H3. split_and!.
  - by apply (route_snoc nk s _ _ (a_node e)).
  - apply Forall_app. split; [done|by constructor].
  - rewrite (route_tail_snoc _ _ _ _ Hr). apply Forall_app.
    split; [done|by constructor].
  - rewrite removelast_last.
    pose proof (route_last _ _ _ Hr) as Hlast.
    apply last_Some in Hlast as [ns' Hns']. rewrite Hns' in Hd |- *.
    rewrite removelast_last in Hd. by apply sublist_inserts_r.
Qed.

Lemma popped_elem heap e h :
  pop heap = Some (e, h) → e ∈ heap ∧ ∀ x, x ∈ h → x ∈ heap.
Proof.
  intros Hp. destruct heap as [|e0 heap].
  { by rewrite (pop_nil _ _ Hpop) in Hp. }
  destruct (pop_cons _ _ Hpop (e0 :: heap)) as (e'&h'&Hp'&Hperm&_); [done|].
  rewrite Hp in Hp'. injection Hp' as <- <-.
  split; [rewrite Hperm; left|]. intros x Hx. rewrite Hperm. by right.
Qed.

(** The loop returns the empty path, or a path that meets the constraints
    left in order and ends with the last of them. *)
Lemma A_star_loop_sound fuel visited heap pc met ns ls :
  met ++ reverse pc = full →
  (∀ e, e ∈ heap → entry_ok met e) →
  A_star_loop pop fuel nk a_p e_p a_n e_n visited heap pc = Ret (ns, ls) →
  (ns = [] ∧ ls = []) ∨
  (∃ x, route nk s ns ls x ∧ last full = Some x) ∧
  Forall link_ok ls ∧ Forall node_ok (tail ns) ∧ full `sublist_of` ns.
Proof.
  revert visited heap pc met.
  induction fuel as [|fuel IH]; intros visited heap pc met Hfull Hheap;
    [done|].
  simpl. destruct (pop heap) as [[e h]|] eqn:Hp.
  - destruct (popped_elem heap e h Hp) as [He Hh].
    destruct (decide (a_node e ∈ visited)).
    { apply (IH _ _ _ met); [done|]. intros; apply Hheap; auto. }
    destruct (decide (last pc = Some (a_node e))) as [Hlast|Hlast].
    + pose proof Hlast as Hpc. apply last_Some in Hpc as [pc' Hpc].
      rewrite Hpc, removelast_last.
      rewrite Hpc, reverse_app in Hfull. simpl in Hfull.
      destruct (Hheap e He) as (Hr&Hl&Hn&Hd).
      pose proof (route_last _ _ _ Hr) as Hlast'.
      apply last_Some in Hlast' as [ns' Hns'].
      assert ((met ++ [a_node e]) `sublist_of` a_nodes e) as Hsub.
      { rewrite Hns' in Hd |- *. rewrite removelast_last in Hd.
        by apply sublist_app. }
      destruct pc' as [|c pc'].
      * intros [= <- <-]. right. simpl in Hfull. split_and!; try done.
        -- exists (a_node e). split; [done|]. rewrite <-Hfull. apply last_snoc.
        -- by rewrite <-Hfull.
      * apply (IH _ _ _ (met ++ [a_node e])).
        -- rewrite <-Hfull. by rewrite <-app_assoc.
        -- intros e' He'. apply elem_of_A_star_push in He'
             as [He'|(nb&l&Hadj&Hnb&Hlk&H1&H2&H3)];
             [by apply elem_of_nil in He'|].
           unfold entry_ok. rewrite H1, H2, H3. split_and!.
           ++ by apply (route_snoc nk s _ _ (a_node e)).
           ++ apply Forall_app. split; [done|by constructor].
           ++ rewrite (route_tail_snoc _ _ _ _ Hr). apply Forall_app.
              split; [done|by constructor].
           ++ by rewrite removelast_last.
    + apply (IH _ _ _ met); [done|].
      apply pushed_ok; [by apply Hheap|]. intros; apply Hheap; auto.
  - intros [= <- <-]. by left.
Qed.

End Sound.

(** A path returned by [A_star], whatever the arguments, is a path of the
    graph from the source to the target: unless it is the empty path, its
    nodes begin with the source, each link leads from one node to the next,
    no link and no node after the source is excluded or outside the allowed
    ones, and the path constraints are met in their order. *)
Theorem A_star_returns_path pop fuel nk s t e_p e_n pcs a_p a_n ns ls :
  is_heappop a_dist pop →
  A_star pop fuel nk s t e_p e_n pcs a_p a_n = Ret (ns, ls) →
  (ns = [] ∧ ls = []) ∨
  (route nk s ns ls t ∧
   Forall (λ l, l ∈ allowed_plinks_of nk a_p ∧ l ∉ default [] e_p) ls ∧
   Forall (λ x, x ∈ allowed_nodes_of nk a_n ∧ x ∉ default [] e_n) (tail ns) ∧
   (default [] pcs ++ [t]) `sublist_of` ns).
Proof.
  intros Hpop. unfold A_star. intros Hret.
  apply (A_star_loop_sound nk pop Hpop _ _ _ _ s (default [] pcs ++ [t])
           _ _ _ _ []) in Hret.
  - destruct Hret as [?|((x&Hr&Hx)&Hl&Hn&Hsub)]; [by left|]. right.
    rewrite last_snoc in Hx. injection Hx as <-. done.
  - simpl. rewrite reverse_cons, reverse_involutive. done.
  - intros e He. apply list_elem_of_singleton in He as ->.
    split_and!; simpl; [constructor|constructor|constructor|].
    apply sublist_nil_l.
Qed.

Lemma A_star_returns_path_witness :
  A_star (pop_min a_dist) 30 nk_square 2 4 None (Some [1]) (Some [3]) None None
    = Ret ([2; 3; 4], [2; 4]) ∧
  ((([2; 3; 4] : list node) = [] ∧ ([2; 4] : list nat) = []) ∨
   (route nk_square 2 [2; 3; 4] [2; 4] 4 ∧
    Forall (λ l, l ∈ allowed_plinks_of nk_square None ∧ l ∉ default [] None)
           [2; 4] ∧
    Forall (λ x, x ∈ allowed_nodes_of nk_square None ∧ x ∉ default [] (Some [1]))
           (tail [2; 3; 4]) ∧
    (default [] (Some [3]) ++ [4]) `sublist_of` [2; 3; 4])).
Proof.
  split; [vm_compute; reflexivity|].
  apply (A_star_returns_path (pop_min a_dist) 30 nk_square 2 4 None (Some [1])
           (Some [3]) None None).
  - apply ShortestProps.pop_min_is_heappop.
  - vm_compute. reflexivity.
Defined.

End AStarProps.

(** ** The flow algorithms between a node and itself *)

Module FlowLoopProps.
Import Flow Examples.

(** [ford_fulkerson(s, s)] does not return: [augment_ff] answers
    [float('inf')] at once, for ever.  Whatever the number of iterations
    allowed, they run out, and the flows are left at zero. *)
Theorem ford_fulkerson_same_node_loops fuel nk s :
  ford_fulkerson fuel nk s s = (reset_flow nk, Timeout).
Proof.
  unfold ford_fulkerson.
  assert (∀ nk', ford_fulkerson_loop fuel nk' s s = (nk', Timeout)) as ->; [|done].
  induction fuel as [|fuel IH]; intros nk'; [done|].
  cbn [ford_fulkerson_loop]. unfold augment_ff. rewrite decide_True by done.
  simpl. apply IH.
Qed.

Lemma getitem_insert_ne {V} (d : gmap nat V) (k k' : nat) (v : V) :
  k ≠ k' → getitem (<[k := v]> d) k' = getitem d k'.
Proof. intros. unfold getitem. by rewrite lookup_insert_ne. Qed.

Lemma getitem_insert_eq {V} (d : gmap nat V) (k : nat) (v : V) :
  getitem (<[k := v]> d) k = Ret v.
Proof. unfold getitem. by rewrite lookup_insert_eq. Qed.

(** What [augment_ek] keeps for the source: its residual capacity is
    infinite and it has a predecessor. *)
Definition source_kept (s : node) (st : EKState) : Prop :=
  getitem (ek_res_cap st) s = Ret PInf ∧
  ∃ p, getitem (ek_path st) s = Ret (Some p).

Lemma augment_ek_scan_source nk s c ls st st' :
  source_kept s st → augment_ek_scan nk c s ls st = Ret st' → source_kept s st'.
Proof.
  revert st. induction ls as [|[nb l] ls IH]; intros st Hk; simpl.
  { by intros [= <-]. }
  destruct (truthy _); [|by apply IH].
  destruct (getitem (ek_path st) nb) as [prev|e|] eqn:Hnb; cbn; [|done..].
  destruct prev as [p|]; [by apply IH|].
  destruct (getitem (ek_res_cap st) c) as [rc|e|]; cbn; [|done..].
  destruct Hk as [Hrc [p Hp]].
  assert (nb ≠ s) as Hne by (intros ->; congruence).
  rewrite decide_False by done. apply IH. unfold source_kept. simpl.
  rewrite !getitem_insert_ne by done. eauto.
Qed.

Lemma augment_ek_loop_source fuel nk s st st' :
  source_kept s st → augment_ek_loop fuel nk s st = Ret st' → source_kept s st'.
Proof.
  revert st. induction fuel as [|fuel IH]; intros st Hk; simpl; [done|].
  destruct (ek_Q st) as [|c q]; [by intros [= <-]|].
  destruct (augment_ek_scan nk c s (adj nk c) _) as [st1|e|] eqn:Hscan;
    cbn; [|done..].
  apply IH. eapply augment_ek_scan_source; [|done]. done.
Qed.

Lemma augment_ek_same_node fuel nk s path gf :
  augment_ek fuel nk s s = Ret (path, gf) → gf = PInf.
Proof.
  unfold augment_ek.
  destruct (augment_ek_loop fuel nk s _) as [st|e|] eqn:Hloop; cbn; [|done..].
  apply augment_ek_loop_source in Hloop as [Hrc _].
  - rewrite Hrc. cbn. by intros [= _ <-].
  - split; simpl; rewrite getitem_insert_eq; eauto.
Qed.

(** [edmonds_karp(s, s)] never returns a flow: the residual capacity of
    the source stays infinite, no link is touched, and the loop goes on
    (or a node missing from [self.nodes] raises [KeyError]). *)
Theorem edmonds_karp_same_node_loops fuel nk s :
  ∃ o, edmonds_karp fuel nk s s = (reset_flow nk, o) ∧ ∀ v, o ≠ Ret v.
Proof.
  unfold edmonds_karp.
  assert (∀ nk', ∃ o, edmonds_karp_loop fuel nk' s s = (nk', o) ∧ ∀ u, o ≠ Ret u)
    as Hloop.
  { induction fuel as [|fuel IH]; intros nk'; [by exists Timeout|].
    cbn [edmonds_karp_loop].
    destruct (augment_ek (S fuel) nk' s s) as [[path gf]|e|] eqn:Hek;
      [|by eexists..].
    apply augment_ek_same_node in Hek as ->. simpl.
    rewrite decide_True by done. apply IH. }
  destruct (Hloop (reset_flow nk)) as (o&->&Ho).
  destruct o as [u|e|]; [by destruct (Ho u)|by eexists..].
Qed.

(** What the search of [dinic] keeps for the source: its level. *)
Lemma dinic_scan_source nk s c ls st st' :
  (∃ k, getitem (di_level st) s = Ret (Some k)) →
  dinic_scan nk c ls st = Ret st' → ∃ k, getitem (di_level st') s = Ret (Some k).
Proof.
  revert st. induction ls as [|[nb l] ls IH]; intros st Hk; simpl.
  { by intros [= <-]. }
  destruct (getitem (di_level st) nb) as [ln|e|] eqn:Hnb; cbn; [|done..].
  destruct ln as [k'|]; [by apply IH|].
  destruct (nlt _ _); [|by apply IH].
  destruct (getitem (di_level st) c) as [[k'|]|e|]; cbn; [|done..].
  apply IH. simpl. destruct Hk as [k Hk].
  assert (nb ≠ s) as Hne by (intros ->; congruence).
  rewrite getitem_insert_ne by done. eauto.
Qed.

Lemma dinic_bfs_source fuel nk s st st' :
  (∃ k, getitem (di_level st) s = Ret (Some k)) →
  dinic_bfs fuel nk st = Ret st' → ∃ k, getitem (di_level st') s = Ret (Some k).
Proof.
  revert st. induction fuel as [|fuel IH]; intros st Hk; simpl; [done|].
  destruct (di_Q st) as [|c q]; [by intros [= <-]|].
  destruct (dinic_scan nk c (adj nk c) _) as [st1|e|] eqn:Hscan;
    cbn; [|done..].
  apply IH. eapply dinic_scan_source; [|done]. done.
Qed.

Lemma dinic_same_node_never_returns fuel nk s :
  ∃ o, dinic fuel nk s s = (reset_flow nk, o) ∧ ∀ v, o ≠ Ret v.
Proof.
  unfold dinic. generalize (None : option num) (Fin 0).
  generalize (reset_flow nk). clear nk.
  induction fuel as [|fuel IH]; intros nk flow total; [by exists Timeout|].
  cbn [dinic_loop].
  destruct (dinic_bfs (S fuel) nk _) as [st|e|] eqn:Hbfs;
    [|by eexists..].
  apply dinic_bfs_source with (s := s) in Hbfs as [k Hk];
    [|simpl; rewrite getitem_insert_eq; eauto].
  cbn [mbind outcome_bind]. rewrite Hk.
  cbn [mbind outcome_bind mret outcome_ret].
  destruct (di_flow st) as [f|]; [|by eexists].
  cbn [augment_di]. destruct (nleb _ _).
  - apply IH.
  - rewrite decide_True by done. apply IH.
Qed.

Lemma adj_reset_flow nk n : adj (reset_flow nk) n = adj nk n.
Proof.
  unfold adj, reset_flow.
  by destruct (foldl_update_graph
                 (λ x, set_flowDS (Fin 0) (set_flowSD (Fin 0) x))
                 (all_plinks nk) nk) as [-> _].
Qed.

(** [dinic(s, s)] never returns: the destination always has a level, the
    augmentation answers its limit without touching a link, and the loop
    goes on; or the call raises ([KeyError] for a node missing from
    [self.nodes]).  When the source has no link, the first round raises
    [UnboundLocalError]: the variable [flow], an argument of
    [self.augment_di(level, flow, ...)], was never bound. *)
Theorem dinic_same_node_loops fuel nk s :
  (∃ o, dinic fuel nk s s = (reset_flow nk, o) ∧ ∀ v, o ≠ Ret v) ∧
  (adj nk s = [] → 2 ≤ fuel →
   dinic fuel nk s s = (reset_flow nk, Raise UnboundLocalError)).
Proof.
  split; [apply dinic_same_node_never_returns|].
  intros Hadj Hfuel. destruct fuel as [|[|fuel]]; [lia..|].
  unfold dinic. cbn [dinic_loop dinic_bfs di_Q].
  rewrite adj_reset_flow, Hadj.
  cbn [dinic_scan mbind outcome_bind di_Q di_level di_flow].
  by rewrite getitem_insert_eq.
Qed.

Lemma dinic_same_node_loops_witness :
  (∃ o, dinic 5 nk_apart 1 1 = (reset_flow nk_apart, o) ∧ ∀ v, o ≠ Ret v) ∧
  dinic 5 nk_apart 1 1 = (reset_flow nk_apart, Raise UnboundLocalError).
Proof.
  destruct (dinic_same_node_loops 5 nk_apart 1) as [H1 H2].
  split; [exact H1|]. apply H2; [reflexivity|lia].
Defined.

End FlowLoopProps.

(** ** What the flow algorithms keep *)

Module FlowInvProps.
Import Flow Examples.

(** The two directions of every link carry opposite flows. *)
Definition balanced (nk : Network) : Prop :=
  ∀ l, ∃ z, flowSD (link nk l) = Fin z ∧ flowDS (link nk l) = Fin (- z)%Z.

Definition finite_capacities (nk : Network) : Prop :=
  ∀ l, ∃ a b, capacitySD (link nk l) = Fin a ∧ capacityDS (link nk l) = Fin b.

Definition same_capacities (nk nk' : Network) : Prop :=
  ∀ l, capacitySD (link nk' l) = capacitySD (link nk l) ∧
       capacityDS (link nk' l) = capacityDS (link nk l).

Lemma same_capacities_finite nk nk' :
  same_capacities nk nk' → finite_capacities nk → finite_capacities nk'.
Proof.
  intros Hs Hc l. destruct (Hs l) as [-> ->]. apply Hc.
Qed.

Lemma same_capacities_trans nk1 nk2 nk3 :
  same_capacities nk1 nk2 → same_capacities nk2 nk3 → same_capacities nk1 nk3.
Proof.
  intros H1 H2 l. destruct (H1 l) as [<- <-]. apply H2.
Qed.

Lemma push_flow_capacity sd f l nk : same_capacities nk (push_flow sd f l nk).
Proof.
  intros l'. unfold push_flow. split.
  - rewrite !(update_link_field capacitySD); [done|by destruct sd..].
  - rewrite !(update_link_field capacityDS); [done|by destruct sd..].
Qed.

Lemma link_push_flow sd f l nk l' :
  link (push_flow sd f l nk) l' =
    if decide (l = l') then
      match plinks nk !! l with
      | Some x =>
          let y := set_flow_dir sd (nadd (flow_dir sd x) f) x in
          set_flow_dir (rev_dir sd) (nsub (flow_dir (rev_dir sd) y) f) y
      | None => inhabitant
      end
    else link nk l'.
Proof.
  unfold push_flow. rewrite link_update_link.
  destruct (decide (l = l')) as [->|Hne]; [|by apply link_update_link_ne].
  unfold update_link at 1. simpl. rewrite lookup_alter_eq.
  by destruct (plinks nk !! l').
Qed.

(** A push of a finite amount adds it to one direction and takes it from
    the other. *)
Lemma push_flow_balanced sd g l nk :
  balanced nk → balanced (push_flow sd (Fin g) l nk).
Proof.
  intros Hb l'. rewrite link_push_flow.
  destruct (decide (l = l')) as [->|Hne]; [|apply Hb].
  destruct (Hb l') as (z&HS&HD). unfold link in HS, HD.
  rewrite lookup_total_alt in HS, HD.
  destruct (plinks nk !! l') as [x|] eqn:Hx; simpl in *.
  - destruct sd; simpl; rewrite ?HS, ?HD; simpl.
    + exists (z + g)%Z. split; [done|]. f_equal. lia.
    + exists (z - g)%Z. split; f_equal; lia.
  - by exists 0%Z.
Qed.

(** The residual capacity handed down by [augment_ff] is a number. *)
Lemma residual_finite nk val sd l :
  finite_capacities nk → balanced nk → (val = PInf ∨ ∃ v, val = Fin v) →
  ∃ r, nmin val (nsub (capacity_dir sd (link nk l)) (flow_dir sd (link nk l)))
       = Fin r.
Proof.
  intros Hc Hb Hv. destruct (Hc l) as (a&b&Ha&Hb'). destruct (Hb l) as (z&Hz&Hz').
  destruct sd; simpl; rewrite ?Ha, ?Hb', ?Hz, ?Hz'; simpl;
    destruct Hv as [->|[v ->]]; unfold nmin, nlt; try case_bool_decide; eauto.
Qed.

Lemma augment_ff_balanced fuel :
  ∀ nk visit val curr target nk' visit' o,
  augment_ff fuel nk visit val curr target = ((nk', visit'), o) →
  finite_capacities nk → balanced nk →
  (val = PInf ∨ ∃ v, val = Fin v) →
  balanced nk' ∧ same_capacities nk nk' ∧
  ∀ g, o = Ret g → (∃ z, g = Fin z) ∨ (g = PInf ∧ val = PInf).
Proof.
  induction fuel as [|fuel IH]; intros nk visit val curr target nk' visit' o.
  { intros [= <- <- <-]. done. }
  cbn [augment_ff]. destruct (decide (curr = target)).
  { intros [= <- <- <-] Hc Hb Hv. split_and!; [done..|].
    intros g [= <-]. destruct Hv as [->|[v ->]]; eauto. }
  generalize (adj nk curr). generalize (<[curr := true]> visit).
  intros vis ls. revert nk vis.
  induction ls as [|[nb l] ls IHls]; intros nk vis.
  { intros [= <- <- <-] Hc Hb Hv. split_and!; [done..|]. intros g [= <-]. eauto. }
  intros Hret Hc Hb Hv. simpl in Hret.
  destruct (nlt _ _) in Hret; [|by eapply IHls].
  destruct (vis !! nb) as [[|]|]; [by eapply IHls| |].
  2:{ injection Hret as <- <- <-. split_and!; [done..|]. by intros g. }
  destruct (augment_ff fuel nk vis _ nb target) as [[nk1 vis1] o1] eqn:Hrec.
  destruct (residual_finite nk val (dir_from curr (link nk l)) l Hc Hb Hv)
    as [r Hr].
  apply IH in Hrec as (Hb1&Hc1&Ho1); [|done|done|right; by exists r].
  pose proof (same_capacities_finite _ _ Hc1 Hc) as Hf1.
  destruct o1 as [g|e|]; simpl in Hret.
  - destruct (Ho1 g eq_refl) as [[z ->]|[-> Hinf]]; [|congruence].
    case_bool_decide.
    + injection Hret as <- <- <-. split_and!.
      * by apply push_flow_balanced.
      * eapply same_capacities_trans; [done|apply push_flow_capacity].
      * intros g [= <-]. eauto.
    + apply IHls in Hret as (?&?&?); [|done..].
      split_and!; [done| |done]. by eapply same_capacities_trans.
  - injection Hret as <- <- <-. split_and!; [done..|]. by intros g.
  - injection Hret as <- <- <-. split_and!; [done..|]. by intros g.
Qed.

Lemma ford_fulkerson_loop_balanced fuel nk s d nk' o :
  ford_fulkerson_loop fuel nk s d = (nk', o) →
  finite_capacities nk → balanced nk →
  balanced nk' ∧ same_capacities nk nk'.
Proof.
  revert nk. induction fuel as [|fuel IH]; intros nk.
  { intros [= <- <-]. done. }
  cbn [ford_fulkerson_loop].
  destruct (augment_ff (S fuel) nk _ PInf s d) as [[nk1 v1] o1] eqn:Hff.
  intros Hret Hc Hb.
  apply augment_ff_balanced in Hff as (Hb1&Hc1&_); [|done|done|by left].
  pose proof (same_capacities_finite _ _ Hc1 Hc) as Hf1.
  destruct o1 as [f|e|].
  - destruct (truthy f).
    + apply IH in Hret as [? ?]; [|done..]. split; [done|].
      by eapply same_capacities_trans.
    + by injection Hret as <- <-.
  - by injection Hret as <- <-.
  - by injection Hret as <- <-.
Qed.

Lemma reset_flow_link nk l :
  link (reset_flow nk) l =
    if decide (l ∈ dom (plinks nk))
    then set_flowDS (Fin 0) (set_flowSD (Fin 0) (link nk l))
    else link nk l.
Proof.
  unfold reset_flow, all_plinks. destruct (decide (l ∈ dom (plinks nk))) as [Hl|Hl].
  - apply foldl_update_in; [apply NoDup_elements|by apply elem_of_elements|].
    by apply elem_of_dom.
  - apply foldl_update_notin. by rewrite elem_of_elements.
Qed.

Lemma reset_flow_balanced nk : balanced (reset_flow nk).
Proof.
  intros l. rewrite reset_flow_link.
  destruct (decide (l ∈ dom (plinks nk))) as [Hl|Hl]; [by exists 0%Z|].
  rewrite link_missing by (by apply not_elem_of_dom). by exists 0%Z.
Qed.

Lemma reset_flow_capacity nk : same_capacities nk (reset_flow nk).
Proof.
  intros l. rewrite reset_flow_link.
  by destruct (decide (l ∈ dom (plinks nk))).
Qed.

(** Whenever [ford_fulkerson] stops (with a result, an exception, or out
    of iterations), the flows of every link are two opposite numbers,
    [flowDS = - flowSD], and no capacity has changed, provided that the
    capacities are numbers. *)
Theorem ford_fulkerson_flows_opposite fuel nk s d l :
  finite_capacities nk →
  (∃ z, flowSD (link (ford_fulkerson fuel nk s d).1 l) = Fin z ∧
        flowDS (link (ford_fulkerson fuel nk s d).1 l) = Fin (- z)%Z) ∧
  capacitySD (link (ford_fulkerson fuel nk s d).1 l) = capacitySD (link nk l) ∧
  capacityDS (link (ford_fulkerson fuel nk s d).1 l) = capacityDS (link nk l).
Proof.
  intros Hc. unfold ford_fulkerson.
  destruct (ford_fulkerson_loop fuel (reset_flow nk) s d) as [nk' o] eqn:Hloop.
  apply ford_fulkerson_loop_balanced in Hloop as [Hb Hs].
  - assert (same_capacities nk nk') as Hs'
      by (eapply same_capacities_trans; [apply reset_flow_capacity|done]).
    destruct o; simpl; (split; [apply Hb|apply Hs']).
  - eapply same_capacities_finite; [apply reset_flow_capacity|done].
  - apply reset_flow_balanced.
Qed.

Definition number_capacities (x : Link) : bool :=
  match capacitySD x, capacityDS x with
  | Fin _, Fin _ => true
  | _, _ => false
  end.

Lemma finite_capacities_checked nk :
  map_Forall (λ (_ : nat) x, number_capacities x = true) (plinks nk) →
  finite_capacities nk.
Proof.
  intros Hall l. unfold link. rewrite lookup_total_alt.
  destruct (plinks nk !! l) as [x|] eqn:Hx; simpl; [|by exists 0%Z, 0%Z].
  specialize (Hall l x Hx). simpl in Hall. unfold number_capacities in Hall.
  destruct (capacitySD x), (capacityDS x); try done. by eexists _, _.
Qed.

Lemma ford_fulkerson_flows_opposite_witness :
  (∃ z, flowSD (link (ford_fulkerson 20 nk_flow 1 6).1 1) = Fin z ∧
        flowDS (link (ford_fulkerson 20 nk_flow 1 6).1 1) = Fin (- z)%Z) ∧
  capacitySD (link (ford_fulkerson 20 nk_flow 1 6).1 1)
    = capacitySD (link nk_flow 1) ∧
  capacityDS (link (ford_fulkerson 20 nk_flow 1 6).1 1)
    = capacityDS (link nk_flow 1).
Proof.
  apply (ford_fulkerson_flows_opposite 20 nk_flow 1 6 1).
  apply finite_capacities_checked.
  eapply (bool_decide_unpack _). vm_compute. exact I.
Defined.

End FlowInvProps.
